(** * MedConnect: the video-call session logic of [src/pages/Videocall.tsx]

    A shallow embedding of the [VideoCall] React component: its state hooks,
    its two refs, the four effects and the handlers they register, together
    with the few browser and library objects they drive (media tracks,
    socket.io sockets, PeerJS peers and calls, timers). *)

From Stdlib Require Import NArith Ascii String DecimalString.
From stdpp Require Import gmap list.

Local Open Scope N_scope.
Local Open Scope nat_scope.

(** ** JavaScript strings

    A JavaScript string is a sequence of UTF-16 code units; each code unit is
    kept as an [N] below 65536. *)

Abbreviation jsstring := (list N).

(** An ASCII literal of the source, as code units. *)
Definition lit (s : string) : jsstring :=
  map N_of_ascii (list_ascii_of_string s).

(** The literal ['Tú'] (T, then U+00FA). *)
Definition Tu : jsstring := [84%N; 250%N].

(** ECMAScript WhiteSpace and LineTerminator code points, the ones
    [String.prototype.trim] removes. *)
Definition is_white_space (c : N) : bool :=
  (c =? 0x09)%N || (c =? 0x0A)%N || (c =? 0x0B)%N || (c =? 0x0C)%N ||
  (c =? 0x0D)%N || (c =? 0x20)%N || (c =? 0xA0)%N || (c =? 0x1680)%N ||
  ((0x2000 <=? c)%N && (c <=? 0x200A)%N) ||
  (c =? 0x2028)%N || (c =? 0x2029)%N || (c =? 0x202F)%N ||
  (c =? 0x205F)%N || (c =? 0x3000)%N || (c =? 0xFEFF)%N.

Fixpoint trimStart (s : jsstring) : jsstring :=
  match s with
  | c :: s' => if is_white_space c then trimStart s' else s
  | [] => []
  end.

Definition trimEnd (s : jsstring) : jsstring := rev (trimStart (rev s)).

Definition trim (s : jsstring) : jsstring := trimEnd (trimStart s).

(** Truthiness of a possibly absent string: [undefined], [null] and the empty
    string are falsy. *)
Definition truthy (o : option jsstring) : bool :=
  match o with
  | Some (_ :: _) => true
  | _ => false
  end.

(** [a || b] on strings. *)
Definition or_else (o : option jsstring) (d : jsstring) : jsstring :=
  match o with
  | Some (c :: s) => c :: s
  | _ => d
  end.

(** [Date.now()] printed in decimal, as a template literal does. *)
Definition decimal (n : N) : jsstring :=
  lit (NilEmpty.string_of_uint (N.to_uint n)).

(** ** Data model *)

(** The [User] of [stores/authStore.ts]; only [id] and [name] are read. *)
Record User := { user_id : jsstring; user_name : jsstring }.

Record participant := {
  p_id : jsstring;
  p_name : jsstring;
  p_isLocal : bool
}.

Record message := {
  msg_id : nat;
  msg_author : jsstring;
  msg_text : jsstring
}.

Inductive peer_status := StatusConnecting | StatusConnected | StatusError.

(** *** Browser and library objects

    Objects live in stores indexed by a handle, so that two references to the
    same object see the same updates. *)

Inductive track_kind := AudioTrack | VideoTrack.

(** A [MediaStreamTrack]: [stop()] ends it for good. *)
Record track := {
  kind : track_kind;
  enabled : bool;
  stopped : bool
}.

(** A [MediaStream], as the handles of its tracks ([getTracks()]); the code
    never adds a track to a stream nor removes one. *)
Abbreviation stream := (list nat).

(** A PeerJS [Peer]. *)
Record peer_obj := {
  peer_identity : jsstring;
  disconnected : bool;
  destroyed : bool
}.

(** A PeerJS [MediaConnection]. [call_handlers] is [Some peerId] when the
    close and error handlers of [initiateCall] are attached (they delete
    [peerId] from the call map) and [None] for the handlers of an answered
    call (they only log). *)
Record call_obj := {
  call_peer : jsstring;
  call_stream : option stream;
  call_closed : bool;
  call_handlers : option jsstring
}.

(** *** Outbound events and other observable effects *)

Inductive chat_out :=
| JoinMeeting (meetingId : option jsstring) (userId name : jsstring)
| SendMessage (meetingId : option jsstring) (msg author : jsstring)
| EndMeeting (meetingId : option jsstring).

Inductive voice_out :=
| JoinVoiceRoom (meetingId : option jsstring) (peerId userId : jsstring)
| LeaveVoiceRoom (meetingId : option jsstring) (peerId : jsstring).

Inductive http_request :=
| GetMeeting (meetingId : option jsstring)
| PutEndMeeting (meetingId : option jsstring).

Inductive alert_text :=
| AlertMsg (s : jsstring)
| AlertMicrophoneHelp
| AlertMediaDeniedHelp.

(** The trace of what the component does to the outside, oldest first.
    [TimerRun] records that the scheduler ran a timer callback. *)
Inductive effect :=
| ChatEmit (sock : nat) (e : chat_out)
| VoiceEmit (sock : nat) (e : voice_out)
| Fetch (r : http_request)
| Alert (a : alert_text)
| Navigate (path : jsstring)
| GetUserMedia (video audio : bool)
| TimerRun (timer : nat).

(** *** Timers and suspended asynchronous functions *)

Inductive timer_action :=
| ConnectionTimeout
| NavigateRealtime
| JoinVoiceRoomLater
| PeerReconnect
| CallPeers (peers : list jsstring)
| CallPeer (peerId : jsstring).

Record timer := {
  t_id : nat;
  t_due : N;
  t_action : timer_action
}.

(** Where an [async] function waits. [KEnsureAcquire] and [KEnsureReplace]
    carry the run of the media effect whose [mounted] flag they read; the
    first waits for [getUserMedia({video: desiredVideo, audio: true})], the
    second for [getUserMedia({video: true, audio: desiredAudio})]. [KHangup]
    carries the [socket] and [voiceSocket] of the render [hangup] came from. *)
Inductive continuation :=
| KPermission
| KEnsureAcquire (run : nat) (desiredVideo : bool)
| KEnsureReplace (run : nat) (current : stream) (desiredAudio : bool)
| KHangup (socket voiceSocket : option nat)
| KGetMeeting (userId : jsstring).

Global Instance track_kind_eq_dec : EqDecision track_kind.
Proof. solve_decision. Defined.
Global Instance timer_action_eq_dec : EqDecision timer_action.
Proof. solve_decision. Defined.
Global Instance chat_out_eq_dec : EqDecision chat_out.
Proof. solve_decision. Defined.
Global Instance voice_out_eq_dec : EqDecision voice_out.
Proof. solve_decision. Defined.
Global Instance http_request_eq_dec : EqDecision http_request.
Proof. solve_decision. Defined.
Global Instance alert_text_eq_dec : EqDecision alert_text.
Proof. solve_decision. Defined.
Global Instance effect_eq_dec : EqDecision effect.
Proof. solve_decision. Defined.

(** ** Component state *)

(** The [useState] hooks of the component. [showCode] only drives the view
    and is left out. *)
Record hooks := {
  socket : option nat;
  voiceSocket : option nat;
  peer : option nat;
  peerStatus : peer_status;
  isCreator : bool;
  meetingEnded : bool;
  participants : list participant;
  cameraOn : bool;
  micOn : bool;
  showChat : bool;
  chatInput : jsstring;
  hasNewMessages : bool;
  messages : list message
}.

(** The objects outside the component, the clock, the timer queue, the
    suspended [async] functions and the trace. [reconnect_throws] and
    [call_throws] say what PeerJS will do at the next [reconnect()] and
    [call()]; the environment sets them. [connections] gives, for each
    peer, the media connections made through it, placed or received (PeerJS
    keeps them in the peer's [_connections]); [destroy()] closes them. *)
Record world := {
  tracks : gmap nat track;
  calls : gmap nat call_obj;
  peers : gmap nat peer_obj;
  sockets : gmap nat bool;
  timers : list timer;
  now : N;
  pending : list (nat * continuation);
  trace : list effect;
  next : nat;
  reconnect_throws : bool;
  call_throws : bool;
  connections : gmap nat (list nat)
}.

(** The variables the main effect closes over. [c_micOn] and [c_showChat]
    are the values of the render in which the effect ran. *)
Record closure := {
  newSocket : nat;
  newVoiceSocket : nat;
  newPeer : nat;
  connectionTimeout : nat;
  hasJoined : bool;
  c_user : User;
  c_meetingId : jsstring;
  c_micOn : bool;
  c_showChat : bool
}.

(** [mediaStreamRef] and [peerCallsRef] are the two refs. [main] holds the
    variables of the main effect once it has run and [mounted] says whether
    the component is still mounted. [media_run] numbers
    the runs of the media effect and [media_mounted] is the [mounted]
    variable of the latest run (the one of every earlier run is false). *)
Record state := {
  hk : hooks;
  mediaStreamRef : option stream;
  peerCallsRef : gmap jsstring nat;
  main : option closure;
  mounted : bool;
  media_run : nat;
  media_mounted : bool;
  w : world
}.

(** *** Field updates *)

Definition set_sockets3 (so vs pe : option nat) (h : hooks) : hooks :=
  {| socket := so; voiceSocket := vs; peer := pe;
     peerStatus := peerStatus h; isCreator := isCreator h;
     meetingEnded := meetingEnded h; participants := participants h;
     cameraOn := cameraOn h; micOn := micOn h; showChat := showChat h;
     chatInput := chatInput h; hasNewMessages := hasNewMessages h;
     messages := messages h |}.

Definition set_peer (v : option nat) (h : hooks) : hooks :=
  set_sockets3 (socket h) (voiceSocket h) v h.

Definition set_peerStatus (v : peer_status) (h : hooks) : hooks :=
  {| socket := socket h; voiceSocket := voiceSocket h; peer := peer h;
     peerStatus := v; isCreator := isCreator h;
     meetingEnded := meetingEnded h; participants := participants h;
     cameraOn := cameraOn h; micOn := micOn h; showChat := showChat h;
     chatInput := chatInput h; hasNewMessages := hasNewMessages h;
     messages := messages h |}.

Definition set_isCreator (v : bool) (h : hooks) : hooks :=
  {| socket := socket h; voiceSocket := voiceSocket h; peer := peer h;
     peerStatus := peerStatus h; isCreator := v;
     meetingEnded := meetingEnded h; participants := participants h;
     cameraOn := cameraOn h; micOn := micOn h; showChat := showChat h;
     chatInput := chatInput h; hasNewMessages := hasNewMessages h;
     messages := messages h |}.

Definition set_meetingEnded (v : bool) (h : hooks) : hooks :=
  {| socket := socket h; voiceSocket := voiceSocket h; peer := peer h;
     peerStatus := peerStatus h; isCreator := isCreator h;
     meetingEnded := v; participants := participants h;
     cameraOn := cameraOn h; micOn := micOn h; showChat := showChat h;
     chatInput := chatInput h; hasNewMessages := hasNewMessages h;
     messages := messages h |}.

Definition set_participants (v : list participant) (h : hooks) : hooks :=
  {| socket := socket h; voiceSocket := voiceSocket h; peer := peer h;
     peerStatus := peerStatus h; isCreator := isCreator h;
     meetingEnded := meetingEnded h; participants := v;
     cameraOn := cameraOn h; micOn := micOn h; showChat := showChat h;
     chatInput := chatInput h; hasNewMessages := hasNewMessages h;
     messages := messages h |}.

Definition set_cameraOn (v : bool) (h : hooks) : hooks :=
  {| socket := socket h; voiceSocket := voiceSocket h; peer := peer h;
     peerStatus := peerStatus h; isCreator := isCreator h;
     meetingEnded := meetingEnded h; participants := participants h;
     cameraOn := v; micOn := micOn h; showChat := showChat h;
     chatInput := chatInput h; hasNewMessages := hasNewMessages h;
     messages := messages h |}.

Definition set_micOn (v : bool) (h : hooks) : hooks :=
  {| socket := socket h; voiceSocket := voiceSocket h; peer := peer h;
     peerStatus := peerStatus h; isCreator := isCreator h;
     meetingEnded := meetingEnded h; participants := participants h;
     cameraOn := cameraOn h; micOn := v; showChat := showChat h;
     chatInput := chatInput h; hasNewMessages := hasNewMessages h;
     messages := messages h |}.

Definition set_showChat (v : bool) (h : hooks) : hooks :=
  {| socket := socket h; voiceSocket := voiceSocket h; peer := peer h;
     peerStatus := peerStatus h; isCreator := isCreator h;
     meetingEnded := meetingEnded h; participants := participants h;
     cameraOn := cameraOn h; micOn := micOn h; showChat := v;
     chatInput := chatInput h; hasNewMessages := hasNewMessages h;
     messages := messages h |}.

Definition set_chatInput (v : jsstring) (h : hooks) : hooks :=
  {| socket := socket h; voiceSocket := voiceSocket h; peer := peer h;
     peerStatus := peerStatus h; isCreator := isCreator h;
     meetingEnded := meetingEnded h; participants := participants h;
     cameraOn := cameraOn h; micOn := micOn h; showChat := showChat h;
     chatInput := v; hasNewMessages := hasNewMessages h;
     messages := messages h |}.

Definition set_hasNewMessages (v : bool) (h : hooks) : hooks :=
  {| socket := socket h; voiceSocket := voiceSocket h; peer := peer h;
     peerStatus := peerStatus h; isCreator := isCreator h;
     meetingEnded := meetingEnded h; participants := participants h;
     cameraOn := cameraOn h; micOn := micOn h; showChat := showChat h;
     chatInput := chatInput h; hasNewMessages := v;
     messages := messages h |}.

Definition set_messages (v : list message) (h : hooks) : hooks :=
  {| socket := socket h; voiceSocket := voiceSocket h; peer := peer h;
     peerStatus := peerStatus h; isCreator := isCreator h;
     meetingEnded := meetingEnded h; participants := participants h;
     cameraOn := cameraOn h; micOn := micOn h; showChat := showChat h;
     chatInput := chatInput h; hasNewMessages := hasNewMessages h;
     messages := v |}.

Definition set_tracks (v : gmap nat track) (x : world) : world :=
  {| tracks := v; calls := calls x; peers := peers x; sockets := sockets x;
     timers := timers x; now := now x; pending := pending x;
     trace := trace x; next := next x;
     reconnect_throws := reconnect_throws x; call_throws := call_throws x;
     connections := connections x |}.

Definition set_calls (v : gmap nat call_obj) (x : world) : world :=
  {| tracks := tracks x; calls := v; peers := peers x; sockets := sockets x;
     timers := timers x; now := now x; pending := pending x;
     trace := trace x; next := next x;
     reconnect_throws := reconnect_throws x; call_throws := call_throws x;
     connections := connections x |}.

Definition set_peers (v : gmap nat peer_obj) (x : world) : world :=
  {| tracks := tracks x; calls := calls x; peers := v; sockets := sockets x;
     timers := timers x; now := now x; pending := pending x;
     trace := trace x; next := next x;
     reconnect_throws := reconnect_throws x; call_throws := call_throws x;
     connections := connections x |}.

Definition set_sockets (v : gmap nat bool) (x : world) : world :=
  {| tracks := tracks x; calls := calls x; peers := peers x; sockets := v;
     timers := timers x; now := now x; pending := pending x;
     trace := trace x; next := next x;
     reconnect_throws := reconnect_throws x; call_throws := call_throws x;
     connections := connections x |}.

Definition set_timers (v : list timer) (x : world) : world :=
  {| tracks := tracks x; calls := calls x; peers := peers x;
     sockets := sockets x; timers := v; now := now x; pending := pending x;
     trace := trace x; next := next x;
     reconnect_throws := reconnect_throws x; call_throws := call_throws x;
     connections := connections x |}.

Definition set_now (v : N) (x : world) : world :=
  {| tracks := tracks x; calls := calls x; peers := peers x;
     sockets := sockets x; timers := timers x; now := v;
     pending := pending x; trace := trace x; next := next x;
     reconnect_throws := reconnect_throws x; call_throws := call_throws x;
     connections := connections x |}.

Definition set_pending (v : list (nat * continuation)) (x : world) : world :=
  {| tracks := tracks x; calls := calls x; peers := peers x;
     sockets := sockets x; timers := timers x; now := now x; pending := v;
     trace := trace x; next := next x;
     reconnect_throws := reconnect_throws x; call_throws := call_throws x;
     connections := connections x |}.

Definition set_trace (v : list effect) (x : world) : world :=
  {| tracks := tracks x; calls := calls x; peers := peers x;
     sockets := sockets x; timers := timers x; now := now x;
     pending := pending x; trace := v; next := next x;
     reconnect_throws := reconnect_throws x; call_throws := call_throws x;
     connections := connections x |}.

Definition set_next (v : nat) (x : world) : world :=
  {| tracks := tracks x; calls := calls x; peers := peers x;
     sockets := sockets x; timers := timers x; now := now x;
     pending := pending x; trace := trace x; next := v;
     reconnect_throws := reconnect_throws x; call_throws := call_throws x;
     connections := connections x |}.

Definition set_library (r c : bool) (x : world) : world :=
  {| tracks := tracks x; calls := calls x; peers := peers x;
     sockets := sockets x; timers := timers x; now := now x;
     pending := pending x; trace := trace x; next := next x;
     reconnect_throws := r; call_throws := c;
     connections := connections x |}.

Definition set_connections (v : gmap nat (list nat)) (x : world) : world :=
  {| tracks := tracks x; calls := calls x; peers := peers x;
     sockets := sockets x; timers := timers x; now := now x;
     pending := pending x; trace := trace x; next := next x;
     reconnect_throws := reconnect_throws x; call_throws := call_throws x;
     connections := v |}.

Definition set_hasJoined (v : bool) (c : closure) : closure :=
  {| newSocket := newSocket c; newVoiceSocket := newVoiceSocket c;
     newPeer := newPeer c; connectionTimeout := connectionTimeout c;
     hasJoined := v; c_user := c_user c; c_meetingId := c_meetingId c;
     c_micOn := c_micOn c; c_showChat := c_showChat c |}.

Definition on_hk (f : hooks → hooks) (s : state) : state :=
  {| hk := f (hk s); mediaStreamRef := mediaStreamRef s;
     peerCallsRef := peerCallsRef s; main := main s;
     mounted := mounted s; media_run := media_run s;
     media_mounted := media_mounted s; w := w s |}.

Definition on_w (f : world → world) (s : state) : state :=
  {| hk := hk s; mediaStreamRef := mediaStreamRef s;
     peerCallsRef := peerCallsRef s; main := main s;
     mounted := mounted s; media_run := media_run s;
     media_mounted := media_mounted s; w := f (w s) |}.

Definition set_mediaStreamRef (v : option stream) (s : state) : state :=
  {| hk := hk s; mediaStreamRef := v;
     peerCallsRef := peerCallsRef s; main := main s;
     mounted := mounted s; media_run := media_run s;
     media_mounted := media_mounted s; w := w s |}.

Definition set_peerCallsRef (v : gmap jsstring nat) (s : state) : state :=
  {| hk := hk s; mediaStreamRef := mediaStreamRef s;
     peerCallsRef := v; main := main s;
     mounted := mounted s; media_run := media_run s;
     media_mounted := media_mounted s; w := w s |}.

Definition set_main (v : option closure) (s : state) : state :=
  {| hk := hk s; mediaStreamRef := mediaStreamRef s;
     peerCallsRef := peerCallsRef s; main := v;
     mounted := mounted s; media_run := media_run s;
     media_mounted := media_mounted s; w := w s |}.

Definition set_mounted (v : bool) (s : state) : state :=
  {| hk := hk s; mediaStreamRef := mediaStreamRef s;
     peerCallsRef := peerCallsRef s; main := main s;
     mounted := v; media_run := media_run s;
     media_mounted := media_mounted s; w := w s |}.

Definition set_media (run : nat) (m : bool) (s : state) : state :=
  {| hk := hk s; mediaStreamRef := mediaStreamRef s;
     peerCallsRef := peerCallsRef s; main := main s;
     mounted := mounted s; media_run := run;
     media_mounted := m; w := w s |}.

(** ** Primitive operations on the outside world *)

Definition emit (e : effect) (x : world) : world :=
  set_trace (trace x ++ [e]) x.

(** A handle no object has yet. *)
Definition fresh (x : world) : nat * world := (next x, set_next (S (next x)) x).

(** [setTimeout(action, delay)]: the timer's id and the new world. *)
Definition setTimeout (a : timer_action) (delay : N) (x : world) : nat * world :=
  let '(i, x1) := fresh x in
  (i, set_timers (timers x1 ++
        [{| t_id := i; t_due := (now x + delay)%N; t_action := a |}]) x1).

Definition clearTimeout (i : nat) (x : world) : world :=
  set_timers (filter (λ t, t_id t ≠ i) (timers x)) x.

(** [track.stop()] and [track.enabled = b]. *)
Definition track_stop (t : nat) (x : world) : world :=
  set_tracks (alter (λ tr, {| kind := kind tr; enabled := enabled tr;
                              stopped := true |}) t (tracks x)) x.

Definition track_set_enabled (b : bool) (t : nat) (x : world) : world :=
  set_tracks (alter (λ tr, {| kind := kind tr; enabled := b;
                              stopped := stopped tr |}) t (tracks x)) x.

(** [stream.getTracks().forEach(t => t.stop())] *)
Definition stop_tracks (st : stream) (x : world) : world :=
  foldl (λ acc t, track_stop t acc) x st.

Definition has_kind (k : track_kind) (x : world) (t : nat) : bool :=
  match tracks x !! t with
  | Some tr => bool_decide (kind tr = k)
  | None => false
  end.

(** [stream.getVideoTracks()] and [stream.getAudioTracks()] *)
Definition getVideoTracks (x : world) (st : stream) : list nat :=
  filter (λ t, has_kind VideoTrack x t = true) st.

Definition getAudioTracks (x : world) (st : stream) : list nat :=
  filter (λ t, has_kind AudioTrack x t = true) st.

(** The stream a granted [getUserMedia({video, audio})] resolves to: one
    fresh live track for each kind asked for. *)
Definition new_track (k : track_kind) (x : world) : nat * world :=
  let '(i, x1) := fresh x in
  (i, set_tracks (<[i := {| kind := k; enabled := true; stopped := false |}]>
                    (tracks x1)) x1).

Definition new_stream (video audio : bool) (x : world) : stream * world :=
  let '(a, x1) := if audio then let '(i, y) := new_track AudioTrack x in ([i], y)
                  else ([], x) in
  let '(v, x2) := if video then let '(i, y) := new_track VideoTrack x1 in ([i], y)
                  else ([], x1) in
  (a ++ v, x2).

(** [socket.disconnect()] and [call.close()]. *)
Definition socket_disconnect (h : nat) (x : world) : world :=
  set_sockets (<[h := true]> (sockets x)) x.

Definition call_close (c : nat) (x : world) : world :=
  set_calls (alter (λ k, {| call_peer := call_peer k;
                            call_stream := call_stream k;
                            call_closed := true;
                            call_handlers := call_handlers k |})
               c (calls x)) x.

(** The media connections made through peer [h]. *)
Definition connections_of (h : nat) (x : world) : list nat :=
  default [] (connections x !! h).

(** [connections.forEach(c => c.close())] *)
Definition close_connections (l : list nat) (x : world) : world :=
  foldl (λ acc c, call_close c acc) x l.

(** [peer.destroy()]: PeerJS disconnects the peer from its server, closes
    every connection made through it and forgets them, and marks the peer
    destroyed. *)
Definition peer_destroy (h : nat) (x : world) : world :=
  let x1 := close_connections (connections_of h x) x in
  let x2 := set_connections (delete h (connections x1)) x1 in
  set_peers (alter (λ p, {| peer_identity := peer_identity p;
                            disconnected := true; destroyed := true |})
               h (peers x2)) x2.

(** A media connection [c] made through peer [h]. *)
Definition add_connection (h c : nat) (x : world) : world :=
  set_connections (<[h := c :: connections_of h x]> (connections x)) x.

(** [new Peer(id, ...)] and [io(url, ...)] *)
Definition new_peer (ident : jsstring) (x : world) : nat * world :=
  let '(i, x1) := fresh x in
  (i, set_peers (<[i := {| peer_identity := ident; disconnected := false;
                           destroyed := false |}]> (peers x1)) x1).

Definition io (x : world) : nat * world :=
  let '(i, x1) := fresh x in
  (i, set_sockets (<[i := false]> (sockets x1)) x1).

(** [s.includes(needle)] *)
Fixpoint starts_with (needle s : jsstring) : bool :=
  match needle, s with
  | [], _ => true
  | c :: needle', d :: s' => bool_decide (c = d) && starts_with needle' s'
  | _ :: _, [] => false
  end.

Fixpoint includes (s needle : jsstring) : bool :=
  starts_with needle s ||
  match s with
  | [] => false
  | _ :: s' => includes s' needle
  end.

(** What the environment answers to a suspended request. *)
Inductive device_result := Granted | Rejected (name : jsstring).
Inductive http_result := Resolved (creatorId : option jsstring) | Failed.

(** ** The roster and the transcript (the [setParticipants] and
    [setMessages] updaters) *)

(** [prev.some(p => p.id === userId)] *)
Definition some_id (userId : jsstring) (prev : list participant) : bool :=
  existsb (λ p, bool_decide (p_id p = userId)) prev.

(** The updater of the ['user-joined'] handler. *)
Definition user_joined (userId name : jsstring) (prev : list participant)
  : list participant :=
  if some_id userId prev || (10 <=? length prev) then prev
  else prev ++ [{| p_id := userId; p_name := name; p_isLocal := false |}].

(** The updater of the ['user-left'] handler. *)
Definition user_left (userId : jsstring) (prev : list participant)
  : list participant :=
  filter (λ p, p_id p ≠ userId) prev.

(** The mapping of the ['participants-list'] handler. *)
Definition participants_list (me : jsstring) (l : list (jsstring * jsstring))
  : list participant :=
  map (λ p, {| p_id := p.1;
               p_name := if bool_decide (p.1 = me) then Tu else p.2;
               p_isLocal := bool_decide (p.1 = me) |}) l.

(** The updater [prev => [...prev, {id: prev.length + 1, author, text}]]. *)
Definition append_message (author text : jsstring) (prev : list message)
  : list message :=
  prev ++ [{| msg_id := length prev + 1; msg_author := author;
              msg_text := text |}].

Section VideoCall.

(** [meetingId] comes from the router's location state, [token] and [user]
    from the auth store; they stay the same while the component lives. *)
Variable meetingId : option jsstring.
Variable token : option jsstring.
Variable user : option User.

(** ['Bienvenido al chat de la reunión.'] *)
Definition welcome : jsstring :=
  lit "Bienvenido al chat de la reuni" ++ [243%N] ++ lit "n.".

(** The initial values of the hooks. *)
Definition initial_hooks : hooks :=
  {| socket := None; voiceSocket := None; peer := None;
     peerStatus := StatusConnecting; isCreator := false;
     meetingEnded := false;
     participants := [{| p_id := or_else (user_id <$> user) (lit "local");
                         p_name := Tu; p_isLocal := true |}];
     cameraOn := false; micOn := true; showChat := false;
     chatInput := []; hasNewMessages := false;
     messages := [{| msg_id := 1; msg_author := lit "Sistema";
                     msg_text := welcome |}] |}.

(** The component before its first effects run, in a world [x]. *)
Definition initial_state (x : world) : state :=
  {| hk := initial_hooks; mediaStreamRef := None; peerCallsRef := ∅;
     main := None; mounted := true; media_run := 0; media_mounted := false;
     w := x |}.

Definition suspend (k : continuation) (x : world) : world :=
  let '(i, x1) := fresh x in set_pending (pending x1 ++ [(i, k)]) x1.

(** *** First effect: the microphone permission request (lines 70-114) *)

Definition requestMicrophonePermission (s : state) : state :=
  on_w (λ x, suspend KPermission (emit (GetUserMedia false true) x)) s.

Definition permission_effect (s : state) : state :=
  if truthy meetingId then requestMicrophonePermission s else s.

(** The rest of [requestMicrophonePermission], once [getUserMedia] settles. *)
Definition requestMicrophonePermission_resume (r : device_result) (s : state)
  : state :=
  match r with
  | Granted =>
      let '(st, x1) := new_stream false true (w s) in
      let s1 := set_mediaStreamRef (Some st) (on_w (λ _, x1) s) in
      let s2 := on_w (stop_tracks st) s1 in
      on_hk (set_micOn true) s2
  | Rejected name =>
      let s1 := if bool_decide (name = lit "NotAllowedError")
                then on_w (emit (Alert AlertMicrophoneHelp)) s else s in
      on_hk (set_micOn false) s1
  end.

(** *** Second effect: sockets, peer and their handlers (lines 117-397) *)

Definition main_effect (r : hooks) (s : state) : state :=
  match user with
  | Some u =>
      if truthy meetingId && truthy token then
        let '(so, x1) := io (w s) in
        let '(vs, x2) := io x1 in
        let '(pe, x3) := new_peer (user_id u) x2 in
        let '(tm, x4) := setTimeout ConnectionTimeout 20000 x3 in
        let x5 := suspend (KGetMeeting (user_id u))
                    (emit (Fetch (GetMeeting meetingId)) x4) in
        let c := {| newSocket := so; newVoiceSocket := vs; newPeer := pe;
                    connectionTimeout := tm; hasJoined := false;
                    c_user := u; c_meetingId := default [] meetingId;
                    c_micOn := micOn r; c_showChat := showChat r |} in
        set_main (Some c)
          (on_hk (λ h, set_peerStatus StatusConnecting
                         (set_sockets3 (Some so) (Some vs) (Some pe) h))
             (on_w (λ _, x5) s))
      else s
  | None => s
  end.

(** The callback of [connectionTimeout] (lines 170-189). *)
Definition connectionTimeout_fired (c : closure) (s : state) : state :=
  match peers (w s) !! newPeer c with
  | Some p =>
      if negb (disconnected p) then
        let ident := user_id (c_user c) ++ lit "_" ++ decimal (now (w s)) in
        let '(pe, x1) := new_peer ident (w s) in
        on_hk (λ h, set_peer (Some pe) (set_peerStatus StatusError h))
          (on_w (λ _, x1) s)
      else s
  | None => s
  end.

(** The [.then] of the meeting fetch (lines 196-200); a failed fetch only
    logs. *)
Definition getMeeting_resume (userId : jsstring) (r : http_result) (s : state)
  : state :=
  match r with
  | Resolved (Some creator) =>
      if bool_decide (creator = userId) then on_hk (set_isCreator true) s
      else s
  | _ => s
  end.

(** [handleConnect] (lines 206-212) *)
Definition handleConnect (c : closure) (s : state) : state :=
  if negb (hasJoined c) then
    set_main (Some (set_hasJoined true c))
      (on_w (emit (ChatEmit (newSocket c)
                     (JoinMeeting (Some (c_meetingId c)) (user_id (c_user c))
                        (user_name (c_user c))))) s)
  else s.

(** ['receive-message'] (lines 215-219) *)
Definition on_receive_message (c : closure) (author text : jsstring)
  (s : state) : state :=
  let s1 := on_hk (λ h, set_messages (append_message author text (messages h)) h) s in
  if negb (c_showChat c) then on_hk (set_hasNewMessages true) s1 else s1.

(** ['participants-list'] (lines 221-228) *)
Definition on_participants_list (c : closure) (l : list (jsstring * jsstring))
  (s : state) : state :=
  on_hk (set_participants (participants_list (user_id (c_user c)) l)) s.

(** ['meeting-ended'] (lines 230-235) *)
Definition on_meeting_ended (msg : jsstring) (s : state) : state :=
  let s1 := on_hk (set_meetingEnded true) s in
  let s2 := on_w (emit (Alert (AlertMsg msg))) s1 in
  on_w (λ x, (setTimeout NavigateRealtime 3000 x).2) s2.

(** ['user-joined'] (lines 237-243) and ['user-left'] (lines 245-248) *)
Definition on_user_joined (userId name : jsstring) (s : state) : state :=
  on_hk (λ h, set_participants (user_joined userId name (participants h)) h) s.

Definition on_user_left (userId : jsstring) (s : state) : state :=
  on_hk (λ h, set_participants (user_left userId (participants h)) h) s.

(** The chat socket's ['error'] (lines 250-253) *)
Definition on_socket_error (msg : jsstring) (s : state) : state :=
  on_w (emit (Alert (AlertMsg (lit "Error: " ++ msg)))) s.

(** *** Calls *)

(** [peerCallsRef.current.forEach(call => call.close())] *)
Definition close_all_calls (m : gmap jsstring nat) (x : world) : world :=
  foldl (λ acc kc, call_close kc.2 acc) x (map_to_list m).

(** The peer's ['error'] handler (lines 272-308). It is registered on the
    peer of the main effect and has no guard of its own: only the callback
    of its 10 second timer looks at [newPeer.destroyed]. *)
Definition on_peer_error (type msg : jsstring) (s : state) : state :=
  if bool_decide (type = lit "network") || bool_decide (type = lit "disconnected")
     || includes msg (lit "1006") || includes msg (lit "Lost connection")
  then
    let s1 := on_hk (set_peerStatus StatusError) s in
    on_w (λ x, (setTimeout PeerReconnect 10000 x).2) s1
  else s.

(** [peerInstance.call] giving no connection. It may throw; and on a peer
    that is disconnected from its server (a destroyed peer is) PeerJS emits
    ['error'] of type ['disconnected'] to the peer's handlers and returns
    undefined, so that [call.on] throws. The [catch] of [initiateCall] only
    logs in both cases. PeerJS refuses every call through a disconnected
    peer: in a run of the program [call_throws] is set whenever such a call
    is placed, and the runs in which it is not are here in addition. *)
Definition call_refused (peerInstance : nat) (s : state) : state :=
  match peers (w s) !! peerInstance, main s with
  | Some p, Some c =>
      if disconnected p && bool_decide (newPeer c = peerInstance) then
        on_peer_error (lit "disconnected")
          (lit "Cannot connect to new Peer after disconnecting from server.") s
      else s
  | _, _ => s
  end.

(** [initiateCall] (lines 400-436). [call_throws] says that
    [peerInstance.call] gives no connection, see [call_refused]. The
    ['stream'] handler feeds an audio element of the view and is left
    out. *)
Definition initiateCall (peerInstance : nat) (peerId : jsstring) (s : state)
  : state :=
  match mediaStreamRef s with
  | Some st =>
      if bool_decide (Some peerId = user_id <$> user) then s
      else if call_throws (w s) then call_refused peerInstance s
      else
        let '(c, x1) := fresh (w s) in
        let x2 := set_calls (<[c := {| call_peer := peerId;
                                       call_stream := Some st;
                                       call_closed := false;
                                       call_handlers := Some peerId |}]>
                               (calls x1)) x1 in
        set_peerCallsRef (<[peerId := c]> (peerCallsRef s))
          (on_w (λ _, add_connection peerInstance c x2) s)
  | None => s
  end.

(** The ['close'] and ['error'] handlers of a call (lines 422-430 and
    374-380). *)
Definition on_call_closed (c : nat) (s : state) : state :=
  match calls (w s) !! c with
  | Some k =>
      match call_handlers k with
      | Some peerId => set_peerCallsRef (delete peerId (peerCallsRef s)) s
      | None => s
      end
  | None => s
  end.

(** The peer's ['call'] handler (lines 351-387), for an incoming call the
    library has created under handle [c]. *)
Definition on_incoming_call (cl : closure) (c : nat) (s : state) : state :=
  match calls (w s) !! c with
  | Some k =>
      match call_peer k with
      | [] => s
      | _ :: _ =>
          match mediaStreamRef s with
          | Some st =>
              if c_micOn cl then
                let x1 := set_calls (<[c := {| call_peer := call_peer k;
                                               call_stream := Some st;
                                               call_closed := call_closed k;
                                               call_handlers := None |}]>
                                       (calls (w s))) (w s) in
                set_peerCallsRef (<[call_peer k := c]> (peerCallsRef s))
                  (on_w (λ _, x1) s)
              else on_w (call_close c) s
          | None => on_w (call_close c) s
          end
      end
  | None => s
  end.

(** The library announcing on peer [h] a call from [from]. *)
Definition incoming_call (h : nat) (from : jsstring) (x : world)
  : nat * world :=
  let '(c, x1) := fresh x in
  (c, add_connection h c
        (set_calls (<[c := {| call_peer := from; call_stream := None;
                              call_closed := false; call_handlers := None |}]>
                      (calls x1)) x1)).

(** *** Peer events *)

(** ['open'] (lines 261-270) *)
Definition on_peer_open (c : closure) (s : state) : state :=
  let s1 := on_w (clearTimeout (connectionTimeout c)) s in
  let s2 := on_hk (set_peerStatus StatusConnected) s1 in
  on_w (λ x, (setTimeout JoinVoiceRoomLater 1000 x).2) s2.

Definition joinVoiceRoom_fired (c : closure) (s : state) : state :=
  on_w (emit (VoiceEmit (newVoiceSocket c)
                (JoinVoiceRoom (Some (c_meetingId c)) (user_id (c_user c))
                   (user_id (c_user c))))) s.

(** [newPeer.reconnect()] when it does not throw. *)
Definition peer_reconnect (h : nat) (x : world) : world :=
  set_peers (alter (λ p, {| peer_identity := peer_identity p;
                            disconnected := false;
                            destroyed := destroyed p |}) h (peers x)) x.

(** The callback of the 10 second timer (lines 281-306). *)
Definition peerReconnect_fired (c : closure) (s : state) : state :=
  match peers (w s) !! newPeer c with
  | Some p =>
      if negb (destroyed p) then
        let s1 := on_hk (set_peerStatus StatusConnecting) s in
        if reconnect_throws (w s1) then
          let ident := user_id (c_user c) ++ lit "_" ++ decimal (now (w s1)) in
          let '(pe, x1) := new_peer ident (w s1) in
          on_hk (set_peer (Some pe)) (on_w (λ _, x1) s1)
        else on_w (peer_reconnect (newPeer c)) s1
      else s
  | None => s
  end.

(** *** Voice socket events (lines 311-348) *)

Definition on_voice_joined (peerIds : list jsstring) (s : state) : state :=
  on_w (λ x, (setTimeout (CallPeers peerIds) 1500 x).2) s.

Definition on_peer_joined (peerId : jsstring) (s : state) : state :=
  on_w (λ x, (setTimeout (CallPeer peerId) 1500 x).2) s.

Definition callPeer_fired (c : closure) (peerId : jsstring) (s : state)
  : state :=
  if c_micOn c && bool_decide (is_Some (mediaStreamRef s))
  then initiateCall (newPeer c) peerId s else s.

Definition callPeers_fired (c : closure) (peerIds : list jsstring) (s : state)
  : state :=
  foldl (λ acc peerId, callPeer_fired c peerId acc) s peerIds.

Definition on_peer_disconnected (peerId : jsstring) (s : state) : state :=
  match peerCallsRef s !! peerId with
  | Some c =>
      set_peerCallsRef (delete peerId (peerCallsRef s)) (on_w (call_close c) s)
  | None => s
  end.

Definition on_voice_error (msg : jsstring) (s : state) : state :=
  on_w (emit (Alert (AlertMsg (lit "Voice error: " ++ msg)))) s.

(** The cleanup of the main effect (lines 389-396). *)
Definition main_cleanup (s : state) : state :=
  match main s with
  | Some c =>
      on_w (λ x, peer_destroy (newPeer c)
                   (socket_disconnect (newVoiceSocket c)
                      (socket_disconnect (newSocket c)
                         (clearTimeout (connectionTimeout c) x)))) s
  | None => s
  end.

(** *** User actions *)

(** [sendMessage] (lines 479-487) *)
Definition sendMessage (s : state) : state :=
  let text := trim (chatInput (hk s)) in
  match text, socket (hk s) with
  | _ :: _, Some so =>
      if meetingEnded (hk s) then s
      else
        let authorName := or_else (user_name <$> user) Tu in
        let s1 := on_w (emit (ChatEmit so (SendMessage meetingId text authorName))) s in
        let s2 := on_hk (λ h, set_messages (append_message Tu text (messages h)) h) s1 in
        on_hk (set_chatInput []) s2
  | _, _ => s
  end.

(** [toggleChat] (lines 442-447) *)
Definition toggleChat (s : state) : state :=
  let s1 := on_hk (λ h, set_showChat (negb (showChat h)) h) s in
  if negb (showChat (hk s)) then on_hk (set_hasNewMessages false) s1 else s1.

(** The part of [hangup] after the owner's branch (lines 632-640). *)
Definition hangup_rest (vs : option nat) (s : state) : state :=
  let s1 := match user, vs with
            | Some u, Some v =>
                on_w (emit (VoiceEmit v (LeaveVoiceRoom meetingId (user_id u)))) s
            | _, _ => s
            end in
  let s2 := on_hk (set_participants []) s1 in
  let s3 := on_hk (set_showChat false) s2 in
  on_w (emit (Navigate (lit "/realtime"))) s3.

(** [hangup] (lines 617-641), up to its [await] when there is one. *)
Definition hangup (s : state) : state :=
  if isCreator (hk s) && truthy meetingId && truthy token then
    on_w (λ x, suspend (KHangup (socket (hk s)) (voiceSocket (hk s)))
                 (emit (Fetch (PutEndMeeting meetingId)) x)) s
  else hangup_rest (voiceSocket (hk s)) s.

(** [hangup] after the [await]: a failed fetch skips the emission. *)
Definition hangup_resume (so vs : option nat) (r : http_result) (s : state)
  : state :=
  let s1 := match r, so with
            | Resolved _, Some h =>
                on_w (emit (ChatEmit h (EndMeeting meetingId))) s
            | _, _ => s
            end in
  hangup_rest vs s1.

(** *** Third effect: local media (lines 490-592) *)

Definition run_mounted (run : nat) (s : state) : bool :=
  media_mounted s && bool_decide (media_run s = run).

(** [ensureMedia] (lines 496-573), up to its first [await] or to its end.
    [r] is the render the effect belongs to. Attaching the stream to the
    video element of the view is left out. *)
Definition ensureMedia (r : hooks) (run : nat) (s : state) : state :=
  let desiredVideo := cameraOn r in
  let desiredAudio := micOn r in
  match mediaStreamRef s with
  | None =>
      if desiredAudio then
        on_w (λ x, suspend (KEnsureAcquire run desiredVideo)
                     (emit (GetUserMedia desiredVideo desiredAudio) x)) s
      else s
  | Some current =>
      let videoTrack := head (getVideoTracks (w s) current) in
      let audioTrack := head (getAudioTracks (w s) current) in
      let s1 := match videoTrack with
                | Some t => on_w (track_set_enabled desiredVideo t) s
                | None => s
                end in
      let s2 := match audioTrack with
                | Some t => on_w (track_set_enabled desiredAudio t) s1
                | None => s1
                end in
      if desiredVideo && bool_decide (videoTrack = None) then
        on_w (λ x, suspend (KEnsureReplace run current desiredAudio)
                     (emit (GetUserMedia true desiredAudio) x)) s2
      else s2
  end.

(** The [catch] of [ensureMedia] (lines 563-572). *)
Definition ensureMedia_catch (name : jsstring) (s : state) : state :=
  let s1 := if bool_decide (name = lit "NotAllowedError")
            then on_w (emit (Alert AlertMediaDeniedHelp)) s else s in
  on_hk (λ h, set_micOn false (set_cameraOn false h)) s1.

(** [ensureMedia] after the [await] of its first branch (lines 510-524). *)
Definition ensureMedia_acquired (run : nat) (desiredVideo : bool)
  (r : device_result) (s : state) : state :=
  match r with
  | Granted =>
      let '(st, x1) := new_stream desiredVideo true (w s) in
      let s1 := on_w (λ _, x1) s in
      if negb (run_mounted run s1) then on_w (stop_tracks st) s1
      else set_mediaStreamRef (Some st) s1
  | Rejected name => ensureMedia_catch name s
  end.

(** [ensureMedia] after the [await] of its second branch (lines 547-559). *)
Definition ensureMedia_replaced (run : nat) (current : stream)
  (desiredAudio : bool) (r : device_result) (s : state) : state :=
  match r with
  | Granted =>
      let '(st, x1) := new_stream true desiredAudio (w s) in
      let s1 := on_w (λ _, x1) s in
      if negb (run_mounted run s1) then on_w (stop_tracks st) s1
      else set_mediaStreamRef (Some st) (on_w (stop_tracks current) s1)
  | Rejected name => ensureMedia_catch name s
  end.

(** The body of the effect (lines 491-589) for render [r]. *)
Definition media_effect (r : hooks) (s : state) : state :=
  let run := S (media_run s) in
  let s1 := ensureMedia r run (set_media run true s) in
  match peer r, voiceSocket r, user with
  | Some _, Some vs, Some u =>
      if truthy meetingId then
        if micOn r && bool_decide (is_Some (mediaStreamRef s1)) then
          on_w (emit (VoiceEmit vs (JoinVoiceRoom meetingId (user_id u)
                                      (user_id u)))) s1
        else
          set_peerCallsRef ∅ (on_w (close_all_calls (peerCallsRef s1)) s1)
      else s1
  | _, _, _ => s1
  end.

(** Its cleanup (line 591). *)
Definition media_cleanup (s : state) : state :=
  set_media (media_run s) false s.

(** *** Fourth effect: the cleanup (lines 595-610), with the [socket],
    [voiceSocket] and [peer] of the render it was created in. *)
Definition cleanup (so vs pe : option nat) (s : state) : state :=
  let s1 := match mediaStreamRef s with
            | Some st => on_w (stop_tracks st) s
            | None => s
            end in
  let s2 := set_mediaStreamRef None s1 in
  let s3 := match so with
            | Some h => on_w (socket_disconnect h) s2
            | None => s2
            end in
  let s4 := match vs with
            | Some h => on_w (socket_disconnect h) s3
            | None => s3
            end in
  let s5 := match pe with
            | Some h => on_w (peer_destroy h) s4
            | None => s4
            end in
  set_peerCallsRef ∅ (on_w (close_all_calls (peerCallsRef s5)) s5).

(** ** The component as a transition system *)

(** What can happen to a mounted component: time passing, a due timer
    running, a suspended request settling, an event arriving on a socket, on
    the peer or on a call, a user action, and the unmount. [Library] lets
    the environment choose what PeerJS will do next and [PeerLost] is the
    peer losing its server connection. [ChatOther] stands for any chat event
    the component has no handler for. Once the meeting has ended the view
    shows no controls (lines 643-652), so that the program takes no user
    action then; the runs in which one follows are here in addition. *)
Inductive input :=
| Tick (dt : N)
| Fire (timer : nat)
| Settle (req : nat) (r : device_result)
| Respond (req : nat) (r : http_result)
| Library (reconnect_throws call_throws : bool)
| ChatConnect
| ChatOther
| ReceiveMessage (author text : jsstring)
| ParticipantsList (l : list (jsstring * jsstring))
| MeetingEnded (msg : jsstring)
| UserJoined (userId name : jsstring)
| UserLeft (userId : jsstring)
| SocketError (msg : jsstring)
| VoiceJoined (peerIds : list jsstring)
| PeerJoined (peerId : jsstring)
| PeerDisconnected (peerId : jsstring)
| VoiceError (msg : jsstring)
| PeerOpen
| PeerErr (type msg : jsstring)
| PeerCall (from : jsstring)
| PeerLost
| CallClosed (c : nat)
| TypeChat (text : jsstring)
| Send
| ToggleCamera
| ToggleMic
| ToggleChat
| Hangup
| Unmount.

Definition find_timer (i : nat) (x : world) : option timer :=
  head (filter (λ t, t_id t = i) (timers x)).

Definition find_pending (i : nat) (x : world) : option continuation :=
  snd <$> head (filter (λ p, p.1 = i) (pending x)).

Definition drop_pending (i : nat) (x : world) : world :=
  set_pending (filter (λ p, p.1 ≠ i) (pending x)) x.

(** The callback of a timer. *)
Definition run_timer (c : closure) (a : timer_action) (s : state) : state :=
  match a with
  | ConnectionTimeout => connectionTimeout_fired c s
  | NavigateRealtime => on_w (emit (Navigate (lit "/realtime"))) s
  | JoinVoiceRoomLater => joinVoiceRoom_fired c s
  | PeerReconnect => peerReconnect_fired c s
  | CallPeers l => callPeers_fired c l s
  | CallPeer p => callPeer_fired c p s
  end.

(** A pending timer runs once, not before it is due. *)
Definition fire (i : nat) (s : state) : state :=
  match find_timer i (w s), main s with
  | Some t, Some c =>
      if (t_due t <=? now (w s))%N then
        run_timer c (t_action t)
          (on_w (λ x, emit (TimerRun i) (clearTimeout i x)) s)
      else s
  | _, _ => s
  end.

Definition settle (i : nat) (r : device_result) (s : state) : state :=
  match find_pending i (w s) with
  | Some KPermission =>
      requestMicrophonePermission_resume r (on_w (drop_pending i) s)
  | Some (KEnsureAcquire run v) =>
      ensureMedia_acquired run v r (on_w (drop_pending i) s)
  | Some (KEnsureReplace run cur a) =>
      ensureMedia_replaced run cur a r (on_w (drop_pending i) s)
  | _ => s
  end.

Definition respond (i : nat) (r : http_result) (s : state) : state :=
  match find_pending i (w s) with
  | Some (KHangup so vs) => hangup_resume so vs r (on_w (drop_pending i) s)
  | Some (KGetMeeting u) => getMeeting_resume u r (on_w (drop_pending i) s)
  | _ => s
  end.

(** Events reach the handlers of the main effect while the object they are
    registered on is in use: a disconnected socket and a destroyed peer have
    no connection to their server left, so nothing arrives on them. The
    ['error'] PeerJS emits itself when a call is refused does not come from
    the server: it is part of [initiateCall]. *)
Definition chat_open (c : closure) (s : state) : bool :=
  bool_decide (sockets (w s) !! newSocket c = Some false).

Definition voice_open (c : closure) (s : state) : bool :=
  bool_decide (sockets (w s) !! newVoiceSocket c = Some false).

Definition peer_alive (c : closure) (s : state) : bool :=
  match peers (w s) !! newPeer c with
  | Some p => negb (destroyed p)
  | None => false
  end.

Definition peer_lost (h : nat) (x : world) : world :=
  set_peers (alter (λ p, {| peer_identity := peer_identity p;
                            disconnected := true;
                            destroyed := destroyed p |}) h (peers x)) x.

Definition on_chat (c : closure) (i : input) (s : state) : state :=
  match i with
  | ChatConnect => if mounted s then handleConnect c s else s
  | ReceiveMessage a t => on_receive_message c a t s
  | ParticipantsList l => on_participants_list c l s
  | MeetingEnded m => on_meeting_ended m s
  | UserJoined u n => on_user_joined u n s
  | UserLeft u => on_user_left u s
  | SocketError m => on_socket_error m s
  | _ => s
  end.

Definition on_voice (c : closure) (i : input) (s : state) : state :=
  match i with
  | VoiceJoined l => on_voice_joined l s
  | PeerJoined p => on_peer_joined p s
  | PeerDisconnected p => on_peer_disconnected p s
  | VoiceError m => on_voice_error m s
  | _ => s
  end.

Definition on_peer (c : closure) (i : input) (s : state) : state :=
  match i with
  | PeerOpen => on_peer_open c s
  | PeerErr t m => on_peer_error t m s
  | PeerCall from =>
      let '(k, x1) := incoming_call (newPeer c) from (w s) in
      on_incoming_call c k (on_w (λ _, x1) s)
  | PeerLost => on_w (peer_lost (newPeer c)) s
  | _ => s
  end.

(** The cleanups that run when the component goes away, in the order of the
    effects. *)
Definition unmount (s : state) : state :=
  if mounted s then
    set_mounted false
      (cleanup (socket (hk s)) (voiceSocket (hk s)) (peer (hk s))
         (media_cleanup (main_cleanup s)))
  else s.

Definition handle (i : input) (s : state) : state :=
  match i with
  | Tick dt => on_w (λ x, set_now (now x + dt)%N x) s
  | Fire t => fire t s
  | Settle q r => settle q r s
  | Respond q r => respond q r s
  | Library r c => on_w (set_library r c) s
  | ChatConnect | ChatOther | ReceiveMessage _ _ | ParticipantsList _
  | MeetingEnded _ | UserJoined _ _ | UserLeft _ | SocketError _ =>
      match main s with
      | Some c => if chat_open c s then on_chat c i s else s
      | None => s
      end
  | VoiceJoined _ | PeerJoined _ | PeerDisconnected _ | VoiceError _ =>
      match main s with
      | Some c => if voice_open c s then on_voice c i s else s
      | None => s
      end
  | PeerOpen | PeerErr _ _ | PeerCall _ | PeerLost =>
      match main s with
      | Some c => if peer_alive c s then on_peer c i s else s
      | None => s
      end
  | CallClosed c => on_call_closed c s
  | TypeChat t => if mounted s then on_hk (set_chatInput t) s else s
  | Send => if mounted s then sendMessage s else s
  | ToggleCamera =>
      if mounted s then on_hk (λ h, set_cameraOn (negb (cameraOn h)) h) s else s
  | ToggleMic =>
      if mounted s then on_hk (λ h, set_micOn (negb (micOn h)) h) s else s
  | ToggleChat => if mounted s then toggleChat s else s
  | Hangup => if mounted s then hangup s else s
  | Unmount => unmount s
  end.

(** After a handler has run React renders again and re-runs the effects
    whose dependencies changed: first their cleanups, then their bodies.
    [old] is the previous render. *)
Definition media_deps_changed (old new : hooks) : bool :=
  negb (bool_decide (cameraOn old = cameraOn new ∧ micOn old = micOn new ∧
                     peer old = peer new ∧ voiceSocket old = voiceSocket new)).

Definition cleanup_deps_changed (old new : hooks) : bool :=
  negb (bool_decide (socket old = socket new ∧
                     voiceSocket old = voiceSocket new ∧ peer old = peer new)).

Definition rerender (old : hooks) (s : state) : state :=
  if mounted s then
    let new := hk s in
    let s1 := if media_deps_changed old new then media_cleanup s else s in
    let s2 := if cleanup_deps_changed old new
              then cleanup (socket old) (voiceSocket old) (peer old) s1
              else s1 in
    if media_deps_changed old new then media_effect new s2 else s2
  else s.

Definition step (s : state) (i : input) : state :=
  rerender (hk s) (handle i s).

Definition run (s : state) (l : list input) : state := foldl step s l.

(** Mounting: the first render, its four effects in order, and the render
    their state updates cause. *)
Definition mount (x : world) : state :=
  let s0 := initial_state x in
  let r := hk s0 in
  rerender r (media_effect r (main_effect r (permission_effect s0))).

(** A world with nothing in it, at time [t]. *)
Definition empty_world (t : N) : world :=
  {| tracks := ∅; calls := ∅; peers := ∅; sockets := ∅; timers := [];
     now := t; pending := []; trace := []; next := 0;
     reconnect_throws := false; call_throws := false;
     connections := ∅ |}.

End VideoCall.

(** ** The landing page [src/pages/RealTime.tsx]

    The page that leads to the video call: it creates a meeting or checks a
    meeting code with the chat backend and navigates to ['/videocall'] with
    the meeting id in the location state, where [VideoCall] reads it. *)

Module RealTime.

(** The state of the form: [showCodeInput] and [roomCode]. *)
Record form := { showCodeInput : bool; roomCode : jsstring }.

(** The fields of [data.meeting] the page reads; a field may be missing. *)
Record meeting := { meeting_id : option jsstring;
                    meeting_status : option jsstring }.

(** What [fetch] and [response.json()] come to: the request or the parsing
    fails, or there is a response with its [ok] flag and the [meeting] of
    its body, if the body has one. *)
Inductive response :=
| Rejected
| Response (ok : bool) (body : option meeting).

(** The texts of the alerts; [Created] carries the value interpolated into
    ['Reunión creada. Comparte este código: ...']. *)
Inductive alert_text :=
| LoginToCreate
| Created (meetingId : option jsstring)
| CreateFailed
| EnterCode
| LoginToJoin
| Finished
| JoinFailed.

(** [Navigate m] is [navigate('/videocall', { state: { meetingId: m } })]. *)
Inductive effect :=
| Alert (a : alert_text)
| PostMeeting (token : jsstring)
| GetMeeting (code token : jsstring)
| Navigate (meetingId : option jsstring).

(** [handleToggleCode] (lines 43-45) *)
Definition handleToggleCode (f : form) : form :=
  {| showCodeInput := negb (showCodeInput f); roomCode := roomCode f |}.


(** [handleJoinWithCode] (lines 86-118): the form it leaves and what it
    does. The two guards and the branch of a meeting that is not active
    return before the reset of the form. *)
Definition handleJoinWithCode (token : option jsstring) (r : response)
  (f : form) : form * list effect :=
  let reset := {| showCodeInput := false; roomCode := [] |} in
  match trim (roomCode f) with
  | [] => (f, [Alert EnterCode])
  | _ :: _ =>
      if negb (truthy token) then (f, [Alert LoginToJoin])
      else
        let request := GetMeeting (roomCode f) (default [] token) in
        match r with
        | Response true (Some m) =>
            if bool_decide (meeting_status m = Some (lit "active"))
            then (reset, [request; Navigate (Some (roomCode f))])
            else (f, [request; Alert Finished])
        | _ => (reset, [request; Alert JoinFailed])
        end
  end.

End RealTime.

(** ** Vocabulary of the properties *)

(** The id under which the local participant enters the roster. *)
Definition local_id (user : option User) : jsstring :=
  or_else (user_id <$> user) (lit "local").

(** Processing a sequence of ['user-joined'] events. *)
Definition join_all (evs : list (jsstring * jsstring)) (s : state) : state :=
  foldl (λ acc e, on_user_joined e.1 e.2 acc) s evs.

(** Only white space, the empty string included. *)
Definition blank (s : jsstring) : bool := forallb is_white_space s.

(** Calls of [getUserMedia] in a trace. *)
Definition is_acquisition (e : effect) : bool :=
  match e with GetUserMedia _ _ => true | _ => false end.

Definition acquisitions (tr : list effect) : nat :=
  length (filter (λ e, is_acquisition e = true) tr).

(** [track.enabled = b] on a track that may be missing ([if (track) ...]). *)
Definition enable_if_any (b : bool) (o : option nat) (x : world) : world :=
  match o with
  | Some t => track_set_enabled b t x
  | None => x
  end.

(** [close_all_calls] over the entries of the map as a list. *)
Definition close_calls (l : list (jsstring * nat)) (x : world) : world :=
  foldl (λ acc kc, call_close kc.2 acc) x l.

(** [if (h) f(h)] on a handle that may be null. *)
Definition if_any (f : nat → world → world) (o : option nat) (x : world)
  : world :=
  match o with
  | Some h => f h x
  | None => x
  end.

(** ['join-meeting'] emissions in a trace. *)
Definition is_join (e : effect) : bool :=
  match e with ChatEmit _ (JoinMeeting _ _ _) => true | _ => false end.

Definition joins (tr : list effect) : nat :=
  length (filter (λ e, is_join e = true) tr).

(** How often the callback of timer [k] ran in a trace. *)
Definition timer_runs (k : nat) (tr : list effect) : nat :=
  length (filter (λ e, e = TimerRun k) tr).

(** Timer ids come from the handle counter: none is ahead of it. *)
Definition timers_fresh (x : world) : Prop :=
  ∀ t, t ∈ timers x → t_id t < next x.

(** Timer ids come from the handle counter: no pending timer and no timer
    that ran is ahead of it. *)
Definition world_fresh (x : world) : Prop :=
  timers_fresh x ∧ ∀ k, TimerRun k ∈ trace x → k < next x.

(** [world_fresh], as a check that runs. *)
Definition world_fresh_check (x : world) : bool :=
  forallb (λ t, t_id t <? next x) (timers x)
  && forallb (λ e, match e with TimerRun k => k <? next x | _ => true end)
       (trace x).

(** [grows P x x']: [x'] is a later world than [x]. The handle counter has
    not gone back; the timers of [x'] were pending in [x] or were set since;
    the trace has grown by effects that satisfy [P]; and a timer whose
    callback ran in between was pending in [x] or set since, ran once, and
    is no longer pending in [x']. *)
Definition grows (P : effect → Prop) (x x' : world) : Prop :=
  next x ≤ next x'
  ∧ (∀ t, t ∈ timers x' →
       t ∈ timers x ∨ (next x ≤ t_id t ∧ t_id t < next x'))
  ∧ ∃ tr, trace x' = trace x ++ tr
      ∧ Forall P tr
      ∧ (∀ k, TimerRun k ∈ tr →
           (k ∈ t_id <$> timers x ∨ next x ≤ k)
           ∧ k < next x' ∧ k ∉ t_id <$> timers x')
      ∧ (∀ k, timer_runs k tr ≤ 1).

(** The main effect has emitted its ['join-meeting']. *)
Definition joined (s : state) : Prop :=
  ∃ c, main s = Some c ∧ hasJoined c = true.

(** The run of the media effect a suspended [ensureMedia] belongs to. *)
Definition ensure_run (k : continuation) : option nat :=
  match k with
  | KEnsureAcquire run _ | KEnsureReplace run _ _ => Some run
  | _ => None
  end.

(** A track as [getUserMedia] hands it out. *)
Definition live (k : track_kind) : track :=
  {| kind := k; enabled := true; stopped := false |}.

(** The states the component can be in: those a mount and a sequence of
    inputs lead to. *)
Definition reachable (meetingId token : option jsstring) (user : option User)
  (s : state) : Prop :=
  ∃ x l, s = run meetingId token user (mount meetingId token user x) l.

(** Message ids count up from 1. *)
Definition numbered (ms : list message) : Prop :=
  msg_id <$> ms = seq 1 (length ms).

(** A handler that leaves the transcript and the end-of-meeting flag as they
    are, and one that leaves the peer status as it is too. *)
Definition chat_kept (s s' : state) : Prop :=
  messages (hk s') = messages (hk s)
  ∧ meetingEnded (hk s') = meetingEnded (hk s).

Definition kept (s s' : state) : Prop :=
  messages (hk s') = messages (hk s)
  ∧ meetingEnded (hk s') = meetingEnded (hk s)
  ∧ peerStatus (hk s') = peerStatus (hk s).

(** The peer status is as it was, or it has turned to ['error']. *)
Definition status_or_error (s s' : state) : Prop :=
  peerStatus (hk s') = peerStatus (hk s) ∨ peerStatus (hk s') = StatusError.

(** The peer errors the ['error'] handler reacts to. *)
Definition connection_error (type msg : jsstring) : bool :=
  bool_decide (type = lit "network") || bool_decide (type = lit "disconnected")
  || includes msg (lit "1006") || includes msg (lit "Lost connection").

(** [gone x x']: what is closed in [x] stays closed in the later world [x'].
    The handle counter has not gone back; a socket that was disconnected is
    disconnected; a peer that was destroyed, and so disconnected, is
    destroyed and disconnected. *)
Definition gone (x x' : world) : Prop :=
  next x ≤ next x'
  ∧ (∀ h, h < next x → sockets x !! h = Some true →
       sockets x' !! h = Some true)
  ∧ (∀ h p, h < next x → peers x !! h = Some p →
       destroyed p = true → disconnected p = true →
       ∃ p', peers x' !! h = Some p'
             ∧ destroyed p' = true ∧ disconnected p' = true).

(** The peer of the main effect is destroyed. *)
Definition peer_gone (c : closure) (s : state) : Prop :=
  newPeer c < next (w s)
  ∧ ∃ p, peers (w s) !! newPeer c = Some p
         ∧ destroyed p = true ∧ disconnected p = true.

(** *** Concrete sessions used in the examples *)

Definition ana : User := {| user_id := lit "u1"; user_name := lit "Ana" |}.

(** Ana in meeting ["m1"], mounted at time 0. *)
Definition in_meeting : state :=
  mount (Some (lit "m1")) (Some (lit "tok")) (Some ana) (empty_world 0).

Definition meeting_run : state → list input → state :=
  run (Some (lit "m1")) (Some (lit "tok")) (Some ana).

(** Ana on the video-call page reached without a meeting id (the link of the
    site map): no socket is opened. *)
Definition no_meeting : state :=
  mount None (Some (lit "tok")) (Some ana) (empty_world 0).

(** The variables of the main effect in [in_meeting]. *)
Definition ana_closure : closure :=
  {| newSocket := 1; newVoiceSocket := 2; newPeer := 3;
     connectionTimeout := 4; hasJoined := false; c_user := ana;
     c_meetingId := lit "m1"; c_micOn := true; c_showChat := false |}.

(** Ana with a live audio stream and a call placed to peer ["u2"]. *)
Definition in_call : state :=
  meeting_run in_meeting
    [Settle 7 Granted; VoiceJoined [lit "u2"]; Tick 1500; Fire 9].

(** Ana once the meeting fetch has told the page that she created the
    meeting. *)
Definition as_owner : state :=
  meeting_run in_meeting [Respond 5 (Resolved (Some (lit "u1")))].

(** Ana once the request of the mounted media run has been granted: a live
    audio stream is in the ref, the permission request is still pending. *)
Definition media_first : state := meeting_run in_meeting [Settle 7 Granted].

(** ... and with the camera switched on: the request for a stream with a
    video track is pending. *)
Definition camera_wanted : state := meeting_run media_first [ToggleCamera].

(** Ana in her call with the microphone switched off. *)
Definition muted : state := meeting_run in_call [ToggleMic].

(** Ana after a second call to ["u2"] has taken over the entry of the
    first. *)
Definition called_twice : state :=
  meeting_run in_call [PeerJoined (lit "u2"); Tick 1500; Fire 11].

(** Ana with the chat panel open. *)
Definition chat_opened : state := meeting_run in_meeting [ToggleChat].

(** Ana 20 seconds after the mount, no ['open'] having arrived, and once the
    connection timer has run. *)
Definition at_timeout : state := meeting_run in_meeting [Tick 20000].

Definition after_timeout : state := meeting_run at_timeout [Fire 4].

(** Ana's session when the reconnection of the peer fails: ["u2"] was
    announced, a network error started the 10 second timer and
    [reconnect()] threw, so that a new peer was stored and the first one
    destroyed. *)
Definition reconnect_failed : state :=
  meeting_run in_meeting
    [PeerJoined (lit "u2");
     PeerErr (lit "network") (lit "Lost connection to server.");
     Library true true; Tick 10000; Fire 9].

(** * Properties *)

(** ** The roster *)

Lemma some_id_app userId (l1 l2 : list participant) :
  some_id userId (l1 ++ l2) = some_id userId l1 || some_id userId l2.
Proof. unfold some_id. apply existsb_app. Qed.

Lemma some_id_elem_of userId (l : list participant) :
  some_id userId l = true ↔ userId ∈ p_id <$> l.
Proof.
  unfold some_id. rewrite existsb_exists, list_elem_of_fmap.
  split.
  - intros (p & Hin & Hp). apply bool_decide_eq_true in Hp.
    exists p. split; [done | by apply list_elem_of_In].
  - intros (p & -> & Hin). exists p. split; [by apply list_elem_of_In |].
    by apply bool_decide_eq_true.
Qed.

Lemma user_joined_cases userId name prev :
  user_joined userId name prev
  = if some_id userId prev then prev
    else if 10 <=? length prev then prev
    else prev ++ [{| p_id := userId; p_name := name; p_isLocal := false |}].
Proof. unfold user_joined. by destruct (some_id userId prev). Qed.

Lemma user_joined_present userId name prev :
  some_id userId prev = true → user_joined userId name prev = prev.
Proof. intros H. by rewrite user_joined_cases, H. Qed.

Lemma user_joined_NoDup userId name prev :
  NoDup (p_id <$> prev) → NoDup (p_id <$> user_joined userId name prev).
Proof.
  intros Hnd. rewrite user_joined_cases.
  destruct (some_id userId prev) eqn:Hs; [done |].
  destruct (10 <=? length prev); [done |].
  rewrite fmap_app. apply NoDup_app. split; [done |]. split.
  - intros x Hx Hx'. cbn [fmap list_fmap p_id] in Hx'.
    apply list_elem_of_singleton in Hx'. subst x.
    apply (proj2 (some_id_elem_of _ _)) in Hx. congruence.
  - apply NoDup_singleton.
Qed.

Lemma user_joined_fold_length (evs : list (jsstring * jsstring)) :
  ∀ prev : list participant,
    NoDup evs.*1 →
    (∀ i, i ∈ evs.*1 → some_id i prev = false) →
    length prev ≤ 10 →
    length (foldl (λ acc e, user_joined e.1 e.2 acc) prev evs)
    = Nat.min (length prev + length evs) 10.
Proof.
  induction evs as [|[i n] evs IH]; intros prev Hnd Hnew Hlen.
  - cbn [foldl length]. lia.
  - apply NoDup_cons in Hnd as [Hi Hnd].
    cbn [foldl fst snd length]. rewrite user_joined_cases.
    rewrite (Hnew i) by (left).
    destruct (10 <=? length prev) eqn:Hfull.
    + apply Nat.leb_le in Hfull.
      rewrite IH; [lia | done | | done].
      intros j Hj. apply Hnew. by right.
    + apply Nat.leb_gt in Hfull.
      rewrite IH; [rewrite length_app; cbn [length]; lia | done |
                  | rewrite length_app; cbn [length]; lia].
      intros j Hj. rewrite some_id_app, (Hnew j) by (by right).
      unfold some_id. cbn [existsb p_id orb].
      rewrite orb_false_r. apply bool_decide_eq_false.
      intros ->. done.
Qed.

Lemma join_all_participants evs :
  ∀ s, participants (hk (join_all evs s))
       = foldl (λ acc e, user_joined e.1 e.2 acc) (participants (hk s)) evs.
Proof.
  induction evs as [|e evs IH]; intros s; simpl; [done |].
  unfold join_all in *. simpl. by rewrite IH.
Qed.

(** C1. After [N] ['user-joined'] events with pairwise distinct ids, none of
    them the local participant's, and no other roster event, the roster that
    started with the local participant alone has [min (N + 1) 10] entries;
    and a ['user-joined'] for an id already in the roster leaves the roster
    as it is, so that its ids stay free of duplicates. *)
Theorem roster_size_after_joins
  (user : option User) (evs : list (jsstring * jsstring)) (s s' : state)
  (userId name : jsstring) :
  participants (hk s) = participants (initial_hooks user) →
  NoDup evs.*1 →
  local_id user ∉ evs.*1 →
  some_id userId (participants (hk s')) = true →
  NoDup (p_id <$> participants (hk s')) →
  length (participants (hk (join_all evs s))) = Nat.min (length evs + 1) 10
  ∧ NoDup (p_id <$> participants (hk (join_all evs s)))
  ∧ participants (hk (on_user_joined userId name s')) = participants (hk s')
  ∧ length (participants (hk (on_user_joined userId name s')))
    = length (participants (hk s'))
  ∧ NoDup (p_id <$> participants (hk (on_user_joined userId name s'))).
Proof.
  intros Hinit Hnd Hlocal Hpresent Hnd'.
  assert (Hsame : participants (hk (on_user_joined userId name s'))
                  = participants (hk s')).
  { simpl. by apply user_joined_present. }
  split; [| split; [| split; [done | split; [by rewrite Hsame | by rewrite Hsame]]]].
  - rewrite join_all_participants, user_joined_fold_length; rewrite ?Hinit; simpl.
    + f_equal. lia.
    + done.
    + intros i Hi. rewrite orb_false_r. apply bool_decide_eq_false.
      intros Heq. apply Hlocal. unfold local_id. by rewrite Heq.
    + lia.
  - rewrite join_all_participants. clear Hlocal Hnd.
    assert (Hn0 : NoDup (p_id <$> participants (hk s))).
    { rewrite Hinit. simpl. apply NoDup_singleton. }
    revert Hn0. generalize (participants (hk s)).
    induction evs as [|e evs IH]; intros l Hl; simpl; [done |].
    apply IH. by apply user_joined_NoDup.
Qed.

(** ** The chat *)

Lemma trimStart_nil s : trimStart s = [] ↔ blank s = true.
Proof.
  induction s as [|c s IH]; [done |].
  cbn [trimStart blank forallb]. fold (blank s).
  destruct (is_white_space c); [by rewrite IH | by split].
Qed.

Lemma blank_trimStart s : blank (trimStart s) = blank s.
Proof.
  induction s as [|c s IH]; [done |].
  cbn [trimStart]. destruct (is_white_space c) eqn:Hc.
  - rewrite IH. cbn [blank forallb]. by rewrite Hc.
  - cbn [blank forallb]. by rewrite Hc.
Qed.

Lemma blank_rev s : blank (rev s) = blank s.
Proof.
  unfold blank. apply eq_true_iff_eq. rewrite !forallb_forall.
  split; intros H x Hx; apply H; by apply in_rev in Hx || apply in_rev.
Qed.

(** [trim] leaves nothing exactly when the string is empty or white space
    only. *)
Lemma trim_nil s : trim s = [] ↔ blank s = true.
Proof.
  unfold trim, trimEnd.
  rewrite <- (blank_trimStart s), <- (blank_rev (trimStart s)), <- trimStart_nil.
  split; intros H.
  - apply (f_equal (λ l, rev l)) in H. by rewrite rev_involutive in H.
  - by rewrite H.
Qed.

(** C2. [sendMessage] does nothing at all (no emission, transcript as it
    was) when the input is empty or white space only, when the [socket] hook
    is null or when the meeting has ended; otherwise, whether the socket of
    the hook is connected or not, it emits exactly one ['send-message'] on
    it and appends one entry with author ['Tú'] and the trimmed text at
    once, nothing being awaited. *)
Theorem sendMessage_spec (meetingId : option jsstring) (user : option User)
  (s : state) :
  let s' := sendMessage meetingId user s in
  let text := trim (chatInput (hk s)) in
  if blank (chatInput (hk s)) || bool_decide (socket (hk s) = None)
     || meetingEnded (hk s)
  then s' = s
  else ∃ so, socket (hk s) = Some so
    ∧ trace (w s') = trace (w s)
        ++ [ChatEmit so (SendMessage meetingId text
                           (or_else (user_name <$> user) Tu))]
    ∧ messages (hk s') = messages (hk s)
        ++ [{| msg_id := length (messages (hk s)) + 1; msg_author := Tu;
               msg_text := text |}]
    ∧ pending (w s') = pending (w s)
    ∧ timers (w s') = timers (w s).
Proof.
  intros s' text. subst s'. unfold sendMessage. fold text.
  destruct (blank (chatInput (hk s))) eqn:Hb.
  - apply trim_nil in Hb. fold text in Hb. by rewrite Hb.
  - assert (Hne : text ≠ []).
    { intros Ht. apply trim_nil in Ht. congruence. }
    destruct text as [|c text'] eqn:Ht; [done |].
    destruct (socket (hk s)) as [so|] eqn:Hso; cbn [orb bool_decide]; [| done].
    rewrite bool_decide_eq_false_2 by done. cbn [orb].
    destruct (meetingEnded (hk s)); [done |].
    exists so. by repeat split.
Qed.

(** C2 as stated fails when the chat channel is unavailable because its
    socket is disconnected: [sendMessage] tests the [socket] hook, which
    keeps the socket after the cleanup effect has disconnected it. On Ana's
    session after the connection timeout the send is emitted on the
    disconnected socket and the entry is appended. *)
Lemma sendMessage_disconnected_counterexample :
  let s := meeting_run after_timeout [TypeChat (lit "hola")] in
  let s' := meeting_run s [Send] in
  mounted s = true
  ∧ meetingEnded (hk s) = false
  ∧ socket (hk s) = Some 1
  ∧ sockets (w s) !! 1 = Some true
  ∧ trace (w s')
    = trace (w s)
      ++ [ChatEmit 1 (SendMessage (Some (lit "m1")) (lit "hola") (lit "Ana"))]
  ∧ messages (hk s')
    = messages (hk s)
      ++ [{| msg_id := 2; msg_author := Tu; msg_text := lit "hola" |}].
Proof. by vm_compute. Qed.

(** The round trip of the spec: sending ["hola"]. *)
Example sendMessage_hola :
  let u := {| user_id := lit "u1"; user_name := lit "Ana" |} in
  let s := on_hk (λ h, set_chatInput (lit " hola ") (set_sockets3 (Some 1) None None h))
             (initial_state (Some u) (empty_world 0)) in
  let s' := sendMessage (Some (lit "m1")) (Some u) s in
  trace (w s') = [ChatEmit 1 (SendMessage (Some (lit "m1")) (lit "hola") (lit "Ana"))]
  ∧ messages (hk s') = messages (hk s)
      ++ [{| msg_id := 2; msg_author := Tu; msg_text := lit "hola" |}].
Proof. by vm_compute. Qed.

(** ** Hanging up *)

(** What [hangup] does for a participant who is not the creator: one
    ['leave-voice-room'] when there is a user and a voice socket, then the
    navigation; the roster is emptied and the chat panel closed. *)
Lemma hangup_non_owner_state (meetingId token : option jsstring)
  (user : option User) (s : state) :
  isCreator (hk s) = false →
  hangup meetingId token user s = hangup_rest meetingId user (voiceSocket (hk s)) s.
Proof. intros H. unfold hangup. by rewrite H. Qed.

(** C3, as the code has it. A hangup by a participant who is not the creator
    makes no HTTP call and emits no ['end-meeting']: its whole trace is the
    ['leave-voice-room'] emission, made when a user and a voice socket exist,
    followed by the navigation to ['/realtime']; nothing is awaited, the
    roster is emptied and the chat panel is closed. *)
Theorem hangup_non_owner (meetingId token : option jsstring)
  (user : option User) (s : state) :
  isCreator (hk s) = false →
  let s' := hangup meetingId token user s in
  trace (w s') = trace (w s)
    ++ match user, voiceSocket (hk s) with
       | Some u, Some v => [VoiceEmit v (LeaveVoiceRoom meetingId (user_id u))]
       | _, _ => []
       end
    ++ [Navigate (lit "/realtime")]
  ∧ pending (w s') = pending (w s)
  ∧ participants (hk s') = []
  ∧ showChat (hk s') = false.
Proof.
  intros H s'. subst s'. rewrite hangup_non_owner_state by done.
  unfold hangup_rest.
  destruct user as [u|], (voiceSocket (hk s)) as [v|]; cbn;
    rewrite <- ?app_assoc; done.
Qed.

(** The transcript is not touched by [hangup_rest]. *)
Lemma hangup_rest_messages (meetingId : option jsstring) (user : option User)
  vs s :
  messages (hk (hangup_rest meetingId user vs s)) = messages (hk s).
Proof. unfold hangup_rest. by destruct user, vs. Qed.

(** C3 as stated fails: without a voice socket a hangup by a participant who
    is not the creator emits no ['leave-voice-room'], and the transcript
    still holds its entries. *)
Lemma hangup_non_owner_counterexample :
  let s' := hangup None (Some (lit "tok")) (Some ana) no_meeting in
  isCreator (hk no_meeting) = false
  ∧ trace (w s') = trace (w no_meeting) ++ [Navigate (lit "/realtime")]
  ∧ (∀ v m p, VoiceEmit v (LeaveVoiceRoom m p) ∉ trace (w s'))
  ∧ messages (hk s') ≠ [].
Proof.
  split; [done |]. split; [by vm_compute |]. split; [| by vm_compute].
  intros v m p Hin. vm_compute in Hin.
  repeat (apply elem_of_cons in Hin as [Hin | Hin]; [discriminate Hin |]).
  by apply elem_of_nil in Hin.
Qed.

(** Inside a meeting too the transcript survives a hangup. *)
Example hangup_in_meeting_keeps_transcript :
  let s' := hangup (Some (lit "m1")) (Some (lit "tok")) (Some ana) in_meeting in
  trace (w s') = trace (w in_meeting)
    ++ [VoiceEmit 2 (LeaveVoiceRoom (Some (lit "m1")) (lit "u1"));
        Navigate (lit "/realtime")]
  ∧ messages (hk s') = messages (hk in_meeting).
Proof. by vm_compute. Qed.

(** ** Local media *)

Lemma has_kind_lookup k x t tr :
  tracks x !! t = Some tr → has_kind k x t = bool_decide (kind tr = k).
Proof. intros H. unfold has_kind. by rewrite H. Qed.

Lemma getVideoTracks_audio_only x a tr :
  tracks x !! a = Some tr → kind tr = AudioTrack → getVideoTracks x [a] = [].
Proof.
  intros H Hk. unfold getVideoTracks. rewrite filter_cons, filter_nil.
  rewrite (has_kind_lookup _ _ _ _ H), Hk. done.
Qed.

Lemma getAudioTracks_audio_only x a tr :
  tracks x !! a = Some tr → kind tr = AudioTrack → getAudioTracks x [a] = [a].
Proof.
  intros H Hk. unfold getAudioTracks. rewrite filter_cons, filter_nil.
  rewrite (has_kind_lookup _ _ _ _ H), Hk. done.
Qed.

(** The state right after a granted microphone permission request: the ref
    holds a stream of one audio track, and that track is stopped. *)
Lemma permission_granted_state s :
  let s1 := requestMicrophonePermission_resume Granted s in
  let a := next (w s) in
  mediaStreamRef s1 = Some [a]
  ∧ tracks (w s1) !! a
    = Some {| kind := AudioTrack; enabled := true; stopped := true |}
  ∧ trace (w s1) = trace (w s)
  ∧ pending (w s1) = pending (w s).
Proof.
  cbn. split; [done |]. split; [| done].
  by rewrite lookup_alter_eq, lookup_insert_eq.
Qed.

(** [ensureMedia] on a stream of one audio track, camera off. *)
Lemma ensureMedia_audio_only r run s a tr :
  mediaStreamRef s = Some [a] →
  tracks (w s) !! a = Some tr →
  kind tr = AudioTrack →
  cameraOn r = false →
  ensureMedia r run s = on_w (track_set_enabled (micOn r) a) s.
Proof.
  intros Href Ha Hk Hcam. unfold ensureMedia. rewrite Href, Hcam.
  rewrite (getVideoTracks_audio_only _ _ _ Ha Hk),
    (getAudioTracks_audio_only _ _ _ Ha Hk). done.
Qed.

(** C10, as the code has it. After a granted mount-time permission request
    the ref holds a stream whose only track, an audio track, is stopped; a
    later [ensureMedia] with the microphone wanted and the camera not wanted
    asks for no device, keeps that stream and only sets [enabled] on its
    track, which stays stopped. *)
Theorem permission_then_ensureMedia (s : state) (r : hooks) (run : nat) :
  micOn r = true →
  cameraOn r = false →
  let s1 := requestMicrophonePermission_resume Granted s in
  let a := next (w s) in
  let s2 := ensureMedia r run s1 in
  mediaStreamRef s1 = Some [a]
  ∧ (∀ t, t ∈ [a] → ∃ tr, tracks (w s1) !! t = Some tr ∧ stopped tr = true)
  ∧ trace (w s2) = trace (w s1)
  ∧ pending (w s2) = pending (w s1)
  ∧ mediaStreamRef s2 = Some [a]
  ∧ w s2 = track_set_enabled true a (w s1)
  ∧ tracks (w s2) !! a
    = Some {| kind := AudioTrack; enabled := true; stopped := true |}.
Proof.
  intros Hmic Hcam s1 a s2.
  destruct (permission_granted_state s) as (Href & Ha & _ & _).
  fold s1 a in Href, Ha.
  assert (Hs2 : s2 = on_w (track_set_enabled true a) s1).
  { subst s2. rewrite <- Hmic. by eapply ensureMedia_audio_only. }
  split; [done |]. split.
  { intros t Ht. apply list_elem_of_singleton in Ht. subst t. eauto. }
  rewrite Hs2. repeat split; try done.
  cbn [w on_w track_set_enabled tracks set_tracks].
  by rewrite lookup_alter_eq, Ha.
Qed.

(** C10 as stated fails when the camera is wanted too: the same
    [ensureMedia] then asks for a new device stream, and once that is
    granted the ref holds a live audio track. *)
Lemma permission_then_ensureMedia_counterexample :
  let s1 := requestMicrophonePermission_resume Granted
              (set_media 1 true (initial_state (Some ana) (empty_world 0))) in
  let r := set_cameraOn true (hk s1) in
  let s2 := ensureMedia r 1 s1 in
  let s3 := settle 1 Granted s2 in
  micOn r = true
  ∧ mediaStreamRef s1 = Some [0]
  ∧ trace (w s1) = []
  ∧ trace (w s2) = [GetUserMedia true true]
  ∧ acquisitions (trace (w s2)) = S (acquisitions (trace (w s1)))
  ∧ mediaStreamRef s3 = Some [2; 3]
  ∧ tracks (w s3) !! 2
    = Some {| kind := AudioTrack; enabled := true; stopped := false |}.
Proof. by vm_compute. Qed.

Lemma filter_none {A} (P : A → Prop) `{!∀ x, Decision (P x)} (l : list A) :
  (∀ x, x ∈ l → ¬ P x) → filter P l = [].
Proof.
  induction l as [|x l IH]; intros Hl; [done |].
  rewrite filter_cons, decide_False by (apply Hl; left).
  apply IH. intros y Hy. apply Hl. by right.
Qed.

Lemma filter_all {A} (P : A → Prop) `{!∀ x, Decision (P x)} (l : list A) :
  (∀ x, x ∈ l → P x) → filter P l = l.
Proof.
  induction l as [|x l IH]; intros Hl; [done |].
  rewrite filter_cons, decide_True by (apply Hl; left).
  f_equal. apply IH. intros y Hy. apply Hl. by right.
Qed.

(** A request suspended under a fresh id is the one found under that id,
    and dropping it restores the queue. *)
Lemma find_pending_suspend k x :
  (∀ p, p ∈ pending x → p.1 ≠ next x) →
  find_pending (next x) (suspend k x) = Some k
  ∧ pending (drop_pending (next x) (suspend k x)) = pending x.
Proof.
  intros Hfresh. unfold find_pending, drop_pending, suspend. cbn.
  rewrite !filter_app, !filter_cons, !filter_nil. cbn.
  rewrite decide_True by done.
  rewrite (filter_none (λ p, p.1 = next x)) by done.
  rewrite (filter_all (λ p, p.1 ≠ next x)) by done.
  split; [done |]. rewrite decide_False by (intros Hne; by apply Hne).
  apply app_nil_r.
Qed.

Lemma acquisitions_app tr1 tr2 :
  acquisitions (tr1 ++ tr2) = acquisitions tr1 + acquisitions tr2.
Proof. unfold acquisitions. by rewrite filter_app, length_app. Qed.

Lemma has_kind_set_enabled k b t x t' :
  has_kind k (track_set_enabled b t x) t' = has_kind k x t'.
Proof.
  unfold has_kind, track_set_enabled. cbn.
  destruct (decide (t = t')) as [->|Hne].
  - rewrite lookup_alter_eq. by destruct (tracks x !! t').
  - by rewrite lookup_alter_ne.
Qed.

Lemma has_kind_enable_if_any k b o x t' :
  has_kind k (enable_if_any b o x) t' = has_kind k x t'.
Proof. destruct o; [apply has_kind_set_enabled | done]. Qed.



Lemma getAudioTracks_enable_if_any b o x cur :
  getAudioTracks (enable_if_any b o x) cur = getAudioTracks x cur.
Proof.
  unfold getAudioTracks. apply list_filter_iff. intros t.
  by rewrite has_kind_enable_if_any.
Qed.

Lemma enable_if_any_lookup b o x t :
  tracks (enable_if_any b o x) !! t
  = (λ tr, {| kind := kind tr;
              enabled := if bool_decide (o = Some t) then b else enabled tr;
              stopped := stopped tr |}) <$> tracks x !! t.
Proof.
  destruct o as [t'|]; cbn.
  - destruct (decide (t' = t)) as [->|Hne].
    + rewrite lookup_alter_eq, bool_decide_eq_true_2 by done. done.
    + rewrite lookup_alter_ne, bool_decide_eq_false_2 by congruence.
      by destruct (tracks x !! t) as [[]|].
  - by destruct (tracks x !! t) as [[]|].
Qed.





(** ** Stopping tracks and closing calls *)

(** [stop_tracks] writes the track store only and [close_all_calls] the call
    store only. *)
Lemma stop_tracks_frame st x :
  stop_tracks st x = set_tracks (tracks (stop_tracks st x)) x.
Proof.
  revert x. induction st as [|t st IH]; intros x; [by destruct x |].
  unfold stop_tracks in *. cbn [foldl]. by rewrite IH.
Qed.

Lemma close_calls_frame l x :
  close_calls l x = set_calls (calls (close_calls l x)) x.
Proof.
  revert x. induction l as [|kc l IH]; intros x; [by destruct x |].
  unfold close_calls in *. cbn [foldl]. by rewrite IH.
Qed.

Lemma close_all_calls_frame m x :
  close_all_calls m x = set_calls (calls (close_all_calls m x)) x.
Proof. apply close_calls_frame. Qed.

(** Every track of the stream ends stopped, the others are left alone. *)
Lemma stop_tracks_lookup st x t :
  tracks (stop_tracks st x) !! t
  = (λ tr, {| kind := kind tr; enabled := enabled tr;
              stopped := if bool_decide (t ∈ st) then true else stopped tr |})
    <$> tracks x !! t.
Proof.
  revert x. induction st as [|t' st IH]; intros x.
  - cbn. by destruct (tracks x !! t) as [[]|].
  - unfold stop_tracks in *. cbn [foldl]. rewrite IH. cbn.
    destruct (decide (t' = t)) as [->|Hne].
    + rewrite lookup_alter_eq. destruct (tracks x !! t) as [tr|]; [| done].
      cbn. rewrite (bool_decide_eq_true_2 (t ∈ t :: st)) by left.
      by destruct (bool_decide (t ∈ st)).
    + rewrite lookup_alter_ne by done.
      destruct (tracks x !! t) as [tr|]; [| done]. cbn.
      assert (bool_decide (t ∈ t' :: st) = bool_decide (t ∈ st)) as ->; [| done].
      apply bool_decide_ext. rewrite elem_of_cons.
      split; [intros [?|?]; [congruence | done] | by right].
Qed.

Lemma close_calls_lookup l x c :
  calls (close_calls l x) !! c
  = (λ k, {| call_peer := call_peer k; call_stream := call_stream k;
             call_closed := if bool_decide (c ∈ l.*2) then true
                            else call_closed k;
             call_handlers := call_handlers k |})
    <$> calls x !! c.
Proof.
  revert x. induction l as [|[k c'] l IH]; intros x.
  - cbn. by destruct (calls x !! c) as [[]|].
  - unfold close_calls in *. cbn [foldl]. rewrite IH. cbn.
    destruct (decide (c' = c)) as [->|Hne].
    + rewrite lookup_alter_eq. destruct (calls x !! c) as [co|]; [| done].
      cbn. rewrite (bool_decide_eq_true_2 (c ∈ c :: l.*2)) by left.
      by destruct (bool_decide (c ∈ l.*2)).
    + rewrite lookup_alter_ne by done.
      destruct (calls x !! c) as [co|]; [| done]. cbn.
      assert (bool_decide (c ∈ c' :: l.*2) = bool_decide (c ∈ l.*2)) as ->;
        [| done].
      apply bool_decide_ext. rewrite elem_of_cons.
      split; [intros [?|?]; [congruence | done] | by right].
Qed.

Lemma close_connections_frame l x :
  close_connections l x = set_calls (calls (close_connections l x)) x.
Proof.
  revert x. induction l as [|c l IH]; intros x; [by destruct x |].
  unfold close_connections in *. cbn [foldl]. by rewrite IH.
Qed.

Lemma close_connections_lookup l x c :
  calls (close_connections l x) !! c
  = (λ k, {| call_peer := call_peer k; call_stream := call_stream k;
             call_closed := if bool_decide (c ∈ l) then true
                            else call_closed k;
             call_handlers := call_handlers k |})
    <$> calls x !! c.
Proof.
  revert x. induction l as [|c' l IH]; intros x.
  - cbn. by destruct (calls x !! c) as [[]|].
  - unfold close_connections in *. cbn [foldl]. rewrite IH. cbn.
    destruct (decide (c' = c)) as [->|Hne].
    + rewrite lookup_alter_eq. destruct (calls x !! c) as [co|]; [| done].
      cbn. rewrite (bool_decide_eq_true_2 (c ∈ c :: l)) by left.
      by destruct (bool_decide (c ∈ l)).
    + rewrite lookup_alter_ne by done.
      destruct (calls x !! c) as [co|]; [| done]. cbn.
      assert (bool_decide (c ∈ c' :: l) = bool_decide (c ∈ l)) as ->;
        [| done].
      apply bool_decide_ext. rewrite elem_of_cons.
      split; [intros [?|?]; [congruence | done] | by right].
Qed.

(** [peer.destroy()] writes the peer, its connections and the calls among
    them, nothing else. *)
Lemma peer_destroy_frame h x :
  peer_destroy h x
  = set_peers (alter (λ p, {| peer_identity := peer_identity p;
                              disconnected := true; destroyed := true |})
                 h (peers x))
      (set_connections (delete h (connections x))
         (set_calls (calls (close_connections (connections_of h x) x)) x)).
Proof.
  unfold peer_destroy. by rewrite (close_connections_frame _ x).
Qed.

Lemma peer_destroy_calls h x c :
  calls (peer_destroy h x) !! c
  = (λ k, {| call_peer := call_peer k; call_stream := call_stream k;
             call_closed := if bool_decide (c ∈ connections_of h x) then true
                            else call_closed k;
             call_handlers := call_handlers k |})
    <$> calls x !! c.
Proof. rewrite peer_destroy_frame. cbn. apply close_connections_lookup. Qed.

Lemma if_any_destroy_calls o x c co :
  calls x !! c = Some co →
  ∃ b, calls (if_any peer_destroy o x) !! c
       = Some {| call_peer := call_peer co; call_stream := call_stream co;
                 call_closed := b; call_handlers := call_handlers co |}
       ∧ (call_closed co = true → b = true)
       ∧ (∀ h, o = Some h → c ∈ connections_of h x → b = true).
Proof.
  intros Hc. destruct o as [h|]; cbn [if_any].
  - rewrite peer_destroy_calls, Hc. cbn. eexists. split; [done |].
    split.
    + intros ->. by destruct (bool_decide _).
    + intros h' [= <-] Hin. by rewrite bool_decide_eq_true_2.
  - exists (call_closed co). destruct co. split; [done |].
    split; [done | by intros].
Qed.

Lemma close_all_calls_lookup (m : gmap jsstring nat) x k c co :
  m !! k = Some c →
  calls x !! c = Some co →
  calls (close_all_calls m x) !! c
  = Some {| call_peer := call_peer co; call_stream := call_stream co;
            call_closed := true; call_handlers := call_handlers co |}.
Proof.
  intros Hk Hc. unfold close_all_calls. fold (close_calls (map_to_list m) x).
  rewrite close_calls_lookup, Hc. cbn.
  rewrite bool_decide_eq_true_2; [done |].
  apply list_elem_of_fmap. exists (k, c). split; [done |].
  by apply elem_of_map_to_list.
Qed.

Lemma close_all_calls_closed (m : gmap jsstring nat) x c co :
  calls x !! c = Some co →
  call_closed co = true →
  ∃ co', calls (close_all_calls m x) !! c = Some co'
         ∧ call_closed co' = true.
Proof.
  intros Hc Hcl. unfold close_all_calls. fold (close_calls (map_to_list m) x).
  rewrite close_calls_lookup, Hc. cbn. eexists. split; [done |].
  cbn. rewrite Hcl. by destruct (bool_decide _).
Qed.

(** ** Teardown *)

Lemma cleanup_world so vs pe s :
  w (cleanup so vs pe s)
  = close_all_calls (peerCallsRef s)
      (if_any peer_destroy pe
         (if_any socket_disconnect vs
            (if_any socket_disconnect so
               (match mediaStreamRef s with
                | Some st => stop_tracks st (w s)
                | None => w s
                end)))).
Proof. unfold cleanup. by destruct (mediaStreamRef s), so, vs, pe. Qed.

Lemma cleanup_refs so vs pe s :
  mediaStreamRef (cleanup so vs pe s) = None
  ∧ peerCallsRef (cleanup so vs pe s) = ∅.
Proof. unfold cleanup. by destruct (mediaStreamRef s), so, vs, pe. Qed.

Lemma if_any_disconnect_lookup o x h :
  sockets (if_any socket_disconnect o x) !! h
  = if bool_decide (o = Some h) then Some true else sockets x !! h.
Proof.
  destruct o as [h'|]; cbn; [| done].
  destruct (decide (h' = h)) as [->|Hne].
  - by rewrite lookup_insert_eq, bool_decide_eq_true_2.
  - by rewrite lookup_insert_ne, bool_decide_eq_false_2 by congruence.
Qed.

Lemma if_any_destroy_lookup o x h :
  peers (if_any peer_destroy o x) !! h
  = (λ p, if bool_decide (o = Some h)
          then {| peer_identity := peer_identity p; disconnected := true;
                  destroyed := true |}
          else p) <$> peers x !! h.
Proof.
  destruct o as [h'|]; cbn [if_any].
  - rewrite peer_destroy_frame. cbn.
    destruct (decide (h' = h)) as [->|Hne].
    + by rewrite lookup_alter_eq, bool_decide_eq_true_2.
    + rewrite lookup_alter_ne, bool_decide_eq_false_2 by congruence.
      by destruct (peers x !! h).
  - cbn. by destruct (peers x !! h).
Qed.

Lemma if_any_destroy_frame o x :
  tracks (if_any peer_destroy o x) = tracks x
  ∧ sockets (if_any peer_destroy o x) = sockets x
  ∧ timers (if_any peer_destroy o x) = timers x
  ∧ pending (if_any peer_destroy o x) = pending x
  ∧ trace (if_any peer_destroy o x) = trace x.
Proof.
  destruct o as [h|]; cbn [if_any]; [rewrite peer_destroy_frame |]; done.
Qed.

Lemma cleanup_tracks so vs pe s t :
  tracks (w (cleanup so vs pe s)) !! t
  = match mediaStreamRef s with
    | Some st => tracks (stop_tracks st (w s)) !! t
    | None => tracks (w s) !! t
    end.
Proof.
  rewrite cleanup_world, close_all_calls_frame. cbn [tracks set_calls].
  rewrite (proj1 (if_any_destroy_frame _ _)).
  destruct (mediaStreamRef s), so, vs; done.
Qed.

Lemma cleanup_sockets so vs pe s h :
  sockets (w (cleanup so vs pe s)) !! h
  = if bool_decide (vs = Some h) then Some true
    else if bool_decide (so = Some h) then Some true
    else sockets (w s) !! h.
Proof.
  rewrite cleanup_world, close_all_calls_frame. cbn [sockets set_calls].
  rewrite (proj1 (proj2 (if_any_destroy_frame _ _))).
  rewrite !if_any_disconnect_lookup.
  destruct (mediaStreamRef s) as [st|]; [| done].
  by rewrite stop_tracks_frame.
Qed.

Lemma cleanup_peers so vs pe s h :
  peers (w (cleanup so vs pe s)) !! h
  = (λ p, if bool_decide (pe = Some h)
          then {| peer_identity := peer_identity p; disconnected := true;
                  destroyed := true |}
          else p) <$> peers (w s) !! h.
Proof.
  rewrite cleanup_world, close_all_calls_frame. cbn [peers set_calls].
  rewrite if_any_destroy_lookup.
  assert (∀ o x, peers (if_any socket_disconnect o x) = peers x) as Hd
    by (by intros [?|] ?).
  rewrite !Hd. destruct (mediaStreamRef s) as [st|]; [| done].
  by rewrite stop_tracks_frame.
Qed.

Lemma cleanup_calls so vs pe s k c co :
  peerCallsRef s !! k = Some c →
  calls (w s) !! c = Some co →
  calls (w (cleanup so vs pe s)) !! c
  = Some {| call_peer := call_peer co; call_stream := call_stream co;
            call_closed := true; call_handlers := call_handlers co |}.
Proof.
  intros Hk Hc. rewrite cleanup_world.
  assert (∀ o x, calls (if_any socket_disconnect o x) = calls x) as Hd
    by (by intros [?|] ?).
  set (x := if_any socket_disconnect vs _).
  assert (Hx : calls x !! c = Some co).
  { subst x. rewrite !Hd. destruct (mediaStreamRef s) as [st|]; [| done].
    by rewrite stop_tracks_frame. }
  destruct (if_any_destroy_calls pe x c co Hx) as (b & Hb & _).
  by rewrite (close_all_calls_lookup _ _ k c _ Hk Hb).
Qed.


(** Once closed a call stays closed through the cleanup. *)
Lemma cleanup_closed so vs pe s c co :
  calls (w s) !! c = Some co →
  call_closed co = true →
  ∃ co', calls (w (cleanup so vs pe s)) !! c = Some co'
         ∧ call_closed co' = true.
Proof.
  intros Hc Hcl. rewrite cleanup_world.
  assert (∀ o x, calls (if_any socket_disconnect o x) = calls x) as Hd
    by (by intros [?|] ?).
  set (x := if_any socket_disconnect vs _).
  assert (Hx : calls x !! c = Some co).
  { subst x. rewrite !Hd. destruct (mediaStreamRef s) as [st|]; [| done].
    by rewrite stop_tracks_frame. }
  destruct (if_any_destroy_calls pe x c co Hx) as (b & Hb & Hb' & _).
  rewrite (Hb' Hcl) in Hb.
  by apply (close_all_calls_closed _ _ _ _ Hb).
Qed.

Lemma main_cleanup_frame s :
  hk (main_cleanup s) = hk s
  ∧ mediaStreamRef (main_cleanup s) = mediaStreamRef s
  ∧ peerCallsRef (main_cleanup s) = peerCallsRef s
  ∧ tracks (w (main_cleanup s)) = tracks (w s)
  ∧ (main (main_cleanup s) = main s ∧ mounted (main_cleanup s) = mounted s
     ∧ media_run (main_cleanup s) = media_run s
     ∧ media_mounted (main_cleanup s) = media_mounted s).
Proof.
  unfold main_cleanup. destruct (main s) eqn:Hm; [| by rewrite Hm].
  cbn [hk mediaStreamRef peerCallsRef main mounted media_run media_mounted
       w on_w].
  by rewrite peer_destroy_frame.
Qed.

(** The cleanup of the main effect closes the calls made through its peer
    and leaves the others as they are. *)
Lemma main_cleanup_calls s c co :
  calls (w s) !! c = Some co →
  ∃ b, calls (w (main_cleanup s)) !! c
       = Some {| call_peer := call_peer co; call_stream := call_stream co;
                 call_closed := b; call_handlers := call_handlers co |}
       ∧ (call_closed co = true → b = true)
       ∧ (∀ cl, main s = Some cl → c ∈ connections_of (newPeer cl) (w s) →
          b = true).
Proof.
  intros Hc. unfold main_cleanup. destruct (main s) as [cl|]; cbn [w on_w].
  - rewrite peer_destroy_calls. cbn [calls socket_disconnect set_sockets
      clearTimeout set_timers]. rewrite Hc. cbn. eexists. split; [done |].
    split.
    + intros ->. by destruct (bool_decide _).
    + intros cl' [= <-] Hin. by rewrite bool_decide_eq_true_2.
  - exists (call_closed co). destruct co. split; [done |].
    split; [done | by intros].
Qed.










(** ** The call map *)

(** C9. The call map has one entry per peer id at most. Placing a call
    ([initiateCall], when it gets as far as [peerInstance.call] and that does
    not throw) or answering one (the peer's ['call'] handler, with the
    microphone on and a stream) for a peer id that already has an entry puts
    the new call in that entry, the map keeping its size and its other
    entries, and leaves the call that was there exactly as it was: it is not
    closed, only no longer in the map. *)
Theorem call_map_replaces (user : option User) (s : state) (cl : closure)
  (peerInstance old : nat) (peerId : jsstring) (st : stream) :
  mediaStreamRef s = Some st →
  Some peerId ≠ user_id <$> user →
  peerId ≠ [] →
  call_throws (w s) = false →
  c_micOn cl = true →
  peerCallsRef s !! peerId = Some old →
  old < next (w s) →
  let placed := initiateCall user peerInstance peerId s in
  let answered := on_peer cl (PeerCall peerId) s in
  let new := next (w s) in
  NoDup (map_to_list (peerCallsRef s)).*1
  ∧ NoDup (map_to_list (peerCallsRef placed)).*1
  ∧ NoDup (map_to_list (peerCallsRef answered)).*1
  ∧ new ≠ old
  ∧ peerCallsRef placed = <[peerId := new]> (peerCallsRef s)
  ∧ peerCallsRef placed !! peerId = Some new
  ∧ size (peerCallsRef placed) = size (peerCallsRef s)
  ∧ calls (w placed) !! old = calls (w s) !! old
  ∧ calls (w placed) !! new
    = Some {| call_peer := peerId; call_stream := Some st;
              call_closed := false; call_handlers := Some peerId |}
  ∧ peerCallsRef answered = <[peerId := new]> (peerCallsRef s)
  ∧ peerCallsRef answered !! peerId = Some new
  ∧ size (peerCallsRef answered) = size (peerCallsRef s)
  ∧ calls (w answered) !! old = calls (w s) !! old
  ∧ calls (w answered) !! new
    = Some {| call_peer := peerId; call_stream := Some st;
              call_closed := false; call_handlers := None |}.
Proof.
  intros Href Hself Hne Hthrow Hmic Hold Hlt placed answered new.
  assert (Hnew : new ≠ old) by (subst new; lia).
  assert (Hplaced : placed
    = set_peerCallsRef (<[peerId := new]> (peerCallsRef s))
        (on_w (λ x, add_connection peerInstance new
                      (set_calls (<[new := {| call_peer := peerId;
                                              call_stream := Some st;
                                              call_closed := false;
                                              call_handlers := Some peerId |}]>
                                    (calls x)) (set_next (S (next x)) x))) s)).
  { subst placed. unfold initiateCall. rewrite Href, Hthrow.
    by rewrite bool_decide_eq_false_2. }
  assert (Hanswered : answered
    = set_peerCallsRef (<[peerId := new]> (peerCallsRef s))
        (on_w (λ x, add_connection (newPeer cl) new
                      (set_calls (<[new := {| call_peer := peerId;
                                              call_stream := Some st;
                                              call_closed := false;
                                              call_handlers := None |}]>
                                    (calls x)) (set_next (S (next x)) x))) s)).
  { subst answered. unfold on_peer, incoming_call, on_incoming_call. cbn.
    rewrite lookup_insert_eq. cbn. destruct peerId as [|c p]; [done |].
    rewrite Href, Hmic. unfold set_peerCallsRef, on_w. cbn.
    by rewrite insert_insert_eq. }
  repeat split; try apply NoDup_fst_map_to_list; try done.
  - by rewrite Hplaced.
  - rewrite Hplaced. cbn. apply lookup_insert_eq.
  - rewrite Hplaced. cbn. by eapply map_size_insert_Some.
  - rewrite Hplaced. cbn. by rewrite lookup_insert_ne.
  - rewrite Hplaced. cbn. apply lookup_insert_eq.
  - by rewrite Hanswered.
  - rewrite Hanswered. cbn. apply lookup_insert_eq.
  - rewrite Hanswered. cbn. by eapply map_size_insert_Some.
  - rewrite Hanswered. cbn. by rewrite lookup_insert_ne.
  - rewrite Hanswered. cbn. apply lookup_insert_eq.
Qed.

(** ** Later worlds

    Every handler takes the world to a later one in the sense of [grows];
    the lemmas of this section say so for the primitive operations, in the
    form that composes: from [grows P x y] to [grows P x (f y)]. *)

Lemma timer_runs_app k tr1 tr2 :
  timer_runs k (tr1 ++ tr2) = timer_runs k tr1 + timer_runs k tr2.
Proof. unfold timer_runs. by rewrite filter_app, length_app. Qed.

Lemma timer_runs_none k tr : TimerRun k ∉ tr → timer_runs k tr = 0.
Proof.
  intros H. unfold timer_runs. rewrite filter_none; [done |].
  intros e He ->. done.
Qed.

Lemma timer_runs_other k e : e ≠ TimerRun k → timer_runs k [e] = 0.
Proof.
  intros H. apply timer_runs_none. intros Hin.
  apply list_elem_of_singleton in Hin. congruence.
Qed.

Lemma timer_runs_one k : timer_runs k [TimerRun k] = 1.
Proof. unfold timer_runs. by rewrite filter_cons, decide_True. Qed.

Section Grows.

Variable P : effect → Prop.

Lemma grows_refl x : grows P x x.
Proof.
  split; [done |]. split; [by left |].
  exists []. split; [by rewrite app_nil_r |]. split; [constructor |].
  split; [| intros k; cbn; lia]. intros k Hk. by apply elem_of_nil in Hk.
Qed.

Lemma grows_trans x y z : grows P x y → grows P y z → grows P x z.
Proof.
  intros (Hn1 & Ht1 & tr1 & Htr1 & HP1 & Hr1 & Hc1)
         (Hn2 & Ht2 & tr2 & Htr2 & HP2 & Hr2 & Hc2).
  assert (Hgone : ∀ k, k < next y → (k ∉ t_id <$> timers y) →
                       (k ∉ t_id <$> timers z) ∧ TimerRun k ∉ tr2).
  { intros k Hlt Hout. split.
    - intros Hin. apply list_elem_of_fmap in Hin as (t & -> & Hin).
      destruct (Ht2 t Hin) as [Hy | Hy]; [| lia].
      apply Hout, list_elem_of_fmap. eauto.
    - intros Hin. destruct (Hr2 k Hin) as ([Hy | Hy] & _); [done | lia]. }
  split; [lia |]. split.
  - intros t Ht. destruct (Ht2 t Ht) as [Hy | Hy]; [| right; lia].
    destruct (Ht1 t Hy) as [Hx | Hx]; [by left | right; lia].
  - exists (tr1 ++ tr2). split; [by rewrite Htr2, Htr1, app_assoc |].
    split; [by apply Forall_app |]. split.
    + intros k Hk. apply elem_of_app in Hk as [Hk | Hk].
      * destruct (Hr1 k Hk) as (Hx & Hlt & Hout).
        destruct (Hgone k Hlt Hout) as [Hz _].
        split; [done |]. split; [lia | done].
      * destruct (Hr2 k Hk) as (Hy & Hlt & Hout).
        split; [| done]. destruct Hy as [Hin | Hge]; [| right; lia].
        apply list_elem_of_fmap in Hin as (t & -> & Hin).
        destruct (Ht1 t Hin) as [Hx | Hx]; [| right; lia].
        left. apply list_elem_of_fmap. eauto.
    + intros k. rewrite timer_runs_app.
      destruct (decide (TimerRun k ∈ tr1)) as [Hk | Hk].
      * destruct (Hr1 k Hk) as (_ & Hlt & Hout).
        destruct (Hgone k Hlt Hout) as [_ Hz].
        rewrite (timer_runs_none k tr2) by done. specialize (Hc1 k). lia.
      * rewrite (timer_runs_none k tr1) by done. specialize (Hc2 k). lia.
Qed.

(** A step that changes neither the counter, nor the timers, nor the
    trace. *)
Lemma grows_same x y y' :
  grows P x y → next y' = next y → timers y' = timers y →
  trace y' = trace y → grows P x y'.
Proof.
  intros (Hn & Ht & tr & Htr & HP & Hr & Hc) En Et Etr. unfold grows.
  rewrite En, Et, Etr. eauto 8.
Qed.

Lemma grows_set_tracks x y v : grows P x y → grows P x (set_tracks v y).
Proof. intros H. by eapply grows_same. Qed.
Lemma grows_set_calls x y v : grows P x y → grows P x (set_calls v y).
Proof. intros H. by eapply grows_same. Qed.
Lemma grows_set_peers x y v : grows P x y → grows P x (set_peers v y).
Proof. intros H. by eapply grows_same. Qed.
Lemma grows_set_sockets x y v : grows P x y → grows P x (set_sockets v y).
Proof. intros H. by eapply grows_same. Qed.
Lemma grows_set_now x y v : grows P x y → grows P x (set_now v y).
Proof. intros H. by eapply grows_same. Qed.
Lemma grows_set_pending x y v : grows P x y → grows P x (set_pending v y).
Proof. intros H. by eapply grows_same. Qed.
Lemma grows_set_library x y r c : grows P x y → grows P x (set_library r c y).
Proof. intros H. by eapply grows_same. Qed.
Lemma grows_set_connections x y v :
  grows P x y → grows P x (set_connections v y).
Proof. intros H. by eapply grows_same. Qed.

Lemma grows_fresh x y : grows P x y → grows P x (fresh y).2.
Proof.
  intros (Hn & Ht & tr & Htr & HP & Hr & Hc). split; [cbn; lia |]. split.
  - intros t Hin. destruct (Ht t Hin) as [|]; [by left | right; cbn; lia].
  - exists tr. repeat split; try done; destruct (Hr k) as (? & ? & ?);
      try done. cbn. lia.
Qed.

Lemma grows_emit x y e :
  grows P x y → P e → (∀ k, e ≠ TimerRun k) → grows P x (emit e y).
Proof.
  intros (Hn & Ht & tr & Htr & HP & Hr & Hc) He Hk.
  split; [done |]. split; [done |].
  exists (tr ++ [e]). split; [cbn; by rewrite Htr, app_assoc |].
  split; [apply Forall_app; split; [done | by constructor] |]. split.
  - intros k Hin. apply elem_of_app in Hin as [Hin | Hin]; [by apply Hr |].
    apply list_elem_of_singleton in Hin. by destruct (Hk k).
  - intros k. rewrite timer_runs_app, (timer_runs_other k e) by done.
    specialize (Hc k). lia.
Qed.

(** The scheduler taking timer [i] off the queue and recording its run. *)
Lemma grows_timer_run x y i :
  grows P x y → P (TimerRun i) → i ∈ t_id <$> timers y → i < next y →
  grows P x (emit (TimerRun i) (clearTimeout i y)).
Proof.
  intros (Hn & Ht & tr & Htr & HP & Hr & Hc) He Hi Hlt.
  assert (Hnot : TimerRun i ∉ tr).
  { intros Hin. by destruct (Hr i Hin) as (_ & _ & ?). }
  assert (Hout : ∀ k, (k ∉ t_id <$> timers y) ∨ k = i →
                      k ∉ t_id <$> timers (emit (TimerRun i) (clearTimeout i y))).
  { intros k Hk Hin. cbn in Hin.
    apply list_elem_of_fmap in Hin as (t & -> & Hin).
    apply list_elem_of_filter in Hin as [Hne Hin].
    destruct Hk as [Hk | Hk]; [| done].
    apply Hk, list_elem_of_fmap. eauto. }
  split; [done |]. split.
  { intros t Hin. cbn in Hin. apply list_elem_of_filter in Hin as [_ Hin]. auto. }
  exists (tr ++ [TimerRun i]). split; [cbn; by rewrite Htr, app_assoc |].
  split; [apply Forall_app; split; [done | by constructor] |]. split.
  - intros k Hin. apply elem_of_app in Hin as [Hin | Hin].
    + destruct (Hr k Hin) as (? & ? & ?). split; [done |]. split; [done |].
      apply Hout. by left.
    + apply list_elem_of_singleton in Hin. injection Hin as ->.
      split; [| split; [done | apply Hout; by right]].
      apply list_elem_of_fmap in Hi as (t & -> & Hin).
      destruct (Ht t Hin) as [Hx | Hx]; [| right; lia].
      left. apply list_elem_of_fmap. eauto.
  - intros k. rewrite timer_runs_app.
    destruct (decide (k = i)) as [->|Hne].
    + rewrite (timer_runs_none i tr), timer_runs_one by done. lia.
    + rewrite (timer_runs_other k (TimerRun i)) by congruence.
      specialize (Hc k). lia.
Qed.

Lemma grows_setTimeout x y a d : grows P x y → grows P x (setTimeout a d y).2.
Proof.
  intros (Hn & Ht & tr & Htr & HP & Hr & Hc). split; [cbn; lia |]. split.
  - intros t Hin. cbn in Hin. apply elem_of_app in Hin as [Hin | Hin].
    + destruct (Ht t Hin) as [|]; [by left | right; cbn; lia].
    + apply list_elem_of_singleton in Hin. subst t. right. cbn. lia.
  - exists tr. repeat split; try done; destruct (Hr k) as (? & ? & Hout);
      try done; [cbn; lia |].
    cbn. rewrite fmap_app. intros Hin.
    apply elem_of_app in Hin as [Hin | Hin]; [done |].
    apply list_elem_of_singleton in Hin. cbn in Hin. lia.
Qed.

Lemma grows_clearTimeout x y i : grows P x y → grows P x (clearTimeout i y).
Proof.
  intros (Hn & Ht & tr & Htr & HP & Hr & Hc). split; [done |]. split.
  - intros t Hin. cbn in Hin. apply list_elem_of_filter in Hin as [_ Hin]. auto.
  - exists tr. repeat split; try done; destruct (Hr k) as (? & ? & Hout);
      try done.
    cbn. intros Hin. apply list_elem_of_fmap in Hin as (t & -> & Hin).
    apply list_elem_of_filter in Hin as [_ Hin].
    apply Hout, list_elem_of_fmap. eauto.
Qed.

Lemma grows_suspend x y k : grows P x y → grows P x (suspend k y).
Proof. intros H. unfold suspend. cbn. by apply grows_set_pending, grows_fresh. Qed.

Lemma grows_track_stop x y t : grows P x y → grows P x (track_stop t y).
Proof. apply grows_set_tracks. Qed.
Lemma grows_track_set_enabled x y b t :
  grows P x y → grows P x (track_set_enabled b t y).
Proof. apply grows_set_tracks. Qed.
Lemma grows_stop_tracks x y st : grows P x y → grows P x (stop_tracks st y).
Proof. intros H. rewrite stop_tracks_frame. by apply grows_set_tracks. Qed.
Lemma grows_socket_disconnect x y h :
  grows P x y → grows P x (socket_disconnect h y).
Proof. apply grows_set_sockets. Qed.
Lemma grows_peer_destroy x y h : grows P x y → grows P x (peer_destroy h y).
Proof.
  intros H. rewrite peer_destroy_frame.
  by apply grows_set_peers, grows_set_connections, grows_set_calls.
Qed.
Lemma grows_add_connection x y h c :
  grows P x y → grows P x (add_connection h c y).
Proof. apply grows_set_connections. Qed.
Lemma grows_peer_reconnect x y h : grows P x y → grows P x (peer_reconnect h y).
Proof. apply grows_set_peers. Qed.
Lemma grows_peer_lost x y h : grows P x y → grows P x (peer_lost h y).
Proof. apply grows_set_peers. Qed.
Lemma grows_call_close x y c : grows P x y → grows P x (call_close c y).
Proof. apply grows_set_calls. Qed.
Lemma grows_close_all_calls x y m :
  grows P x y → grows P x (close_all_calls m y).
Proof. intros H. rewrite close_all_calls_frame. by apply grows_set_calls. Qed.
Lemma grows_drop_pending x y i : grows P x y → grows P x (drop_pending i y).
Proof. apply grows_set_pending. Qed.

Lemma grows_new_peer x y ident : grows P x y → grows P x (new_peer ident y).2.
Proof. intros H. cbn. by apply grows_set_peers, grows_fresh. Qed.
Lemma grows_io x y : grows P x y → grows P x (io y).2.
Proof. intros H. cbn. by apply grows_set_sockets, grows_fresh. Qed.
Lemma grows_new_track x y k : grows P x y → grows P x (new_track k y).2.
Proof. intros H. cbn. by apply grows_set_tracks, grows_fresh. Qed.
Lemma grows_new_stream x y v a : grows P x y → grows P x (new_stream v a y).2.
Proof.
  intros H. unfold new_stream. destruct a, v; cbn;
    repeat first [assumption | apply grows_set_tracks | apply (grows_fresh x)].
Qed.
Lemma grows_incoming_call x y h from :
  grows P x y → grows P x (incoming_call h from y).2.
Proof.
  intros H. cbn. by apply grows_set_connections, grows_set_calls, grows_fresh.
Qed.

End Grows.

(** The same for the handlers. [P] holds of every effect that is not a
    ['join-meeting'] emission. *)

Section GrowsHandlers.

Variable P : effect → Prop.
Hypothesis HP : ∀ e, is_join e = false → P e.
Variables meetingId token : option jsstring.
Variable user : option User.

Ltac grows_prim :=
  first
    [ assumption
    | apply grows_emit; [| apply HP; reflexivity | intros ?; discriminate]
    | apply grows_set_tracks | apply grows_set_calls | apply grows_set_peers
    | apply grows_set_sockets | apply grows_set_now | apply grows_set_pending
    | apply grows_set_library | apply grows_set_connections
    | apply grows_add_connection | apply grows_fresh | apply grows_setTimeout
    | apply grows_clearTimeout | apply grows_suspend | apply grows_track_stop
    | apply grows_track_set_enabled | apply grows_stop_tracks
    | apply grows_socket_disconnect | apply grows_peer_destroy
    | apply grows_peer_reconnect | apply grows_peer_lost
    | apply grows_call_close | apply grows_close_all_calls
    | apply grows_drop_pending | apply grows_new_peer | apply grows_io
    | apply grows_new_track | apply grows_new_stream
    | apply grows_incoming_call ].

Ltac grows_split :=
  match goal with
  | |- context [match ?e with (_, _) => _ end] =>
      rewrite (surjective_pairing e)
  | |- context [match ?b with _ => _ end] => destruct b eqn:?
  | |- context [if ?b then _ else _] => destruct b eqn:?
  end.

Ltac grows_state :=
  progress cbn [w on_w on_hk set_mediaStreamRef set_peerCallsRef set_main
                  set_mounted set_media fst snd].

Ltac grows_auto := repeat first [grows_prim | grows_state | grows_split].

Lemma grows_requestMicrophonePermission_resume x r s :
  grows P x (w s) → grows P x (w (requestMicrophonePermission_resume r s)).
Proof. intros H. unfold requestMicrophonePermission_resume. grows_auto. Qed.

Lemma grows_permission_effect x s :
  grows P x (w s) → grows P x (w (permission_effect meetingId s)).
Proof.
  intros H. unfold permission_effect, requestMicrophonePermission. grows_auto.
Qed.

Lemma grows_main_effect x r s :
  grows P x (w s) → grows P x (w (main_effect meetingId token user r s)).
Proof.
  intros H. unfold main_effect.
  destruct user as [u|]; [| done].
  destruct (truthy meetingId && truthy token); [| done].
  destruct (io (w s)) as [so x1] eqn:E1.
  destruct (io x1) as [vs x2] eqn:E2.
  destruct (new_peer (user_id u) x2) as [pe x3] eqn:E3.
  destruct (setTimeout ConnectionTimeout 20000 x3) as [tm x4] eqn:E4.
  cbn [w on_w on_hk set_main].
  apply grows_suspend. grows_prim.
  replace x4 with (setTimeout ConnectionTimeout 20000 x3).2 by (by rewrite E4).
  apply grows_setTimeout.
  replace x3 with (new_peer (user_id u) x2).2 by (by rewrite E3).
  apply grows_new_peer.
  replace x2 with (io x1).2 by (by rewrite E2).
  apply grows_io.
  replace x1 with (io (w s)).2 by (by rewrite E1).
  by apply grows_io.
Qed.

Lemma grows_connectionTimeout_fired x c s :
  grows P x (w s) → grows P x (w (connectionTimeout_fired c s)).
Proof. intros H. unfold connectionTimeout_fired. grows_auto. Qed.

Lemma grows_getMeeting_resume x u r s :
  grows P x (w s) → grows P x (w (getMeeting_resume u r s)).
Proof. intros H. unfold getMeeting_resume. grows_auto. Qed.

Lemma grows_handleConnect x c s :
  hasJoined c = true ∨ (∀ e, P e) →
  grows P x (w s) → grows P x (w (handleConnect c s)).
Proof.
  intros Hj H. unfold handleConnect. destruct (hasJoined c); cbn; [done |].
  destruct Hj as [? | Hall]; [done |]. by apply grows_emit.
Qed.

Lemma grows_on_receive_message x c a t s :
  grows P x (w s) → grows P x (w (on_receive_message c a t s)).
Proof. intros H. unfold on_receive_message. grows_auto. Qed.

Lemma grows_on_meeting_ended x m s :
  grows P x (w s) → grows P x (w (on_meeting_ended m s)).
Proof. intros H. unfold on_meeting_ended. grows_auto. Qed.

Lemma grows_on_socket_error x m s :
  grows P x (w s) → grows P x (w (on_socket_error m s)).
Proof. intros H. unfold on_socket_error. grows_auto. Qed.

Lemma grows_on_peer_error x t m s :
  grows P x (w s) → grows P x (w (on_peer_error t m s)).
Proof. intros H. unfold on_peer_error. grows_auto. Qed.

Lemma grows_call_refused x pi s :
  grows P x (w s) → grows P x (w (call_refused pi s)).
Proof.
  intros H. unfold call_refused.
  destruct (peers (w s) !! pi), (main s); try done.
  destruct (_ && _); [by apply grows_on_peer_error | done].
Qed.

Lemma grows_initiateCall x pi p s :
  grows P x (w s) → grows P x (w (initiateCall user pi p s)).
Proof.
  intros H. unfold initiateCall. destruct (mediaStreamRef s); [| done].
  destruct (bool_decide _); [done |].
  destruct (call_throws (w s)); [by apply grows_call_refused |].
  grows_auto.
Qed.

Lemma grows_on_call_closed x c s :
  grows P x (w s) → grows P x (w (on_call_closed c s)).
Proof. intros H. unfold on_call_closed. grows_auto. Qed.

Lemma grows_on_incoming_call x cl c s :
  grows P x (w s) → grows P x (w (on_incoming_call cl c s)).
Proof. intros H. unfold on_incoming_call. grows_auto. Qed.

Lemma grows_on_peer_open x c s :
  grows P x (w s) → grows P x (w (on_peer_open c s)).
Proof. intros H. unfold on_peer_open. grows_auto. Qed.

Lemma grows_joinVoiceRoom_fired x c s :
  grows P x (w s) → grows P x (w (joinVoiceRoom_fired c s)).
Proof. intros H. unfold joinVoiceRoom_fired. grows_auto. Qed.

Lemma grows_peerReconnect_fired x c s :
  grows P x (w s) → grows P x (w (peerReconnect_fired c s)).
Proof. intros H. unfold peerReconnect_fired. grows_auto. Qed.

Lemma grows_callPeer_fired x c p s :
  grows P x (w s) → grows P x (w (callPeer_fired user c p s)).
Proof.
  intros H. unfold callPeer_fired.
  destruct (_ && _); [by apply grows_initiateCall | done].
Qed.

Lemma grows_callPeers_fired x c l s :
  grows P x (w s) → grows P x (w (callPeers_fired user c l s)).
Proof.
  revert s. induction l as [|p l IH]; intros s H; [done |].
  unfold callPeers_fired in *. cbn [foldl]. by apply IH, grows_callPeer_fired.
Qed.

Lemma grows_on_peer_disconnected x p s :
  grows P x (w s) → grows P x (w (on_peer_disconnected p s)).
Proof. intros H. unfold on_peer_disconnected. grows_auto. Qed.

Lemma grows_on_voice_error x m s :
  grows P x (w s) → grows P x (w (on_voice_error m s)).
Proof. intros H. unfold on_voice_error. grows_auto. Qed.

Lemma grows_main_cleanup x s :
  grows P x (w s) → grows P x (w (main_cleanup s)).
Proof. intros H. unfold main_cleanup. grows_auto. Qed.

Lemma grows_sendMessage x s :
  grows P x (w s) → grows P x (w (sendMessage meetingId user s)).
Proof. intros H. unfold sendMessage. grows_auto. Qed.

Lemma grows_toggleChat x s : grows P x (w s) → grows P x (w (toggleChat s)).
Proof. intros H. unfold toggleChat. grows_auto. Qed.

Lemma grows_hangup_rest x vs s :
  grows P x (w s) → grows P x (w (hangup_rest meetingId user vs s)).
Proof. intros H. unfold hangup_rest. grows_auto. Qed.

Lemma grows_hangup x s :
  grows P x (w s) → grows P x (w (hangup meetingId token user s)).
Proof.
  intros H. unfold hangup. destruct (_ && _); [grows_auto |].
  by apply grows_hangup_rest.
Qed.

Lemma grows_hangup_resume x so vs r s :
  grows P x (w s) → grows P x (w (hangup_resume meetingId user so vs r s)).
Proof.
  intros H. unfold hangup_resume. apply grows_hangup_rest. grows_auto.
Qed.

Lemma grows_ensureMedia x r run s :
  grows P x (w s) → grows P x (w (ensureMedia r run s)).
Proof. intros H. unfold ensureMedia. grows_auto. Qed.

Lemma grows_ensureMedia_catch x n s :
  grows P x (w s) → grows P x (w (ensureMedia_catch n s)).
Proof. intros H. unfold ensureMedia_catch. grows_auto. Qed.

Lemma grows_ensureMedia_acquired x run v r s :
  grows P x (w s) → grows P x (w (ensureMedia_acquired run v r s)).
Proof.
  intros H. unfold ensureMedia_acquired.
  destruct r; [grows_auto | by apply grows_ensureMedia_catch].
Qed.

Lemma grows_ensureMedia_replaced x run cur a r s :
  grows P x (w s) → grows P x (w (ensureMedia_replaced run cur a r s)).
Proof.
  intros H. unfold ensureMedia_replaced.
  destruct r; [grows_auto | by apply grows_ensureMedia_catch].
Qed.

Lemma grows_media_effect x r s :
  grows P x (w s) → grows P x (w (media_effect meetingId user r s)).
Proof.
  intros H. unfold media_effect.
  assert (grows P x (w (ensureMedia r (S (media_run s))
                          (set_media (S (media_run s)) true s))))
    by (by apply grows_ensureMedia).
  grows_auto.
Qed.

Lemma grows_cleanup x so vs pe s :
  grows P x (w s) → grows P x (w (cleanup so vs pe s)).
Proof.
  intros H. rewrite cleanup_world. apply grows_close_all_calls.
  destruct pe, vs, so, (mediaStreamRef s); cbn [if_any]; grows_auto.
Qed.

Lemma find_timer_elem_of i x t :
  find_timer i x = Some t → t ∈ timers x ∧ t_id t = i.
Proof.
  unfold find_timer. intros H.
  assert (Hin : t ∈ filter (λ t, t_id t = i) (timers x)).
  { destruct (filter _ _); [done |]. cbn in H. injection H as ->. by left. }
  by apply list_elem_of_filter in Hin as [? ?].
Qed.

Lemma grows_run_timer x c a s :
  grows P x (w s) → grows P x (w (run_timer user c a s)).
Proof.
  intros H. destruct a; cbn [run_timer].
  - by apply grows_connectionTimeout_fired.
  - grows_auto.
  - by apply grows_joinVoiceRoom_fired.
  - by apply grows_peerReconnect_fired.
  - by apply grows_callPeers_fired.
  - by apply grows_callPeer_fired.
Qed.

Lemma grows_fire x i s :
  timers_fresh (w s) →
  grows P x (w s) → grows P x (w (fire user i s)).
Proof.
  intros Hwf H. unfold fire.
  destruct (find_timer i (w s)) as [t|] eqn:Hf; [| done].
  destruct (main s) as [c|]; [| done].
  destruct (_ <=? _)%N; [| done].
  apply grows_run_timer. cbn [w on_w].
  apply find_timer_elem_of in Hf as [Hin <-].
  apply grows_timer_run; [done | by apply HP | | by apply Hwf].
  apply list_elem_of_fmap. eauto.
Qed.

Lemma grows_settle x i r s : grows P x (w s) → grows P x (w (settle i r s)).
Proof.
  intros H. unfold settle.
  destruct (find_pending i (w s)) as [[]|]; try done.
  - apply grows_requestMicrophonePermission_resume. grows_auto.
  - apply grows_ensureMedia_acquired. grows_auto.
  - apply grows_ensureMedia_replaced. grows_auto.
Qed.

Lemma grows_respond x i r s :
  grows P x (w s) → grows P x (w (respond meetingId user i r s)).
Proof.
  intros H. unfold respond.
  destruct (find_pending i (w s)) as [[]|]; try done.
  - apply grows_hangup_resume. grows_auto.
  - apply grows_getMeeting_resume. grows_auto.
Qed.

Lemma grows_on_chat x c i s :
  hasJoined c = true ∨ (∀ e, P e) ∨ i ≠ ChatConnect →
  grows P x (w s) → grows P x (w (on_chat c i s)).
Proof.
  intros Hj H. destruct i; cbn [on_chat]; try done.
  - destruct (mounted s); [| done].
    apply grows_handleConnect; [| done].
    destruct Hj as [? | [? | ?]]; [by left | by right | done].
  - by apply grows_on_receive_message.
  - by apply grows_on_meeting_ended.
  - by apply grows_on_socket_error.
Qed.

Lemma grows_on_voice x c i s :
  grows P x (w s) → grows P x (w (on_voice c i s)).
Proof.
  intros H. destruct i; cbn [on_voice]; try done.
  - unfold on_voice_joined. grows_auto.
  - unfold on_peer_joined. grows_auto.
  - by apply grows_on_peer_disconnected.
  - by apply grows_on_voice_error.
Qed.

Lemma grows_on_peer x c i s :
  grows P x (w s) → grows P x (w (on_peer c i s)).
Proof.
  intros H. destruct i; cbn [on_peer]; try done.
  - by apply grows_on_peer_open.
  - by apply grows_on_peer_error.
  - rewrite (surjective_pairing (incoming_call (newPeer c) from (w s))).
    apply grows_on_incoming_call. grows_auto.
Qed.

Lemma grows_unmount x s : grows P x (w s) → grows P x (w (unmount s)).
Proof.
  intros H. unfold unmount. destruct (mounted s); [| done].
  cbn [w set_mounted]. apply grows_cleanup.
  unfold media_cleanup. cbn [w set_media]. by apply grows_main_cleanup.
Qed.

Lemma grows_handle x i s :
  joined s ∨ (∀ e, P e) ∨ i ≠ ChatConnect →
  timers_fresh (w s) →
  grows P x (w s) → grows P x (w (handle meetingId token user i s)).
Proof.
  intros Hj Hwf H.
  assert (Hc : ∀ c, main s = Some c →
                    hasJoined c = true ∨ (∀ e, P e) ∨ i ≠ ChatConnect).
  { intros c Hc. destruct Hj as [(c' & Hc' & Hj) | ?]; [| by right].
    left. congruence. }
  destruct i; cbn [handle];
    try (destruct (main s) as [c|] eqn:Hm; [| done]);
    try (destruct (chat_open c s); [| done]);
    try (destruct (voice_open c s); [| done]);
    try (destruct (peer_alive c s); [| done]);
    try (by apply grows_on_chat; auto);
    try (by apply grows_on_voice);
    try (by apply grows_on_peer);
    try (destruct (mounted s); [| done]).
  - grows_auto.
  - by apply grows_fire.
  - by apply grows_settle.
  - by apply grows_respond.
  - grows_auto.
  - by apply grows_on_call_closed.
  - grows_auto.
  - by apply grows_sendMessage.
  - grows_auto.
  - grows_auto.
  - by apply grows_toggleChat.
  - by apply grows_hangup.
  - by apply grows_unmount.
Qed.

Lemma grows_rerender x old s :
  grows P x (w s) → grows P x (w (rerender meetingId user old s)).
Proof.
  intros H. unfold rerender. destruct (mounted s); [| done].
  cbn zeta.
  destruct (media_deps_changed old (hk s)), (cleanup_deps_changed old (hk s));
    repeat first [ assumption | apply grows_media_effect | apply grows_cleanup
                 | progress (unfold media_cleanup; cbn [w set_media]) ].
Qed.

Lemma grows_step s i :
  joined s ∨ (∀ e, P e) ∨ i ≠ ChatConnect →
  timers_fresh (w s) →
  grows P (w s) (w (step meetingId token user s i)).
Proof.
  intros Hj Hwf. unfold step. apply grows_rerender, grows_handle; [done.. |].
  apply grows_refl.
Qed.
End GrowsHandlers.

(** ** The variables of the main effect

    Only [handleConnect] writes one of them, [hasJoined], and only from
    false to true. *)

Section MainKept.

Variables meetingId token : option jsstring.
Variable user : option User.

Ltac main_auto :=
  repeat first
    [ reflexivity
    | assumption
    | progress cbn zeta
    | progress cbn [main on_w on_hk set_mediaStreamRef set_peerCallsRef
                      set_mounted set_media]
    | match goal with
      | |- context [match ?e with (_, _) => _ end] =>
          rewrite (surjective_pairing e)
      | |- context [match ?b with _ => _ end] => destruct b eqn:?
      | |- context [if ?b then _ else _] => destruct b eqn:?
      end ].

Lemma main_call_refused pi s : main (call_refused pi s) = main s.
Proof.
  unfold call_refused. destruct (peers (w s) !! pi); [| done].
  destruct (main s) eqn:Hm; [| done].
  destruct (_ && _); [| done]. unfold on_peer_error. main_auto.
Qed.

Lemma main_initiateCall pi p s : main (initiateCall user pi p s) = main s.
Proof.
  unfold initiateCall. destruct (mediaStreamRef s); [| done].
  destruct (bool_decide _); [done |].
  destruct (call_throws (w s)); [apply main_call_refused |]. main_auto.
Qed.

Lemma main_callPeer_fired c p s : main (callPeer_fired user c p s) = main s.
Proof.
  unfold callPeer_fired. destruct (_ && _); [apply main_initiateCall | done].
Qed.

Lemma main_callPeers_fired c l s : main (callPeers_fired user c l s) = main s.
Proof.
  revert s. induction l as [|p l IH]; intros s; [done |].
  unfold callPeers_fired in *. cbn [foldl]. by rewrite IH, main_callPeer_fired.
Qed.

Lemma main_run_timer c a s : main (run_timer user c a s) = main s.
Proof.
  destruct a; cbn [run_timer];
    [ unfold connectionTimeout_fired | | unfold joinVoiceRoom_fired
    | unfold peerReconnect_fired | apply main_callPeers_fired
    | apply main_callPeer_fired ]; main_auto.
Qed.

Lemma main_fire i s : main (fire user i s) = main s.
Proof.
  unfold fire. destruct (find_timer i (w s)); [| done].
  destruct (main s) eqn:Hm; [| done].
  destruct (_ <=? _)%N; [| done]. by rewrite main_run_timer.
Qed.

Lemma main_ensureMedia r run s : main (ensureMedia r run s) = main s.
Proof. unfold ensureMedia. main_auto. Qed.

Lemma main_settle i r s : main (settle i r s) = main s.
Proof.
  unfold settle, requestMicrophonePermission_resume, ensureMedia_acquired,
    ensureMedia_replaced, ensureMedia_catch. main_auto.
Qed.

Lemma main_respond i r s : main (respond meetingId user i r s) = main s.
Proof.
  unfold respond, hangup_resume, hangup_rest, getMeeting_resume. main_auto.
Qed.

Lemma main_cleanup_kept so vs pe s : main (cleanup so vs pe s) = main s.
Proof. unfold cleanup. main_auto. Qed.

Lemma main_media_effect r s : main (media_effect meetingId user r s) = main s.
Proof.
  unfold media_effect.
  assert (main (ensureMedia r (S (media_run s))
                  (set_media (S (media_run s)) true s)) = main s)
    by (by rewrite main_ensureMedia).
  main_auto.
Qed.

Lemma main_rerender old s : main (rerender meetingId user old s) = main s.
Proof.
  unfold rerender. destruct (mounted s); [| done]. cbn zeta.
  destruct (media_deps_changed old (hk s)), (cleanup_deps_changed old (hk s));
    rewrite ?main_media_effect, ?main_cleanup_kept; done.
Qed.

Lemma main_unmount s : main (unmount s) = main s.
Proof.
  unfold unmount. destruct (mounted s); [| done].
  cbn [main set_mounted]. rewrite main_cleanup_kept.
  unfold media_cleanup, main_cleanup. main_auto.
Qed.

Lemma main_handle i s :
  main (handle meetingId token user i s) = main s
  ∨ i = ChatConnect
    ∧ ∃ c, main s = Some c ∧ hasJoined c = false
           ∧ main (handle meetingId token user i s)
             = Some (set_hasJoined true c).
Proof.
  destruct i; cbn [handle];
    try (left; first [apply main_fire | apply main_settle | apply main_respond
                     | apply main_unmount]);
    try (destruct (main s) as [c|] eqn:Hm; [| by left]);
    try (destruct (chat_open c s); [| by left]);
    try (destruct (voice_open c s); [| by left]);
    try (destruct (peer_alive c s); [| by left]);
    cbn [on_chat on_voice on_peer].
  all: try (left; rewrite <- ?Hm;
            unfold on_receive_message, on_participants_list, on_meeting_ended,
              on_user_joined, on_user_left, on_socket_error, on_voice_joined,
              on_peer_joined, on_peer_disconnected, on_voice_error,
              on_peer_open, on_peer_error, on_incoming_call, on_call_closed,
              sendMessage, toggleChat, hangup, hangup_rest;
            by main_auto).
  destruct (mounted s); [| by left]. unfold handleConnect.
  destruct (hasJoined c) eqn:Hj; [by left |]. right. eauto.
Qed.

Lemma main_step_other s i :
  i ≠ ChatConnect → main (step meetingId token user s i) = main s.
Proof.
  intros Hi. unfold step. rewrite main_rerender.
  by destruct (main_handle i s) as [? | [? _]].
Qed.

Lemma main_step s i :
  main (step meetingId token user s i) = main s
  ∨ ∃ c, main s = Some c ∧ hasJoined c = false
         ∧ main (step meetingId token user s i) = Some (set_hasJoined true c).
Proof.
  unfold step. rewrite main_rerender.
  destruct (main_handle i s) as [? | [_ ?]]; auto.
Qed.

Lemma joined_step s i : joined s → joined (step meetingId token user s i).
Proof.
  intros (c & Hc & Hj).
  destruct (main_step s i) as [Hm | (c' & Hc' & Hj' & Hm)].
  - exists c. by rewrite Hm.
  - congruence.
Qed.

End MainKept.

(** ** Runs of the component *)

Lemma world_fresh_checked x : world_fresh_check x = true → world_fresh x.
Proof.
  unfold world_fresh_check. intros H. apply andb_true_iff in H as [Ht Hr].
  rewrite forallb_forall in Ht, Hr. split.
  - intros t Hin. apply list_elem_of_In, Ht, Nat.ltb_lt in Hin. done.
  - intros k Hin. apply list_elem_of_In, Hr, Nat.ltb_lt in Hin. done.
Qed.

Lemma timers_fresh_grows P x x' :
  timers_fresh x → grows P x x' → timers_fresh x'.
Proof.
  intros Hwf (Hn & Ht & _) t Hin.
  destruct (Ht t Hin) as [Hx | Hx]; [| lia]. specialize (Hwf t Hx). lia.
Qed.

Lemma world_fresh_grows P x x' : world_fresh x → grows P x x' → world_fresh x'.
Proof.
  intros [Hwf Hruns] Hg. split; [by eapply timers_fresh_grows |].
  destruct Hg as (Hn & Ht & tr & Htr & _ & Hr & _).
  intros k Hin. rewrite Htr in Hin. apply elem_of_app in Hin as [Hin | Hin].
  - specialize (Hruns k Hin). lia.
  - by destruct (Hr k Hin) as (_ & ? & _).
Qed.

(** A timer that is not pending, with an id already given out, never runs
    again, whatever the later world. *)
Lemma grows_never_again P x x' k :
  k < next x → (k ∉ t_id <$> timers x) → grows P x x' →
  timer_runs k (trace x') = timer_runs k (trace x)
  ∧ k < next x' ∧ k ∉ t_id <$> timers x'.
Proof.
  intros Hlt Hout (Hn & Ht & tr & Htr & _ & Hr & _).
  assert (Hnot : TimerRun k ∉ tr).
  { intros Hin. destruct (Hr k Hin) as ([Hx | Hx] & _); [done | lia]. }
  split; [| split; [lia |]].
  - rewrite Htr, timer_runs_app, (timer_runs_none k tr) by done. lia.
  - intros Hin. apply list_elem_of_fmap in Hin as (t & -> & Hin).
    destruct (Ht t Hin) as [Hx | Hx]; [| lia].
    apply Hout, list_elem_of_fmap. eauto.
Qed.

Lemma joins_app tr1 tr2 : joins (tr1 ++ tr2) = joins tr1 + joins tr2.
Proof. unfold joins. by rewrite filter_app, length_app. Qed.

Lemma joins_none tr : Forall (λ e, is_join e = false) tr → joins tr = 0.
Proof.
  intros H. unfold joins. rewrite filter_none; [done |].
  intros e He Hj. rewrite Forall_forall in H. specialize (H e He). congruence.
Qed.

Lemma joins_join so m u n : joins [ChatEmit so (JoinMeeting m u n)] = 1.
Proof. reflexivity. Qed.

Section Runs.

Variables meetingId token : option jsstring.
Variable user : option User.

Local Abbreviation step' := (step meetingId token user).
Local Abbreviation run' := (run meetingId token user).

Lemma grows_run P s l :
  (∀ e, is_join e = false → P e) →
  joined s ∨ (∀ e, P e) →
  timers_fresh (w s) →
  grows P (w s) (w (run' s l)).
Proof.
  intros HP. revert s. induction l as [|i l IH]; intros s Hj Hwf.
  - apply grows_refl.
  - cbn [run foldl].
    assert (Hs : grows P (w s) (w (step' s i))).
    { apply grows_step; [done | | done].
      destruct Hj as [? | ?]; [by left | right; by left]. }
    eapply grows_trans; [exact Hs |]. apply IH.
    + destruct Hj as [Hj | Hj]; [left; by apply joined_step | by right].
    + by eapply timers_fresh_grows.
Qed.

(** Inputs other than a chat ['connect'] neither emit ['join-meeting'] nor
    write the variables of the main effect. *)
Lemma grows_run_no_connect P s l :
  (∀ e, is_join e = false → P e) →
  ChatConnect ∉ l →
  timers_fresh (w s) →
  grows P (w s) (w (run' s l)) ∧ main (run' s l) = main s.
Proof.
  intros HP. revert s. induction l as [|i l IH]; intros s Hl Hwf.
  - split; [apply grows_refl | done].
  - cbn [run foldl]. apply not_elem_of_cons in Hl as [Hi Hl].
    assert (Hs : grows P (w s) (w (step' s i))).
    { apply grows_step; [done | | done]. right. by right. }
    destruct (IH (step' s i)) as [Hg Hm];
      [done | by eapply timers_fresh_grows |].
    split; [by eapply grows_trans |].
    transitivity (main (step' s i)); [exact Hm | by apply main_step_other].
Qed.

Lemma joined_run s l : joined s → joined (run' s l).
Proof.
  revert s. induction l as [|i l IH]; intros s Hj; [done |].
  cbn [run foldl]. by apply IH, joined_step.
Qed.

(** Once [hasJoined] is set no input makes the component emit
    ['join-meeting'] again. *)
Lemma joined_no_more_joins s l :
  joined s → timers_fresh (w s) →
  joins (trace (w (run' s l))) = joins (trace (w s)).
Proof.
  intros Hj Hwf.
  destruct (grows_run (λ e, is_join e = false) s l) as (_ & _ & tr & Htr & HP & _);
    [done | by left | done |].
  rewrite Htr, joins_app, (joins_none tr) by done. lia.
Qed.

(** Hooks that keep the dependencies of the effects cause no effect to run
    again. *)
Lemma rerender_same_deps old s :
  media_deps_changed old (hk s) = false →
  cleanup_deps_changed old (hk s) = false →
  rerender meetingId user old s = s.
Proof.
  intros H1 H2. unfold rerender. rewrite H1, H2. by destruct (mounted s).
Qed.

Lemma deps_unchanged_refl h :
  media_deps_changed h h = false ∧ cleanup_deps_changed h h = false.
Proof.
  unfold media_deps_changed, cleanup_deps_changed.
  by rewrite !bool_decide_eq_true_2.
Qed.

(** C7, as the code has it. From a main effect that has not joined yet:
    inputs other than a chat ['connect'] emit no ['join-meeting']; the first
    ['connect'] that reaches [handleConnect] emits exactly one and sets
    [hasJoined]; and whatever comes afterwards, further ['connect'] events of
    reconnections included, the flag stays set and no other ['join-meeting']
    is emitted. *)
Theorem join_emitted_once (s : state) (c : closure)
  (before after : list input) :
  main s = Some c →
  hasJoined c = false →
  timers_fresh (w s) →
  ChatConnect ∉ before →
  let s0 := run' s before in
  mounted s0 = true →
  chat_open c s0 = true →
  let s1 := step' s0 ChatConnect in
  joins (trace (w s0)) = joins (trace (w s))
  ∧ trace (w s1)
    = trace (w s0)
      ++ [ChatEmit (newSocket c)
            (JoinMeeting (Some (c_meetingId c)) (user_id (c_user c))
               (user_name (c_user c)))]
  ∧ joins (trace (w s1)) = S (joins (trace (w s)))
  ∧ joined s1
  ∧ joins (trace (w (run' s1 after))) = S (joins (trace (w s)))
  ∧ joined (run' s1 after).
Proof.
  intros Hc Hj Hwf Hbefore s0 Hm Hopen s1.
  destruct (grows_run_no_connect (λ e, is_join e = false) s before)
    as [Hg Hmain]; [done.. |].
  fold s0 in Hg, Hmain.
  assert (Hj0 : joins (trace (w s0)) = joins (trace (w s))).
  { destruct Hg as (_ & _ & tr & Htr & HP & _).
    rewrite Htr, joins_app, (joins_none tr) by done. lia. }
  assert (Hs1 : s1 = handleConnect c s0).
  { subst s1. unfold step. cbn [handle]. rewrite Hmain, Hc, Hopen.
    cbn [on_chat]. rewrite Hm. apply rerender_same_deps;
      unfold handleConnect; rewrite Hj; apply deps_unchanged_refl. }
  assert (Htr1 : trace (w s1)
    = trace (w s0)
      ++ [ChatEmit (newSocket c)
            (JoinMeeting (Some (c_meetingId c)) (user_id (c_user c))
               (user_name (c_user c)))]).
  { rewrite Hs1. unfold handleConnect. by rewrite Hj. }
  assert (Hjoined : joined s1).
  { rewrite Hs1. unfold handleConnect. rewrite Hj. by eexists. }
  assert (Hwf1 : timers_fresh (w s1)).
  { apply (timers_fresh_grows (λ _, True) (w s)); [done |].
    apply (grows_trans _ _ (w s0)).
    - by apply grows_run_no_connect.
    - apply grows_step; [done | right; by left |].
      by eapply timers_fresh_grows. }
  assert (Hj1 : joins (trace (w s1)) = S (joins (trace (w s)))).
  { rewrite Htr1, joins_app, Hj0, joins_join. lia. }
  split; [done |]. split; [done |]. split; [done |]. split; [done |].
  split; [| by apply joined_run].
  by rewrite joined_no_more_joins.
Qed.

End Runs.

(** C7 as stated fails: the flag is not reset by a reconnection. Ana's chat
    socket connects, drops ([ChatOther] is the ['disconnect'] it reports,
    for which there is no handler) and connects again: one ['join-meeting']
    in all, and [hasJoined] still set. *)
Lemma join_after_reconnect_counterexample :
  let s1 := meeting_run in_meeting [ChatConnect] in
  let s2 := meeting_run in_meeting [ChatConnect; ChatOther; ChatConnect] in
  joins (trace (w s1)) = 1
  ∧ joins (trace (w s2)) = 1
  ∧ hasJoined <$> main s2 = Some true.
Proof. by vm_compute. Qed.

(** ** Timers *)

Lemma find_timer_fresh x a d :
  timers_fresh x →
  find_timer (next x) (setTimeout a d x).2
  = Some {| t_id := next x; t_due := (now x + d)%N; t_action := a |}.
Proof.
  intros Hwf. unfold find_timer. cbn. rewrite filter_app, filter_none.
  - by rewrite filter_cons, decide_True.
  - intros t Hin Heq. specialize (Hwf t Hin). lia.
Qed.

Lemma not_pending_cleared i x : i ∉ t_id <$> timers (clearTimeout i x).
Proof.
  intros Hin. apply list_elem_of_fmap in Hin as (t & -> & Hin).
  by apply list_elem_of_filter in Hin as [Hne _].
Qed.

Lemma deps_unchanged h h' :
  cameraOn h' = cameraOn h → micOn h' = micOn h → socket h' = socket h →
  voiceSocket h' = voiceSocket h → peer h' = peer h →
  media_deps_changed h h' = false ∧ cleanup_deps_changed h h' = false.
Proof.
  intros H1 H2 H3 H4 H5. unfold media_deps_changed, cleanup_deps_changed.
  by rewrite !bool_decide_eq_true_2.
Qed.

Section Timers.

Variables meetingId token : option jsstring.
Variable user : option User.

Local Abbreviation step' := (step meetingId token user).
Local Abbreviation run' := (run meetingId token user).

(** The main effect sets the connection timer 20 seconds ahead. *)
Lemma mount_sets_connection_timeout (u : User) (t0 : N) :
  user = Some u → truthy meetingId = true → truthy token = true →
  ∃ c, main (mount meetingId token user (empty_world t0)) = Some c
       ∧ newPeer c = 3 ∧ connectionTimeout c = 4
       ∧ timers (w (mount meetingId token user (empty_world t0)))
         = [{| t_id := 4; t_due := (t0 + 20000)%N;
               t_action := ConnectionTimeout |}]
       ∧ peerStatus (hk (mount meetingId token user (empty_world t0)))
         = StatusConnecting.
Proof.
  intros -> Hm Ht.
  destruct meetingId as [[|a m]|]; try discriminate.
  destruct token as [[|b k]|]; try discriminate.
  eexists. split; [reflexivity |]. by vm_compute.
Qed.

(** C4, as the code has it. The connection timer is due 20 seconds after
    the mount. When it runs while the peer is not disconnected, its callback
    sets the status to error and in the same callback, at the same instant
    and without setting any timer, creates a peer whose identity is the user
    id followed by ["_"] and the time, and stores it in the [peer] hook.
    When the peer's ['open'] arrives first, the timer is cleared and its
    callback never runs, whatever happens afterwards. *)
Theorem connection_timeout (u : User) (t0 : N) (s s' : state) (c c' : closure)
  (t t' : timer) (p p' : peer_obj) (l : list input) :
  user = Some u → truthy meetingId = true → truthy token = true →
  main s = Some c →
  find_timer (connectionTimeout c) (w s) = Some t →
  t_action t = ConnectionTimeout →
  (t_due t <= now (w s))%N →
  peers (w s) !! newPeer c = Some p →
  disconnected p = false →
  main s' = Some c' →
  find_timer (connectionTimeout c') (w s') = Some t' →
  peers (w s') !! newPeer c' = Some p' →
  destroyed p' = false →
  world_fresh (w s') →
  let m := mount meetingId token user (empty_world t0) in
  let s1 := fire user (connectionTimeout c) s in
  let s2 := step' s' PeerOpen in
  (∃ cm, main m = Some cm
     ∧ find_timer (connectionTimeout cm) (w m)
       = Some {| t_id := connectionTimeout cm; t_due := (t0 + 20000)%N;
                 t_action := ConnectionTimeout |})
  ∧ peerStatus (hk s1) = StatusError
  ∧ peer (hk s1) = Some (next (w s))
  ∧ peers (w s1) !! next (w s)
    = Some {| peer_identity
                := user_id (c_user c) ++ lit "_" ++ decimal (now (w s));
              disconnected := false; destroyed := false |}
  ∧ now (w s1) = now (w s)
  ∧ timers (w s1)
    = filter (λ x, t_id x ≠ connectionTimeout c) (timers (w s))
  ∧ trace (w s1) = trace (w s) ++ [TimerRun (connectionTimeout c)]
  ∧ find_timer (connectionTimeout c') (w s2) = None
  ∧ peerStatus (hk s2) = StatusConnected
  ∧ timer_runs (connectionTimeout c') (trace (w (run' s2 l)))
    = timer_runs (connectionTimeout c') (trace (w s')).
Proof.
  intros Hu Hmt Htk Hc Hf Ha Hdue Hp Hd Hc' Hf' Hp' Hd' [Hwf Hruns] m s1 s2.
  split.
  { destruct (mount_sets_connection_timeout u t0 Hu Hmt Htk)
      as (cm & Hcm & _ & Hk & Htm & _).
    exists cm. split; [done |]. unfold find_timer. fold m in Htm.
    rewrite Htm, Hk. by rewrite filter_cons, decide_True. }
  assert (Hs1 : s1 = connectionTimeout_fired c
            (on_w (λ x, emit (TimerRun (connectionTimeout c))
                          (clearTimeout (connectionTimeout c) x)) s)).
  { subst s1. unfold fire. rewrite Hf, Hc.
    apply N.leb_le in Hdue. rewrite Hdue. by rewrite Ha. }
  assert (Hs1' : s1 = on_hk (λ h, set_peer (Some (next (w s)))
                                    (set_peerStatus StatusError h))
            (on_w (λ x, (new_peer (user_id (c_user c) ++ lit "_"
                                     ++ decimal (now x))
                           (emit (TimerRun (connectionTimeout c))
                              (clearTimeout (connectionTimeout c) x))).2) s)).
  { rewrite Hs1. unfold connectionTimeout_fired. cbn [w on_w].
    change (peers (emit _ (clearTimeout _ (w s)))) with (peers (w s)).
    by rewrite Hp, Hd. }
  split; [by rewrite Hs1' |]. split; [by rewrite Hs1' |].
  split; [rewrite Hs1'; cbn; by rewrite lookup_insert_eq |].
  split; [by rewrite Hs1' |]. split; [by rewrite Hs1' |].
  split; [by rewrite Hs1' |].
  assert (Hs2 : s2 = on_peer_open c' s').
  { subst s2. unfold step. cbn [handle]. rewrite Hc'.
    unfold peer_alive. rewrite Hp', Hd'. cbn [negb on_peer].
    apply rerender_same_deps; by apply deps_unchanged. }
  assert (Hk : connectionTimeout c' < next (w s')).
  { apply find_timer_elem_of in Hf' as [Hin <-]. by apply Hwf. }
  assert (Hout : connectionTimeout c' ∉ t_id <$> timers (w s2)).
  { rewrite Hs2. cbn. rewrite fmap_app. intros Hin.
    apply elem_of_app in Hin as [Hin | Hin].
    - by apply (not_pending_cleared (connectionTimeout c') (w s')).
    - apply list_elem_of_singleton in Hin. cbn in Hin. lia. }
  split.
  { unfold find_timer. destruct (filter _ _) as [|x xs] eqn:Hx; [done |].
    exfalso. apply Hout.
    assert (Hin : x ∈ filter (λ t, t_id t = connectionTimeout c') (timers (w s2)))
      by (rewrite Hx; left).
    apply list_elem_of_filter in Hin as [<- Hin].
    apply list_elem_of_fmap. eauto. }
  split; [by rewrite Hs2 |].
  destruct (grows_never_again (λ _, True) (w s2) (w (run' s2 l))
              (connectionTimeout c')) as (Hsame & _).
  - rewrite Hs2. cbn. lia.
  - done.
  - apply grows_run; [done | by right |].
    rewrite Hs2. intros x Hin. cbn in Hin.
    apply elem_of_app in Hin as [Hin | Hin].
    + apply list_elem_of_filter in Hin as [_ Hin]. specialize (Hwf x Hin).
      cbn. lia.
    + apply list_elem_of_singleton in Hin. subst x. cbn. lia.
  - rewrite Hsame. by rewrite Hs2.
Qed.

End Timers.

(** C4 as stated fails: after the timeout the new peer is not created
    10 seconds later. Ana's timer runs at 20000 ms; at that same instant the
    status is error, the peer ["u1_20000"] exists and is the one of the
    [peer] hook, and no timer is pending. *)
Lemma connection_timeout_counterexample :
  let s := meeting_run in_meeting [Tick 20000; Fire 4] in
  timers (w in_meeting)
  = [{| t_id := 4; t_due := 20000; t_action := ConnectionTimeout |}]
  ∧ now (w s) = 20000%N
  ∧ peerStatus (hk s) = StatusError
  ∧ peer (hk s) = Some 8
  ∧ peers (w s) !! 8
    = Some {| peer_identity := lit "u1_20000"; disconnected := false;
              destroyed := false |}
  ∧ timers (w s) = [].
Proof. by vm_compute. Qed.

Section MeetingEnded.

Variables meetingId token : option jsstring.
Variable user : option User.

Local Abbreviation step' := (step meetingId token user).
Local Abbreviation run' := (run meetingId token user).

(** C5. A ['meeting-ended'] event with message [r] that reaches its handler
    sets [meetingEnded], shows exactly [r] in an alert, and sets one timer,
    due 3000 ms later, whose callback navigates to ['/realtime']: the
    callback does not run before the 3000 ms are over, it runs when its turn
    comes after them, and in no run of the component does it run twice. *)
Theorem meeting_ended_navigates_once (s : state) (c : closure) (r : jsstring)
  (early late : N) (l : list input) :
  main s = Some c →
  chat_open c s = true →
  world_fresh (w s) →
  (early < 3000)%N →
  (3000 <= late)%N →
  let k := next (w s) in
  let s1 := step' s (MeetingEnded r) in
  let s_early := run' s1 [Tick early; Fire k] in
  let s_late := run' s1 [Tick late; Fire k] in
  meetingEnded (hk s1) = true
  ∧ trace (w s1) = trace (w s) ++ [Alert (AlertMsg r)]
  ∧ timers (w s1)
    = timers (w s) ++ [{| t_id := k; t_due := (now (w s) + 3000)%N;
                          t_action := NavigateRealtime |}]
  ∧ trace (w s_early) = trace (w s1)
  ∧ trace (w s_late) = trace (w s1) ++ [TimerRun k; Navigate (lit "/realtime")]
  ∧ timer_runs k (trace (w s1)) = 0
  ∧ timer_runs k (trace (w (run' s1 l))) ≤ 1
  ∧ timer_runs k (trace (w (run' s_late l))) = 1.
Proof.
  intros Hc Hopen [Hwf Hruns] Hearly Hlate k s1 s_early s_late.
  assert (Hs1 : s1 = on_meeting_ended r s).
  { subst s1. unfold step. cbn [handle]. rewrite Hc, Hopen. cbn [on_chat].
    apply rerender_same_deps; by apply deps_unchanged. }
  assert (Hfind : ∀ dt, find_timer k (set_now (now (w s1) + dt)%N (w s1))
            = Some {| t_id := k; t_due := (now (w s) + 3000)%N;
                      t_action := NavigateRealtime |}).
  { intros dt. rewrite Hs1. unfold on_meeting_ended. cbn [w on_w on_hk].
    pose proof (find_timer_fresh (emit (Alert (AlertMsg r)) (w s))
                  NavigateRealtime 3000 Hwf) as Hfd.
    exact Hfd. }
  assert (Htick : ∀ dt, step' s1 (Tick dt)
            = on_w (λ x, set_now (now x + dt)%N x) s1).
  { intros dt. unfold step. cbn [handle].
    apply rerender_same_deps; by apply deps_unchanged. }
  assert (Hmain1 : main s1 = Some c) by (by rewrite Hs1).
  assert (Hnow1 : now (w s1) = now (w s)) by (by rewrite Hs1).
  assert (Hwf1 : timers_fresh (w s1)).
  { apply (timers_fresh_grows (λ _, True) (w s)); [done |].
    apply grows_step; [by intros | right; by left | done]. }
  assert (Hzero : timer_runs k (trace (w s1)) = 0).
  { apply timer_runs_none. rewrite Hs1. cbn. intros Hin.
    apply elem_of_app in Hin as [Hin | Hin].
    - specialize (Hruns k Hin). subst k. lia.
    - by apply list_elem_of_singleton in Hin. }
  assert (Hlate_s : s_late
    = rerender meetingId user (hk s1)
        (on_w (emit (Navigate (lit "/realtime")))
           (on_w (λ x, emit (TimerRun k) (clearTimeout k x))
              (on_w (λ x, set_now (now x + late)%N x) s1)))).
  { subst s_late. cbn [run foldl]. rewrite Htick. unfold step at 1.
    cbn [handle]. unfold fire. cbn [w on_w main]. rewrite Hfind, Hmain1.
    cbn [t_due t_action now set_now run_timer].
    rewrite (proj2 (N.leb_le _ _)) by lia. done. }
  assert (Hlate_s' : s_late
    = on_w (emit (Navigate (lit "/realtime")))
        (on_w (λ x, emit (TimerRun k) (clearTimeout k x))
           (on_w (λ x, set_now (now x + late)%N x) s1))).
  { rewrite Hlate_s. apply rerender_same_deps; by apply deps_unchanged. }
  split; [by rewrite Hs1 |]. split; [by rewrite Hs1 |].
  split; [by rewrite Hs1 |]. split.
  { subst s_early. cbn [run foldl]. rewrite Htick. unfold step.
    cbn [handle]. unfold fire. cbn [w on_w main]. rewrite Hfind, Hmain1.
    cbn [t_due now set_now].
    rewrite (proj2 (N.leb_gt _ _)) by lia.
    by rewrite rerender_same_deps by (by apply deps_unchanged). }
  split; [rewrite Hlate_s'; cbn; by rewrite <- app_assoc |].
  split; [done |]. split.
  - destruct (grows_run meetingId token user (λ _, True) s1 l) as (_ & _ & tr & Htr & _ & _ & Hone);
      [by intros | by right | done |].
    rewrite Htr, timer_runs_app, Hzero. apply Hone.
  - destruct (grows_never_again (λ _, True) (w s_late) (w (run' s_late l)) k)
      as (Hsame & _).
    + rewrite Hlate_s', Hs1. cbn. lia.
    + rewrite Hlate_s'. apply not_pending_cleared.
    + apply grows_run; [by intros | by right |].
      rewrite Hlate_s'. intros x Hin. cbn in Hin.
      apply list_elem_of_filter in Hin as [_ Hin]. by apply Hwf1.
    + rewrite Hsame, Hlate_s'. cbn [w on_w emit trace set_trace clearTimeout
                                     set_timers set_now].
      rewrite !timer_runs_app, Hzero, timer_runs_one, timer_runs_other by done.
      lia.
Qed.

End MeetingEnded.

(** ** The theorems at work on Ana's session *)

Lemma roster_size_after_joins_witness :
  length (participants (hk (join_all [(lit "u2", lit "Bo"); (lit "u3", lit "Cy")]
                              (initial_state (Some ana) (empty_world 0)))))
  = 3.
Proof.
  refine (proj1 (roster_size_after_joins (Some ana)
                   [(lit "u2", lit "Bo"); (lit "u3", lit "Cy")]
                   (initial_state (Some ana) (empty_world 0))
                   (initial_state (Some ana) (empty_world 0))
                   (lit "u1") (lit "Ana") _ _ _ _ _)).
  - by vm_compute.
  - apply (bool_decide_unpack _). by vm_compute.
  - apply (bool_decide_unpack _). by vm_compute.
  - by vm_compute.
  - apply (bool_decide_unpack _). by vm_compute.
Defined.

Lemma hangup_non_owner_witness :
  participants (hk (hangup (Some (lit "m1")) (Some (lit "tok")) (Some ana)
                      in_meeting)) = [].
Proof.
  refine (proj1 (proj2 (proj2 (hangup_non_owner (Some (lit "m1"))
                                  (Some (lit "tok")) (Some ana) in_meeting _)))).
  by vm_compute.
Defined.

Lemma permission_then_ensureMedia_witness :
  mediaStreamRef (requestMicrophonePermission_resume Granted in_meeting)
  = Some [next (w in_meeting)].
Proof.
  refine (proj1 (permission_then_ensureMedia in_meeting (hk in_meeting) 3 _ _));
    by vm_compute.
Defined.



Lemma call_map_replaces_witness :
  peerCallsRef (initiateCall (Some ana) 3 (lit "u2") in_call) !! lit "u2"
  = Some (next (w in_call))
  ∧ calls (w (initiateCall (Some ana) 3 (lit "u2") in_call)) !! 10
    = calls (w in_call) !! 10.
Proof.
  assert (H1 : mediaStreamRef in_call = Some [8]) by (by vm_compute).
  assert (H2 : Some (lit "u2") ≠ user_id <$> Some ana) by discriminate.
  assert (H3 : lit "u2" ≠ []) by discriminate.
  assert (H4 : call_throws (w in_call) = false) by (by vm_compute).
  assert (H5 : c_micOn ana_closure = true) by (by vm_compute).
  assert (H6 : peerCallsRef in_call !! lit "u2" = Some 10) by (by vm_compute).
  assert (H7 : 10 < next (w in_call)) by (vm_compute; lia).
  pose proof (call_map_replaces (Some ana) in_call ana_closure 3 10
                (lit "u2") [8] H1 H2 H3 H4 H5 H6 H7)
    as (_ & _ & _ & _ & _ & Ha & _ & Hb & _).
  exact (conj Ha Hb).
Defined.

Lemma join_emitted_once_witness :
  joins (trace (w (meeting_run
                     (step (Some (lit "m1")) (Some (lit "tok")) (Some ana)
                        (meeting_run in_meeting [Tick 5]) ChatConnect)
                     [ChatOther; ChatConnect])))
  = S (joins (trace (w in_meeting))).
Proof.
  assert (H1 : main in_meeting = Some ana_closure) by (by vm_compute).
  assert (H2 : hasJoined ana_closure = false) by (by vm_compute).
  assert (H3 : timers_fresh (w in_meeting)).
  { apply world_fresh_checked. by vm_compute. }
  assert (H4 : ChatConnect ∉ [Tick 5]).
  { intros Hin. apply list_elem_of_singleton in Hin. discriminate. }
  assert (H5 : mounted (meeting_run in_meeting [Tick 5]) = true)
    by (by vm_compute).
  assert (H6 : chat_open ana_closure (meeting_run in_meeting [Tick 5]) = true)
    by (by vm_compute).
  pose proof (join_emitted_once (Some (lit "m1")) (Some (lit "tok")) (Some ana)
                in_meeting ana_closure [Tick 5] [ChatOther; ChatConnect]
                H1 H2 H3 H4 H5 H6) as (_ & _ & _ & _ & H & _).
  exact H.
Defined.

(** Facts about Ana's session, at the mount and 20 seconds later. *)
Lemma in_meeting_main : main in_meeting = Some ana_closure.
Proof. by vm_compute. Qed.

Lemma in_meeting_timer :
  find_timer 4 (w in_meeting)
  = Some {| t_id := 4; t_due := 20000; t_action := ConnectionTimeout |}.
Proof. by vm_compute. Qed.

Lemma in_meeting_peer :
  peers (w in_meeting) !! 3
  = Some {| peer_identity := lit "u1"; disconnected := false;
            destroyed := false |}.
Proof. by vm_compute. Qed.

Lemma in_meeting_fresh : world_fresh (w in_meeting).
Proof. apply world_fresh_checked. by vm_compute. Qed.

Lemma at_timeout_main :
  main (meeting_run in_meeting [Tick 20000]) = Some ana_closure.
Proof. by vm_compute. Qed.

Lemma at_timeout_timer :
  find_timer 4 (w (meeting_run in_meeting [Tick 20000]))
  = Some {| t_id := 4; t_due := 20000; t_action := ConnectionTimeout |}.
Proof. by vm_compute. Qed.

Lemma at_timeout_due :
  (20000 <= now (w (meeting_run in_meeting [Tick 20000])))%N.
Proof. by vm_compute. Qed.

Lemma at_timeout_peer :
  peers (w (meeting_run in_meeting [Tick 20000])) !! 3
  = Some {| peer_identity := lit "u1"; disconnected := false;
            destroyed := false |}.
Proof. by vm_compute. Qed.

Lemma connection_timeout_witness :
  peerStatus (hk (fire (Some ana) (connectionTimeout ana_closure)
                    (meeting_run in_meeting [Tick 20000])))
  = StatusError
  ∧ timer_runs (connectionTimeout ana_closure)
      (trace (w (meeting_run
                   (step (Some (lit "m1")) (Some (lit "tok")) (Some ana)
                      in_meeting PeerOpen)
                   [Tick 30000; Fire 4])))
    = timer_runs (connectionTimeout ana_closure) (trace (w in_meeting)).
Proof.
  pose proof (connection_timeout (Some (lit "m1")) (Some (lit "tok"))
                (Some ana) ana 0
                (meeting_run in_meeting [Tick 20000]) in_meeting
                ana_closure ana_closure
                {| t_id := 4; t_due := 20000; t_action := ConnectionTimeout |}
                {| t_id := 4; t_due := 20000; t_action := ConnectionTimeout |}
                {| peer_identity := lit "u1"; disconnected := false;
                   destroyed := false |}
                {| peer_identity := lit "u1"; disconnected := false;
                   destroyed := false |}
                [Tick 30000; Fire 4]
                eq_refl eq_refl eq_refl at_timeout_main at_timeout_timer
                eq_refl at_timeout_due at_timeout_peer eq_refl
                in_meeting_main in_meeting_timer in_meeting_peer eq_refl
                in_meeting_fresh)
    as (_ & Ha & _ & _ & _ & _ & _ & _ & _ & Hb).
  exact (conj Ha Hb).
Defined.

Lemma meeting_ended_navigates_once_witness :
  trace (w (meeting_run
              (step (Some (lit "m1")) (Some (lit "tok")) (Some ana) in_meeting
                 (MeetingEnded (lit "fin")))
              [Tick 3000; Fire (next (w in_meeting))]))
  = trace (w (step (Some (lit "m1")) (Some (lit "tok")) (Some ana) in_meeting
                (MeetingEnded (lit "fin"))))
    ++ [TimerRun (next (w in_meeting)); Navigate (lit "/realtime")].
Proof.
  assert (H1 : main in_meeting = Some ana_closure) by (by vm_compute).
  assert (H2 : chat_open ana_closure in_meeting = true) by (by vm_compute).
  assert (H3 : world_fresh (w in_meeting)).
  { apply world_fresh_checked. by vm_compute. }
  assert (H4 : (2999 < 3000)%N) by (by vm_compute).
  assert (H5 : (3000 <= 3000)%N) by (by vm_compute).
  pose proof (meeting_ended_navigates_once (Some (lit "m1"))
                (Some (lit "tok")) (Some ana) in_meeting ana_closure
                (lit "fin") 2999 3000 [Tick 5000; Fire 8] H1 H2 H3 H4 H5)
    as (_ & _ & _ & _ & H & _).
  exact H.
Defined.

(** * Further properties

    What else the code shows, handler by handler and over whole runs. *)

(** ** Roster updates *)

Lemma some_id_false_iff userId (l : list participant) :
  some_id userId l = false ↔ userId ∉ p_id <$> l.
Proof.
  rewrite <- some_id_elem_of. by destruct (some_id userId l).
Qed.

(** X1. The ['user-left'] handler removes every entry with the id from the
    roster, keeps the other entries and their order, never makes the roster
    longer, and touches nothing but the roster. *)
Theorem user_left_removes (userId : jsstring) (s : state) :
  let s' := on_user_left userId s in
  some_id userId (participants (hk s')) = false
  ∧ (∀ p, p ∈ participants (hk s')
          ↔ p ∈ participants (hk s) ∧ p_id p ≠ userId)
  ∧ participants (hk s') `sublist_of` participants (hk s)
  ∧ length (participants (hk s')) ≤ length (participants (hk s))
  ∧ w s' = w s
  ∧ messages (hk s') = messages (hk s)
  ∧ main s' = main s.
Proof.
  intros s'. subst s'. unfold on_user_left.
  cbn [hk on_hk participants set_participants]. unfold user_left.
  repeat match goal with |- _ ∧ _ => split end; try done.
  - apply some_id_false_iff. intros Hin.
    apply list_elem_of_fmap in Hin as (p & -> & Hin).
    by apply list_elem_of_filter in Hin as [Hne _].
  - intros p. rewrite list_elem_of_filter. tauto.
  - apply sublist_filter.
  - apply length_filter.
Qed.

(** X2. A participant who joins and leaves again leaves the component as it
    was, whether the ['user-joined'] handler took the join, the participant
    being in the roster in between, or dropped it at the cap of 10. *)
Theorem user_joined_then_left (userId name : jsstring) (s : state) :
  some_id userId (participants (hk s)) = false →
  let s1 := on_user_joined userId name s in
  on_user_left userId s1 = s
  ∧ (length (participants (hk s)) < 10 →
     some_id userId (participants (hk s1)) = true
     ∧ length (participants (hk s1)) = S (length (participants (hk s))))
  ∧ (10 ≤ length (participants (hk s)) → s1 = s).
Proof.
  intros Hnew s1. subst s1. unfold on_user_left, on_user_joined, on_hk.
  destruct s as [h ref map mn mt run mm x].
  cbn -[user_left user_joined] in *.
  rewrite user_joined_cases, Hnew.
  assert (Hkeep : user_left userId (participants h) = participants h).
  { unfold user_left. apply filter_all. intros p Hp Heq.
    apply some_id_false_iff in Hnew. apply Hnew, list_elem_of_fmap. eauto. }
  destruct (10 <=? length (participants h)) eqn:Hcap; cbn [orb].
  - apply Nat.leb_le in Hcap. rewrite Hkeep.
    split; [by destruct h |]. split; [lia |]. intros _. by destruct h.
  - apply Nat.leb_gt in Hcap. split; [| split; [| lia]].
    + assert (user_left userId
                (participants h
                 ++ [{| p_id := userId; p_name := name; p_isLocal := false |}])
              = participants h) as ->; [| by destruct h].
      rewrite <- Hkeep at 2. unfold user_left.
      rewrite filter_app, filter_cons, filter_nil.
      rewrite decide_False by (intros Hne; by apply Hne).
      by rewrite app_nil_r.
    + intros _. split.
      * apply some_id_elem_of. rewrite fmap_app. apply elem_of_app.
        right. cbn. by left.
      * rewrite length_app. cbn. lia.
Qed.

(** The mapping of ['participants-list']: one entry per element of the list,
    in order; the entries whose id is the user's are the local ones and are
    called ['Tú'], the others keep the name sent. *)
Lemma participants_list_spec (me : jsstring)
  (l : list (jsstring * jsstring)) :
  length (participants_list me l) = length l
  ∧ p_id <$> participants_list me l = l.*1
  ∧ (∀ i p, participants_list me l !! i = Some p →
       ∃ e, l !! i = Some e
            ∧ p_id p = e.1
            ∧ p_isLocal p = bool_decide (e.1 = me)
            ∧ p_name p = if bool_decide (e.1 = me) then Tu else e.2).
Proof.
  unfold participants_list. split; [| split].
  - apply length_map.
  - induction l as [|e l IH]; [done |]. cbn. by f_equal.
  - intros i p Hp.
    change (map ?f l) with (f <$> l) in Hp.
    apply list_lookup_fmap_Some in Hp as (e & -> & He).
    exists e. by rewrite He.
Qed.

(** X3. ['participants-list'] replaces the roster by the list it brings, entry
    for entry and whatever their number: the cap of 10 binds ['user-joined']
    only. A roster replaced by a list of ten entries or more keeps all of
    them, the user's own entries being the local ones, and takes no join
    afterwards. *)
Theorem participants_list_then_joined (c : closure)
  (l : list (jsstring * jsstring)) (userId name : jsstring) (s : state) :
  10 ≤ length l →
  let s1 := on_participants_list c l s in
  length (participants (hk s1)) = length l
  ∧ p_id <$> participants (hk s1) = l.*1
  ∧ (∀ p, p ∈ participants (hk s1) →
       p_isLocal p = bool_decide (p_id p = user_id (c_user c)))
  ∧ participants (hk (on_user_joined userId name s1)) = participants (hk s1).
Proof.
  intros Hlen s1. cbn.
  destruct (participants_list_spec (user_id (c_user c)) l)
    as (Hl & Hids & Hat).
  split; [done |]. split; [done |]. split.
  - intros p Hp. apply list_elem_of_lookup in Hp as [i Hi].
    destruct (Hat i p Hi) as (e & _ & Hid & Hloc & _). by rewrite Hid.
  - rewrite user_joined_cases.
    destruct (some_id userId _); [done |].
    rewrite (proj2 (Nat.leb_le _ _)); [done | lia].
Qed.

Lemma in_meeting_without_u2 :
  some_id (lit "u2") (participants (hk in_meeting)) = false.
Proof. by vm_compute. Qed.

Lemma user_joined_then_left_witness :
  on_user_left (lit "u2") (on_user_joined (lit "u2") (lit "Bo") in_meeting)
  = in_meeting.
Proof.
  exact (proj1 (user_joined_then_left (lit "u2") (lit "Bo") in_meeting
                  in_meeting_without_u2)).
Defined.

(** On Ana's session, through the events: ["u2"] joins and is in the roster,
    then leaves and the roster is Ana alone again. *)
Example user_joined_and_left_events :
  let s1 := meeting_run in_meeting [UserJoined (lit "u2") (lit "Bo")] in
  let s2 := meeting_run s1 [UserLeft (lit "u2")] in
  p_id <$> participants (hk in_meeting) = [lit "u1"]
  ∧ p_id <$> participants (hk s1) = [lit "u1"; lit "u2"]
  ∧ participants (hk s2) = participants (hk in_meeting).
Proof. by vm_compute. Qed.

Lemma participants_list_then_joined_witness :
  length (participants
            (hk (on_participants_list ana_closure
                   ((λ n, (decimal (N.of_nat n), lit "P")) <$> seq 0 12)
                   in_meeting)))
  = length ((λ n, (decimal (N.of_nat n), lit "P")) <$> seq 0 12).
Proof.
  refine (proj1 (participants_list_then_joined ana_closure
                   ((λ n, (decimal (N.of_nat n), lit "P")) <$> seq 0 12)
                   (lit "u2") (lit "Bo") in_meeting _)).
  vm_compute. lia.
Defined.

(** ** The text of a chat message *)

Lemma trimStart_split s : ∃ a, s = a ++ trimStart s ∧ blank a = true.
Proof.
  induction s as [|c s (a & Hs & Ha)]; [by exists [] |].
  cbn [trimStart]. destruct (is_white_space c) eqn:Hc.
  - exists (c :: a). split; [cbn; by f_equal |].
    cbn [blank forallb]. by rewrite Hc.
  - by exists [].
Qed.

Lemma trimStart_head s c :
  head (trimStart s) = Some c → is_white_space c = false.
Proof.
  induction s as [|d s IH]; [done |].
  cbn [trimStart]. destruct (is_white_space d) eqn:Hd; [done |].
  cbn. congruence.
Qed.

Lemma last_rev {A} (l : list A) : last (rev l) = head l.
Proof. destruct l as [|x l]; [done |]. cbn [rev]. by rewrite last_snoc. Qed.

Lemma trimEnd_split s : ∃ b, s = trimEnd s ++ b ∧ blank b = true.
Proof.
  destruct (trimStart_split (rev s)) as (a & Hs & Ha).
  exists (rev a). split; [| by rewrite blank_rev].
  unfold trimEnd. rewrite <- rev_app_distr, <- Hs. by rewrite rev_involutive.
Qed.

Lemma trimEnd_last s c : last (trimEnd s) = Some c → is_white_space c = false.
Proof. unfold trimEnd. rewrite last_rev. apply trimStart_head. Qed.

(** What [trim] returns: the string without a white prefix and a white
    suffix, with no white space left at either end. *)
Lemma trim_split s :
  ∃ a b, s = a ++ trim s ++ b ∧ blank a = true ∧ blank b = true
         ∧ (∀ c, head (trim s) = Some c → is_white_space c = false)
         ∧ (∀ c, last (trim s) = Some c → is_white_space c = false).
Proof.
  destruct (trimStart_split s) as (a & Hs & Ha).
  destruct (trimEnd_split (trimStart s)) as (b & Ht & Hb).
  exists a, b. fold (trim s) in Ht. split; [by rewrite <- Ht |].
  split; [done |]. split; [done |]. split; [| apply trimEnd_last].
  intros c Hc. apply (trimStart_head s). rewrite Ht.
  by destruct (trim s).
Qed.

(** X4. [sendMessage] either does nothing or takes its text from the input by
    cutting a white prefix and a white suffix off it: the text emitted and
    appended to the transcript is not empty and has no white space at either
    end, and the input field is emptied. *)
Theorem sendMessage_text (meetingId : option jsstring) (user : option User)
  (s : state) :
  let s' := sendMessage meetingId user s in
  s' = s
  ∨ ∃ a text b so,
      chatInput (hk s) = a ++ text ++ b
      ∧ blank a = true ∧ blank b = true ∧ text ≠ []
      ∧ (∀ c, head text = Some c → is_white_space c = false)
      ∧ (∀ c, last text = Some c → is_white_space c = false)
      ∧ messages (hk s') = append_message Tu text (messages (hk s))
      ∧ trace (w s')
        = trace (w s)
          ++ [ChatEmit so (SendMessage meetingId text
                             (or_else (user_name <$> user) Tu))]
      ∧ chatInput (hk s') = [].
Proof.
  intros s'. subst s'. unfold sendMessage.
  destruct (trim_split (chatInput (hk s))) as (a & b & Hs & Ha & Hb & Hh & Hl).
  destruct (trim (chatInput (hk s))) as [|c text] eqn:Ht; [by left |].
  destruct (socket (hk s)) as [so|]; [| by left].
  destruct (meetingEnded (hk s)); [by left |].
  right. exists a, (c :: text), b, so. by repeat split.
Qed.

(** What [sendMessage] does to the hooks when it sends. *)
Lemma sendMessage_hooks (meetingId : option jsstring) (user : option User)
  (s : state) :
  let s' := sendMessage meetingId user s in
  s' = s
  ∨ ∃ text, messages (hk s') = append_message Tu text (messages (hk s))
            ∧ meetingEnded (hk s') = meetingEnded (hk s)
            ∧ peerStatus (hk s') = peerStatus (hk s)
            ∧ chatInput (hk s') = [].
Proof.
  intros s'. subst s'. unfold sendMessage.
  destruct (trim (chatInput (hk s))) as [|c text]; [by left |].
  destruct (socket (hk s)) as [so|]; [| by left].
  destruct (meetingEnded (hk s)) eqn:He; [by left |].
  right. exists (c :: text). cbn. by rewrite He.
Qed.

(** X5. Sending twice in a row sends once: the first [sendMessage] empties the
    input, so the second one does nothing. *)
Theorem sendMessage_twice (meetingId : option jsstring) (user : option User)
  (s : state) :
  sendMessage meetingId user (sendMessage meetingId user s)
  = sendMessage meetingId user s.
Proof.
  destruct (sendMessage_hooks meetingId user s)
    as [Hsame | (text & _ & _ & _ & Hin)].
  - by rewrite Hsame.
  - unfold sendMessage at 1. by rewrite Hin.
Qed.

(** ** The creator hanging up *)

(** X6. A hangup by the creator of the meeting, with a meeting id and a token:
    the [PUT] that ends the meeting goes out first and nothing else happens
    until it settles. When it resolves, ['end-meeting'] is emitted if there is
    a chat socket; when it fails, it is not; either way the rest follows as
    for any participant: ['leave-voice-room'] when a user and a voice socket
    exist, the roster emptied, the chat panel closed and the navigation to
    ['/realtime']. *)
Theorem hangup_owner (meetingId token : option jsstring) (user : option User)
  (s : state) :
  isCreator (hk s) = true →
  truthy meetingId = true →
  truthy token = true →
  (∀ p, p ∈ pending (w s) → p.1 ≠ next (w s)) →
  let s1 := hangup meetingId token user s in
  trace (w s1) = trace (w s) ++ [Fetch (PutEndMeeting meetingId)]
  ∧ hk s1 = hk s
  ∧ ∀ r, let s2 := respond meetingId user (next (w s)) r s1 in
      trace (w s2)
      = trace (w s1)
        ++ match r, socket (hk s) with
           | Resolved _, Some h => [ChatEmit h (EndMeeting meetingId)]
           | _, _ => []
           end
        ++ match user, voiceSocket (hk s) with
           | Some u, Some v =>
               [VoiceEmit v (LeaveVoiceRoom meetingId (user_id u))]
           | _, _ => []
           end
        ++ [Navigate (lit "/realtime")]
      ∧ participants (hk s2) = []
      ∧ showChat (hk s2) = false
      ∧ pending (w s2) = pending (w s).
Proof.
  intros Hc Hm Ht Hfresh s1.
  assert (Hs1 : s1 = on_w (λ x, suspend (KHangup (socket (hk s))
                                           (voiceSocket (hk s)))
                                  (emit (Fetch (PutEndMeeting meetingId)) x)) s).
  { subst s1. unfold hangup. by rewrite Hc, Hm, Ht. }
  split; [by rewrite Hs1 |]. split; [by rewrite Hs1 |].
  intros r s2.
  destruct (find_pending_suspend
              (KHangup (socket (hk s)) (voiceSocket (hk s)))
              (emit (Fetch (PutEndMeeting meetingId)) (w s)) Hfresh)
    as [Hfind Hdrop].
  change (next (emit (Fetch (PutEndMeeting meetingId)) (w s)))
    with (next (w s)) in Hfind, Hdrop.
  subst s2. unfold respond. rewrite Hs1. cbn [w on_w]. rewrite Hfind.
  unfold hangup_resume, hangup_rest.
  destruct r as [cr|], (socket (hk s)) as [h|], user as [u|],
    (voiceSocket (hk s)) as [v|]; cbn; rewrite <- ?app_assoc;
    cbn in Hdrop; rewrite Hdrop; done.
Qed.

Lemma as_owner_creator : isCreator (hk as_owner) = true.
Proof. by vm_compute. Qed.

Lemma as_owner_pending :
  ∀ p, p ∈ pending (w as_owner) → p.1 ≠ next (w as_owner).
Proof.
  intros p Hp. apply list_elem_of_In in Hp.
  vm_compute in Hp. vm_compute. intuition (subst; discriminate).
Qed.

Lemma hangup_owner_witness :
  trace (w (hangup (Some (lit "m1")) (Some (lit "tok")) (Some ana) as_owner))
  = trace (w as_owner) ++ [Fetch (PutEndMeeting (Some (lit "m1")))].
Proof.
  exact (proj1 (hangup_owner (Some (lit "m1")) (Some (lit "tok")) (Some ana)
                  as_owner as_owner_creator eq_refl eq_refl
                  as_owner_pending)).
Defined.

(** ** Local media: rejected, late and replacing grants *)

(** The stream of a granted request: fresh live tracks, the audio track
    first; nothing else of the world changes but the handle counter. *)
Lemma new_stream_spec video audio x :
  let st := (new_stream video audio x).1 in
  let x1 := (new_stream video audio x).2 in
  st = (if audio then [next x] else [])
       ++ (if video then [if audio then S (next x) else next x] else [])
  ∧ x1 = set_tracks (tracks x1) (set_next (next x1) x)
  ∧ next x ≤ next x1
  ∧ (∀ t, t ∈ st → next x ≤ t < next x1)
  ∧ (∀ t, t ∉ st → tracks x1 !! t = tracks x !! t)
  ∧ (audio = true → tracks x1 !! next x = Some (live AudioTrack))
  ∧ (video = true →
     tracks x1 !! (if audio then S (next x) else next x)
     = Some (live VideoTrack))
  ∧ (∀ t, t ∈ st → ∃ k, tracks x1 !! t = Some (live k)).
Proof.
  destruct x as [tk cl pr so tm nw pd tr nx rt ct cn].
  destruct video, audio; cbn; unfold live;
    repeat match goal with |- _ ∧ _ => split end;
    try done; try lia;
    try (intros t Ht; rewrite ?elem_of_cons, ?elem_of_nil in Ht;
         intuition (subst; lia));
    try (intros t Ht; rewrite ?elem_of_cons, ?elem_of_nil in Ht;
         rewrite ?lookup_insert_ne by (intros ->; tauto); done);
    try (intros _; rewrite ?lookup_insert_ne by lia; apply lookup_insert_eq).
  - intros t Ht. rewrite !lookup_insert_ne; [done | |];
      intros <-; apply Ht; [left | right; left].
  - intros t Ht. apply elem_of_cons in Ht as [->| Ht].
    + rewrite lookup_insert_ne by lia. rewrite lookup_insert_eq. eauto.
    + apply list_elem_of_singleton in Ht as ->.
      rewrite lookup_insert_eq. eauto.
  - intros t Ht. apply list_elem_of_singleton in Ht as ->.
    rewrite lookup_insert_eq. eauto.
  - intros t Ht. apply list_elem_of_singleton in Ht as ->.
    rewrite lookup_insert_eq. eauto.
Qed.

(** With the camera and the microphone both off [ensureMedia] and the media
    effect ask for no device: they write [enabled] flags and close calls. *)
Lemma ensureMedia_off r run s :
  cameraOn r = false → micOn r = false →
  let s' := ensureMedia r run s in
  trace (w s') = trace (w s) ∧ pending (w s') = pending (w s)
  ∧ mediaStreamRef s' = mediaStreamRef s ∧ hk s' = hk s.
Proof.
  intros Hc Hm s'. subst s'. unfold ensureMedia. rewrite Hc, Hm.
  destruct (mediaStreamRef s) as [cur|] eqn:Href; [| done].
  cbn [andb].
  destruct (head (getVideoTracks (w s) cur)),
    (head (getAudioTracks (w s) cur)); done.
Qed.

Lemma media_effect_off meetingId user r s :
  cameraOn r = false → micOn r = false →
  let s' := media_effect meetingId user r s in
  trace (w s') = trace (w s) ∧ pending (w s') = pending (w s)
  ∧ mediaStreamRef s' = mediaStreamRef s ∧ hk s' = hk s.
Proof.
  intros Hc Hm s'. subst s'. unfold media_effect.
  destruct (ensureMedia_off r (S (media_run s))
              (set_media (S (media_run s)) true s) Hc Hm)
    as (H1 & H2 & H3 & H4).
  set (s1 := ensureMedia r (S (media_run s))
               (set_media (S (media_run s)) true s)) in *.
  rewrite Hm. cbn [andb].
  destruct (peer r), (voiceSocket r), user, (truthy meetingId); try done.
  cbn [w on_w set_peerCallsRef hk mediaStreamRef].
  rewrite close_all_calls_frame. done.
Qed.

(** X7. A rejected device request of [ensureMedia] switches both toggles off
    and shows the help text when the rejection is a [NotAllowedError]; the
    render this causes runs the media effect with both toggles off, so no new
    request is made: a rejection is never retried. *)
Theorem rejected_request_not_retried (meetingId token : option jsstring)
  (user : option User) (s : state) (q run : nat) (k : continuation)
  (name : jsstring) :
  find_pending q (w s) = Some k →
  ensure_run k = Some run →
  let s' := step meetingId token user s (Settle q (Rejected name)) in
  micOn (hk s') = false
  ∧ cameraOn (hk s') = false
  ∧ trace (w s')
    = trace (w s)
      ++ (if bool_decide (name = lit "NotAllowedError")
          then [Alert AlertMediaDeniedHelp] else [])
  ∧ acquisitions (trace (w s')) = acquisitions (trace (w s))
  ∧ mediaStreamRef s' = mediaStreamRef s
  ∧ find_pending q (w s') = None.
Proof.
  intros Hf Hk s'.
  set (s1 := ensureMedia_catch name (on_w (drop_pending q) s)).
  assert (Hs' : s' = rerender meetingId user (hk s) s1).
  { subst s' s1. unfold step. cbn [handle]. unfold settle. rewrite Hf.
    by destruct k. }
  assert (Hhk : hk s1 = set_micOn false (set_cameraOn false (hk s))).
  { subst s1. unfold ensureMedia_catch. by destruct (bool_decide _). }
  assert (Htr : trace (w s1)
            = trace (w s)
              ++ (if bool_decide (name = lit "NotAllowedError")
                  then [Alert AlertMediaDeniedHelp] else [])).
  { subst s1. unfold ensureMedia_catch.
    destruct (bool_decide _); cbn; by rewrite ?app_nil_r. }
  assert (Href : mediaStreamRef s1 = mediaStreamRef s).
  { subst s1. unfold ensureMedia_catch. by destruct (bool_decide _). }
  assert (Hpd : pending (w s1) = filter (λ p, p.1 ≠ q) (pending (w s))).
  { subst s1. unfold ensureMedia_catch. by destruct (bool_decide _). }
  assert (Hgone : ∀ pd, pd = filter (λ p : nat * continuation, p.1 ≠ q)
                              (pending (w s)) →
            snd <$> head (filter (λ p, p.1 = q) pd) = None).
  { intros pd ->. rewrite filter_none; [done |].
    intros p Hp Heq. by apply list_elem_of_filter in Hp as [Hne _]. }
  assert (Hacq : acquisitions (trace (w s1)) = acquisitions (trace (w s))).
  { rewrite Htr, acquisitions_app.
    destruct (bool_decide _);
      [change (acquisitions [Alert AlertMediaDeniedHelp]) with 0
      | change (acquisitions []) with 0]; lia. }
  assert (Hrr : hk s' = hk s1 ∧ trace (w s') = trace (w s1)
                ∧ mediaStreamRef s' = mediaStreamRef s1
                ∧ pending (w s') = pending (w s1)).
  { rewrite Hs'. unfold rerender. destruct (mounted s1); [| done].
    assert (Hcl : cleanup_deps_changed (hk s) (hk s1) = false).
    { rewrite Hhk. unfold cleanup_deps_changed.
      by rewrite bool_decide_eq_true_2. }
    rewrite Hcl. cbn zeta.
    destruct (media_deps_changed (hk s) (hk s1)); [| done].
    destruct (media_effect_off meetingId user (hk s1) (media_cleanup s1))
      as (H1 & H2 & H3 & H4); [by rewrite Hhk | by rewrite Hhk |].
    by rewrite H1, H2, H3, H4. }
  destruct Hrr as (H1 & H2 & H3 & H4).
  rewrite H1, H2, H3, Hhk.
  repeat match goal with |- _ ∧ _ => split end; try done.
  unfold find_pending. rewrite H4. by apply Hgone.
Qed.

Lemma in_meeting_ensure_pending :
  find_pending 7 (w in_meeting) = Some (KEnsureAcquire 2 false).
Proof. by vm_compute. Qed.

Lemma rejected_request_not_retried_witness :
  acquisitions
    (trace (w (step (Some (lit "m1")) (Some (lit "tok")) (Some ana) in_meeting
                 (Settle 7 (Rejected (lit "NotAllowedError"))))))
  = acquisitions (trace (w in_meeting)).
Proof.
  pose proof (rejected_request_not_retried (Some (lit "m1"))
                (Some (lit "tok")) (Some ana) in_meeting 7 2
                (KEnsureAcquire 2 false) (lit "NotAllowedError")
                in_meeting_ensure_pending eq_refl)
    as (_ & _ & _ & H & _).
  exact H.
Defined.

(** X8. A grant that arrives for a run of the media effect that is no longer
    the mounted one (the effect ran again, or the component is gone) is
    discarded: the tracks just handed out are stopped, the stream in the ref
    and the hooks stay as they were, and no track that was not live before is
    live afterwards. *)
Theorem stale_grant_discarded (s : state) (q run : nat) (k : continuation) :
  find_pending q (w s) = Some k →
  ensure_run k = Some run →
  run_mounted run s = false →
  let s' := settle q Granted s in
  mediaStreamRef s' = mediaStreamRef s
  ∧ hk s' = hk s
  ∧ trace (w s') = trace (w s)
  ∧ (∀ t tr, tracks (w s') !! t = Some tr → stopped tr = false →
       tracks (w s) !! t = Some tr).
Proof.
  intros Hf Hk Hrun s'.
  assert (Hgen : ∀ video audio,
    let s0 := on_w (drop_pending q) s in
    let st := (new_stream video audio (w s0)).1 in
    let x1 := (new_stream video audio (w s0)).2 in
    let s2 := on_w (stop_tracks st) (on_w (λ _, x1) s0) in
    mediaStreamRef s2 = mediaStreamRef s ∧ hk s2 = hk s
    ∧ trace (w s2) = trace (w s)
    ∧ (∀ t tr, tracks (w s2) !! t = Some tr → stopped tr = false →
         tracks (w s) !! t = Some tr)).
  { intros video audio s0 st x1 s2.
    destruct (new_stream_spec video audio (w s0))
      as (_ & Hx1 & _ & _ & Hold & _).
    fold st x1 in Hx1, Hold.
    split; [done |]. split; [done |]. split.
    - subst s2. cbn [w on_w]. rewrite stop_tracks_frame, Hx1. done.
    - intros t tr Ht Hlive. subst s2. cbn [w on_w] in Ht.
      rewrite stop_tracks_lookup in Ht.
      destruct (tracks x1 !! t) as [tr0|] eqn:Hx; [| done].
      cbn in Ht. injection Ht as <-. cbn in Hlive.
      destruct (bool_decide (t ∈ st)) eqn:Hin; [done |].
      apply bool_decide_eq_false_1 in Hin.
      specialize (Hold t Hin).
      change (tracks (w s0)) with (tracks (w s)) in Hold.
      rewrite <- Hold, Hx. by destruct tr0. }
  subst s'. unfold settle. rewrite Hf.
  destruct k as [|run' v|run' cur a| |]; try done;
    cbn in Hk; injection Hk as ->.
  - unfold ensureMedia_acquired. specialize (Hgen v true).
    rewrite (surjective_pairing (new_stream v true _)).
    change (run_mounted run (on_w _ (on_w (drop_pending q) s)))
      with (run_mounted run s).
    rewrite Hrun. exact Hgen.
  - unfold ensureMedia_replaced. specialize (Hgen true a).
    rewrite (surjective_pairing (new_stream true a _)).
    change (run_mounted run (on_w _ (on_w (drop_pending q) s)))
      with (run_mounted run s).
    rewrite Hrun. exact Hgen.
Qed.

Lemma in_meeting_stale_pending :
  find_pending 6 (w in_meeting) = Some (KEnsureAcquire 1 false).
Proof. by vm_compute. Qed.

Lemma in_meeting_stale_run : run_mounted 1 in_meeting = false.
Proof. by vm_compute. Qed.

Lemma stale_grant_discarded_witness :
  mediaStreamRef (settle 6 Granted in_meeting) = mediaStreamRef in_meeting.
Proof.
  exact (proj1 (stale_grant_discarded in_meeting 6 1 (KEnsureAcquire 1 false)
                  in_meeting_stale_pending eq_refl in_meeting_stale_run)).
Defined.

(** X9. The permission request stores its stream without looking at the ref.
    When its grant arrives after [ensureMedia] has stored a stream, that
    stream is dropped from the ref with its tracks as they are, and the
    teardown, which stops the tracks of the stream in the ref, no longer
    reaches them: after the unmount they are in the state they were in. *)
Theorem late_permission_orphans_stream (s : state) (q : nat) (st : stream) :
  find_pending q (w s) = Some KPermission →
  mediaStreamRef s = Some st →
  (∀ t, t ∈ st → t < next (w s)) →
  let s' := settle q Granted s in
  mediaStreamRef s' = Some [next (w s)]
  ∧ (∀ t, t ∈ st → tracks (w s') !! t = tracks (w s) !! t)
  ∧ (∀ t, t ∈ st → tracks (w (unmount s')) !! t = tracks (w s) !! t).
Proof.
  intros Hf Href Hlt s'.
  assert (Hs' : s' = on_hk (set_micOn true)
            (on_w (stop_tracks [next (w s)])
               (set_mediaStreamRef (Some [next (w s)])
                  (on_w (λ x, (new_stream false true (drop_pending q x)).2)
                     s)))).
  { subst s'. unfold settle. by rewrite Hf. }
  assert (Htr : ∀ t, t ∈ st → tracks (w s') !! t = tracks (w s) !! t).
  { intros t Ht. specialize (Hlt t Ht). rewrite Hs'. cbn [w on_w on_hk].
    rewrite stop_tracks_lookup. cbn.
    rewrite lookup_insert_ne by lia.
    rewrite bool_decide_eq_false_2.
    - by destruct (tracks (w s) !! t) as [[]|].
    - intros Hin. apply list_elem_of_singleton in Hin. lia. }
  split; [by rewrite Hs' |]. split; [done |].
  intros t Ht. rewrite <- (Htr t Ht). unfold unmount.
  destruct (mounted s'); [| done]. cbn [w set_mounted].
  rewrite cleanup_tracks.
  destruct (main_cleanup_frame s') as (_ & Hr & _ & Hk & _).
  change (mediaStreamRef (media_cleanup (main_cleanup s')))
    with (mediaStreamRef (main_cleanup s')).
  change (w (media_cleanup (main_cleanup s'))) with (w (main_cleanup s')).
  rewrite Hr. rewrite Hs' at 1. cbn [mediaStreamRef on_hk on_w set_mediaStreamRef].
  rewrite stop_tracks_lookup, Hk.
  rewrite bool_decide_eq_false_2.
  - by destruct (tracks (w s') !! t) as [[]|].
  - intros Hin. apply list_elem_of_singleton in Hin.
    specialize (Hlt t Ht). lia.
Qed.

(** X10. A grant that replaces the stream (the camera was wanted and the
    stream had no video track), arriving while its run is the mounted one:
    every track of the old stream is stopped and the ref holds the new stream,
    whose tracks are live, a video track among them, and an audio track when
    the microphone was on at the request. *)
Theorem replacing_grant_swaps (s : state) (q run : nat) (cur : stream)
  (a : bool) :
  find_pending q (w s) = Some (KEnsureReplace run cur a) →
  run_mounted run s = true →
  (∀ t, t ∈ cur → t < next (w s)) →
  let s' := settle q Granted s in
  ∃ st,
    mediaStreamRef s' = Some st
    ∧ (∀ t tr, t ∈ cur → tracks (w s) !! t = Some tr →
         ∃ tr', tracks (w s') !! t = Some tr' ∧ stopped tr' = true)
    ∧ (∀ t, t ∈ st → ∃ k, tracks (w s') !! t = Some (live k))
    ∧ (∃ v, v ∈ st ∧ tracks (w s') !! v = Some (live VideoTrack))
    ∧ (if a
       then ∃ t, t ∈ st ∧ tracks (w s') !! t = Some (live AudioTrack)
       else getAudioTracks (w s') st = []).
Proof.
  intros Hf Hrun Hlt s'.
  set (s0 := on_w (drop_pending q) s).
  destruct (new_stream_spec true a (w s0))
    as (Hst & Hx1 & _ & Hnew & Hold & Ha & Hv & Hlive).
  set (st := (new_stream true a (w s0)).1) in *.
  set (x1 := (new_stream true a (w s0)).2) in *.
  change (next (w s0)) with (next (w s)) in *.
  change (tracks (w s0)) with (tracks (w s)) in *.
  assert (Hs' : s' = set_mediaStreamRef (Some st)
                       (on_w (stop_tracks cur) (on_w (λ _, x1) s0))).
  { subst s'. unfold settle. rewrite Hf. unfold ensureMedia_replaced.
    rewrite (surjective_pairing (new_stream true a _)).
    change (run_mounted run (on_w _ (on_w (drop_pending q) s)))
      with (run_mounted run s).
    by rewrite Hrun. }
  assert (Hkeep : ∀ t, t ∈ st →
            tracks (w s') !! t = tracks x1 !! t).
  { intros t Ht. rewrite Hs'. cbn [w on_w set_mediaStreamRef].
    rewrite stop_tracks_lookup, bool_decide_eq_false_2.
    - by destruct (tracks x1 !! t) as [[]|].
    - intros Hin. specialize (Hlt t Hin). specialize (Hnew t Ht). lia. }
  assert (Hvin : (if a then S (next (w s)) else next (w s)) ∈ st).
  { rewrite Hst. destruct a; [right |]; left. }
  exists st. split; [by rewrite Hs' |]. split; [| split; [| split]].
  - intros t tr Ht Htr. rewrite Hs'. cbn [w on_w set_mediaStreamRef].
    rewrite stop_tracks_lookup, bool_decide_eq_true_2 by done.
    rewrite Hold, Htr; [cbn; eauto |].
    intros Hin. specialize (Hlt t Ht). specialize (Hnew t Hin). lia.
  - intros t Ht. rewrite (Hkeep t Ht). by apply Hlive.
  - eexists. split; [exact Hvin |]. rewrite (Hkeep _ Hvin). by apply Hv.
  - destruct a.
    + exists (next (w s)). assert (Hin : next (w s) ∈ st) by (rewrite Hst; left).
      split; [done |]. rewrite (Hkeep _ Hin). by apply Ha.
    + unfold getAudioTracks. apply filter_none. intros t Ht.
      unfold has_kind. rewrite (Hkeep t Ht).
      rewrite Hst in Ht. apply list_elem_of_singleton in Ht as ->.
      by rewrite Hv.
Qed.

Lemma media_first_permission : find_pending 0 (w media_first) = Some KPermission.
Proof. by vm_compute. Qed.

Lemma media_first_ref : mediaStreamRef media_first = Some [8].
Proof. by vm_compute. Qed.

Lemma media_first_old : ∀ t, t ∈ [8] → t < next (w media_first).
Proof.
  intros t Ht. apply list_elem_of_singleton in Ht as ->. vm_compute. lia.
Qed.

Lemma late_permission_orphans_stream_witness :
  mediaStreamRef (settle 0 Granted media_first)
  = Some [next (w media_first)].
Proof.
  exact (proj1 (late_permission_orphans_stream media_first 0 [8]
                  media_first_permission media_first_ref media_first_old)).
Defined.

(** On Ana's session: the audio track of the stream that [ensureMedia]
    stored is still live after the late permission grant and the unmount. *)
Example late_permission_leaves_microphone_on :
  tracks (w (unmount (settle 0 Granted media_first))) !! 8
  = Some (live AudioTrack).
Proof. by vm_compute. Qed.

Lemma camera_wanted_pending :
  find_pending 9 (w camera_wanted) = Some (KEnsureReplace 3 [8] true).
Proof. by vm_compute. Qed.

Lemma camera_wanted_run : run_mounted 3 camera_wanted = true.
Proof. by vm_compute. Qed.

Lemma camera_wanted_old : ∀ t, t ∈ [8] → t < next (w camera_wanted).
Proof.
  intros t Ht. apply list_elem_of_singleton in Ht as ->. vm_compute. lia.
Qed.

Lemma replacing_grant_swaps_witness :
  ∃ st, mediaStreamRef (settle 9 Granted camera_wanted) = Some st
        ∧ ∃ v, v ∈ st
               ∧ tracks (w (settle 9 Granted camera_wanted)) !! v
                 = Some (live VideoTrack).
Proof.
  destruct (replacing_grant_swaps camera_wanted 9 3 [8] true
              camera_wanted_pending camera_wanted_run camera_wanted_old)
    as (st & Href & _ & _ & Hv & _).
  exact (ex_intro _ st (conj Href Hv)).
Defined.

(** ** The microphone toggle *)

(** What [ensureMedia] emits and what it leaves alone, up to its first
    [await]. *)
Lemma ensureMedia_frame r run s :
  let s' := ensureMedia r run s in
  trace (w s')
  = trace (w s)
    ++ match mediaStreamRef s with
       | None => if micOn r then [GetUserMedia (cameraOn r) (micOn r)] else []
       | Some cur =>
           if cameraOn r && bool_decide (head (getVideoTracks (w s) cur) = None)
           then [GetUserMedia true (micOn r)] else []
       end
  ∧ tracks (w s')
    = match mediaStreamRef s with
      | None => tracks (w s)
      | Some cur =>
          tracks (enable_if_any (micOn r) (head (getAudioTracks (w s) cur))
                    (enable_if_any (cameraOn r)
                       (head (getVideoTracks (w s) cur)) (w s)))
      end
  ∧ mediaStreamRef s' = mediaStreamRef s
  ∧ peerCallsRef s' = peerCallsRef s
  ∧ calls (w s') = calls (w s)
  ∧ hk s' = hk s
  ∧ mounted s' = mounted s.
Proof.
  intros s'. subst s'. unfold ensureMedia.
  destruct (mediaStreamRef s) as [cur|] eqn:Href.
  - destruct (head (getVideoTracks (w s) cur)) as [v|],
      (head (getAudioTracks (w s) cur)) as [a|], (cameraOn r);
      cbn; rewrite ?app_nil_r; done.
  - destruct (micOn r); cbn; rewrite ?app_nil_r; done.
Qed.

(** Toggling the microphone of a mounted component runs the media effect
    again, and no other effect. *)
Lemma step_toggle_mic meetingId token user s :
  mounted s = true →
  step meetingId token user s ToggleMic
  = media_effect meetingId user (set_micOn (negb (micOn (hk s))) (hk s))
      (media_cleanup (on_hk (λ h, set_micOn (negb (micOn h)) h) s)).
Proof.
  intros Hm. unfold step. cbn [handle]. rewrite Hm. unfold rerender.
  change (mounted (on_hk _ s)) with (mounted s). rewrite Hm. cbn zeta.
  assert (media_deps_changed (hk s) (hk (on_hk (λ h, set_micOn (negb (micOn h)) h) s))
          = true) as ->.
  { unfold media_deps_changed. rewrite bool_decide_eq_false_2; [done |].
    intros (_ & H & _). cbn in H. by destruct (micOn (hk s)). }
  assert (cleanup_deps_changed (hk s) (hk (on_hk (λ h, set_micOn (negb (micOn h)) h) s))
          = false) as ->.
  { unfold cleanup_deps_changed. by rewrite bool_decide_eq_true_2. }
  done.
Qed.

(** X11. Muting, in a meeting with a peer and a voice socket: every call in
    the call map is closed and the map is emptied; the first audio track of
    the stream is disabled; nothing is emitted and the voice room is not left.
    The only request that can go out is the one for a video track, when the
    camera is on and the stream has none. *)
Theorem mute_closes_calls (meetingId token : option jsstring) (u : User)
  (s : state) (pe vs : nat) :
  mounted s = true →
  micOn (hk s) = true →
  peer (hk s) = Some pe →
  voiceSocket (hk s) = Some vs →
  truthy meetingId = true →
  let s' := step meetingId token (Some u) s ToggleMic in
  micOn (hk s') = false
  ∧ peerCallsRef s' = ∅
  ∧ (∀ p c co, peerCallsRef s !! p = Some c → calls (w s) !! c = Some co →
       ∃ co', calls (w s') !! c = Some co' ∧ call_closed co' = true)
  ∧ trace (w s')
    = trace (w s)
      ++ match mediaStreamRef s with
         | Some cur =>
             if cameraOn (hk s)
                && bool_decide (head (getVideoTracks (w s) cur) = None)
             then [GetUserMedia true false] else []
         | None => []
         end
  ∧ mediaStreamRef s' = mediaStreamRef s
  ∧ (∀ cur a tr, mediaStreamRef s = Some cur →
       head (getAudioTracks (w s) cur) = Some a →
       tracks (w s) !! a = Some tr →
       tracks (w s') !! a
       = Some {| kind := kind tr; enabled := false; stopped := stopped tr |}).
Proof.
  intros Hm Hmic Hpe Hvs Hmt s'. subst s'.
  rewrite step_toggle_mic by done. rewrite Hmic. cbn [negb].
  set (s0 := media_cleanup (on_hk (λ h, set_micOn (negb (micOn h)) h) s)).
  set (r := set_micOn false (hk s)).
  unfold media_effect.
  destruct (ensureMedia_frame r (S (media_run s0))
              (set_media (S (media_run s0)) true s0))
    as (Htr & Htk & Href & Hmap & Hcl & Hhk & _).
  set (s1 := ensureMedia r (S (media_run s0))
               (set_media (S (media_run s0)) true s0)) in *.
  change (peer r) with (peer (hk s)). change (voiceSocket r) with (voiceSocket (hk s)).
  rewrite Hpe, Hvs, Hmt. change (micOn r) with false. cbn [andb].
  cbn [hk w peerCallsRef mediaStreamRef set_peerCallsRef on_w].
  change (mediaStreamRef (set_media (S (media_run s0)) true s0))
    with (mediaStreamRef s) in *.
  change (w (set_media (S (media_run s0)) true s0)) with (w s) in *.
  change (peerCallsRef (set_media (S (media_run s0)) true s0))
    with (peerCallsRef s) in *.
  change (cameraOn r) with (cameraOn (hk s)) in *.
  change (micOn r) with false in *.
  split; [rewrite Hhk; cbn; by rewrite Hmic |]. split; [done |].
  split; [| split; [| split]].
  - intros p c co Hp Hc. rewrite Hmap.
    erewrite close_all_calls_lookup; [eauto | done | by rewrite Hcl].
  - rewrite close_all_calls_frame. cbn [trace set_calls]. exact Htr.
  - done.
  - intros cur a tr Hcur Ha Hl. rewrite close_all_calls_frame.
    cbn [tracks set_calls]. rewrite Htk, Hcur.
    rewrite !enable_if_any_lookup, Hl. cbn.
    by rewrite bool_decide_eq_true_2.
Qed.

Lemma getAudioTracks_ext x y cur :
  tracks x = tracks y → getAudioTracks x cur = getAudioTracks y cur.
Proof. intros H. unfold getAudioTracks, has_kind. by rewrite H. Qed.

(** X12. Unmuting, in a meeting with a peer and a voice socket. With a stream
    in the ref, ['join-voice-room'] is emitted again, under the user's id
    whatever the peer of the hook is, the calls are left alone and a device is
    asked for only when the camera is on and the stream has no video track; a
    stream that has no audio track still has none, the microphone showing on.
    Without a stream the device is asked for and, the stream not being there
    yet, the calls are closed and no ['join-voice-room'] is emitted. *)
Theorem unmute_rejoins (meetingId token : option jsstring) (u : User)
  (s : state) (pe vs : nat) :
  mounted s = true →
  micOn (hk s) = false →
  peer (hk s) = Some pe →
  voiceSocket (hk s) = Some vs →
  truthy meetingId = true →
  let s' := step meetingId token (Some u) s ToggleMic in
  micOn (hk s') = true
  ∧ mediaStreamRef s' = mediaStreamRef s
  ∧ match mediaStreamRef s with
    | Some cur =>
        trace (w s')
        = trace (w s)
          ++ (if cameraOn (hk s)
                 && bool_decide (head (getVideoTracks (w s) cur) = None)
              then [GetUserMedia true true] else [])
          ++ [VoiceEmit vs (JoinVoiceRoom meetingId (user_id u) (user_id u))]
        ∧ peerCallsRef s' = peerCallsRef s
        ∧ calls (w s') = calls (w s)
        ∧ (getAudioTracks (w s) cur = [] → getAudioTracks (w s') cur = [])
    | None =>
        trace (w s') = trace (w s) ++ [GetUserMedia (cameraOn (hk s)) true]
        ∧ peerCallsRef s' = ∅
    end.
Proof.
  intros Hm Hmic Hpe Hvs Hmt s'. subst s'.
  rewrite step_toggle_mic by done. rewrite Hmic. cbn [negb].
  set (s0 := media_cleanup (on_hk (λ h, set_micOn (negb (micOn h)) h) s)).
  set (r := set_micOn true (hk s)).
  unfold media_effect.
  destruct (ensureMedia_frame r (S (media_run s0))
              (set_media (S (media_run s0)) true s0))
    as (Htr & Htk & Href & Hmap & Hcl & Hhk & _).
  set (s1 := ensureMedia r (S (media_run s0))
               (set_media (S (media_run s0)) true s0)) in *.
  change (peer r) with (peer (hk s)).
  change (voiceSocket r) with (voiceSocket (hk s)).
  rewrite Hpe, Hvs, Hmt. change (micOn r) with true. cbn [andb].
  change (mediaStreamRef (set_media (S (media_run s0)) true s0))
    with (mediaStreamRef s) in *.
  change (w (set_media (S (media_run s0)) true s0)) with (w s) in *.
  change (peerCallsRef (set_media (S (media_run s0)) true s0))
    with (peerCallsRef s) in *.
  change (cameraOn r) with (cameraOn (hk s)) in *.
  change (micOn r) with true in *.
  rewrite Href.
  destruct (mediaStreamRef s) as [cur|] eqn:Hcur.
  - rewrite bool_decide_eq_true_2 by done.
    cbn [hk w peerCallsRef mediaStreamRef on_w emit trace set_trace calls].
    split; [rewrite Hhk; cbn; by rewrite Hmic |]. split; [done |].
    split; [by rewrite Htr, <- app_assoc |]. split; [done |].
    split; [done |]. intros Hnone.
    rewrite (getAudioTracks_ext _ (w s1)) by done.
    rewrite (getAudioTracks_ext _ _ _ Htk).
    by rewrite !getAudioTracks_enable_if_any.
  - rewrite bool_decide_eq_false_2 by (by intros [? ?]).
    cbn [hk w peerCallsRef mediaStreamRef set_peerCallsRef on_w].
    split; [rewrite Hhk; cbn; by rewrite Hmic |]. split; [done |].
    split; [| done]. rewrite close_all_calls_frame. exact Htr.
Qed.

Lemma in_call_mounted : mounted in_call = true.
Proof. by vm_compute. Qed.

Lemma in_call_micOn : micOn (hk in_call) = true.
Proof. by vm_compute. Qed.

Lemma in_call_peer : peer (hk in_call) = Some 3.
Proof. by vm_compute. Qed.

Lemma in_call_voiceSocket : voiceSocket (hk in_call) = Some 2.
Proof. by vm_compute. Qed.

Lemma mute_closes_calls_witness :
  peerCallsRef (step (Some (lit "m1")) (Some (lit "tok")) (Some ana) in_call
                  ToggleMic) = ∅.
Proof.
  pose proof (mute_closes_calls (Some (lit "m1")) (Some (lit "tok")) ana
                in_call 3 2 in_call_mounted in_call_micOn in_call_peer
                in_call_voiceSocket eq_refl) as (_ & H & _).
  exact H.
Defined.

Lemma muted_mounted : mounted muted = true.
Proof. by vm_compute. Qed.

Lemma muted_micOn : micOn (hk muted) = false.
Proof. by vm_compute. Qed.

Lemma muted_peer : peer (hk muted) = Some 3.
Proof. by vm_compute. Qed.

Lemma muted_voiceSocket : voiceSocket (hk muted) = Some 2.
Proof. by vm_compute. Qed.

Lemma unmute_rejoins_witness :
  micOn (hk (step (Some (lit "m1")) (Some (lit "tok")) (Some ana) muted
               ToggleMic)) = true.
Proof.
  pose proof (unmute_rejoins (Some (lit "m1")) (Some (lit "tok")) ana
                muted 3 2 muted_mounted muted_micOn muted_peer
                muted_voiceSocket eq_refl) as (H & _).
  exact H.
Defined.

(** On Ana's session: muting closes the call to ["u2"] and emits nothing;
    unmuting emits ['join-voice-room'] and places no call by itself. *)
Example mute_then_unmute :
  let s1 := meeting_run in_call [ToggleMic] in
  let s2 := meeting_run s1 [ToggleMic] in
  call_closed <$> calls (w s1) !! 10 = Some true
  ∧ trace (w s1) = trace (w in_call)
  ∧ trace (w s2)
    = trace (w in_call)
      ++ [VoiceEmit 2 (JoinVoiceRoom (Some (lit "m1")) (lit "u1") (lit "u1"))]
  ∧ peerCallsRef s2 = ∅.
Proof. by vm_compute. Qed.

(** ** Placing, answering and losing calls *)

Lemma callPeer_fired_spec user c p s st :
  mediaStreamRef s = Some st →
  c_micOn c = true →
  call_throws (w s) = false →
  callPeer_fired user c p s
  = if bool_decide (Some p = user_id <$> user) then s
    else set_peerCallsRef (<[p := next (w s)]> (peerCallsRef s))
           (on_w (λ x, add_connection (newPeer c) (next x)
                         (set_calls
                            (<[next x := {| call_peer := p;
                                            call_stream := Some st;
                                            call_closed := false;
                                            call_handlers := Some p |}]>
                               (calls x)) (set_next (S (next x)) x))) s).
Proof.
  intros Href Hmic Hthrow. unfold callPeer_fired, initiateCall.
  rewrite Href, Hmic, Hthrow.
  rewrite (bool_decide_eq_true_2 (is_Some (Some st))) by eauto.
  cbn [andb]. by destruct (bool_decide _).
Qed.

(** X13. The callback of ['voice-joined'], run with a stream in the ref and
    calls going through: every peer of the list other than the user has a
    fresh open call carrying the stream in the call map, the entries of peers
    not in the list and of the user's own id are as before, and no call that
    existed is touched: one whose entry was taken over stays open. *)
Theorem callPeers_fired_calls_all (user : option User) (c : closure)
  (l : list jsstring) (s : state) (st : stream) :
  mediaStreamRef s = Some st →
  c_micOn c = true →
  call_throws (w s) = false →
  let s' := callPeers_fired user c l s in
  (∀ p, p ∈ l → Some p ≠ user_id <$> user →
     ∃ k, peerCallsRef s' !! p = Some k
          ∧ next (w s) ≤ k < next (w s')
          ∧ calls (w s') !! k
            = Some {| call_peer := p; call_stream := Some st;
                      call_closed := false; call_handlers := Some p |})
  ∧ (∀ p, p ∉ l ∨ Some p = user_id <$> user →
       peerCallsRef s' !! p = peerCallsRef s !! p)
  ∧ (∀ k, k < next (w s) → calls (w s') !! k = calls (w s) !! k)
  ∧ next (w s) ≤ next (w s')
  ∧ trace (w s') = trace (w s)
  ∧ mediaStreamRef s' = Some st.
Proof.
  intros Href Hmic. revert s Href.
  induction l as [|p l IH]; intros s Href Hthrow s'.
  - subst s'. cbn. repeat match goal with |- _ ∧ _ => split end; try done.
    intros p Hp. by apply elem_of_nil in Hp.
  - subst s'. unfold callPeers_fired in *. cbn [foldl].
    set (s1 := callPeer_fired user c p s).
    assert (Hs1 : s1 = if bool_decide (Some p = user_id <$> user) then s
                       else set_peerCallsRef (<[p := next (w s)]> (peerCallsRef s))
                              (on_w (λ x, add_connection (newPeer c) (next x)
                                 (set_calls
                                    (<[next x := {| call_peer := p;
                                                    call_stream := Some st;
                                                    call_closed := false;
                                                    call_handlers := Some p |}]>
                                       (calls x)) (set_next (S (next x)) x))) s))
      by (by apply callPeer_fired_spec).
    assert (Href1 : mediaStreamRef s1 = Some st)
      by (rewrite Hs1; by destruct (bool_decide _)).
    assert (Hthrow1 : call_throws (w s1) = false)
      by (rewrite Hs1; by destruct (bool_decide _)).
    assert (Hnext1 : next (w s) ≤ next (w s1))
      by (rewrite Hs1; destruct (bool_decide _); cbn; lia).
    assert (Htr1 : trace (w s1) = trace (w s))
      by (rewrite Hs1; by destruct (bool_decide _)).
    assert (Hold1 : ∀ k, k < next (w s) → calls (w s1) !! k = calls (w s) !! k).
    { intros k Hk. rewrite Hs1. destruct (bool_decide _); [done |].
      cbn. rewrite lookup_insert_ne; [done | lia]. }
    destruct (IH s1 Href1 Hthrow1) as (Hin & Hout & Hold & Hnext & Htr & Hr).
    repeat match goal with |- _ ∧ _ => split end.
    + intros q Hq Hself. destruct (decide (q ∈ l)) as [Hql | Hql].
      * destruct (Hin q Hql Hself) as (k & Hk & Hrange & Hcall).
        exists k. split; [done |]. split; [lia | done].
      * apply elem_of_cons in Hq as [-> | Hq]; [| done].
        exists (next (w s)).
        assert (Hlt : next (w s) < next (w s1)).
        { rewrite Hs1, bool_decide_eq_false_2 by done. cbn. lia. }
        split; [| split; [lia |]].
        -- rewrite Hout by (by left). rewrite Hs1.
           rewrite bool_decide_eq_false_2 by done. cbn.
           apply lookup_insert_eq.
        -- rewrite Hold by done. rewrite Hs1.
           rewrite bool_decide_eq_false_2 by done. cbn.
           apply lookup_insert_eq.
    + intros q Hq. destruct Hq as [Hq | Hq].
      * rewrite Hout by (left; intros Hin'; apply Hq; by right).
        rewrite Hs1. destruct (bool_decide _); [done |]. cbn.
        rewrite lookup_insert_ne; [done |]. intros ->. apply Hq. left.
      * rewrite Hout by (by right).
        rewrite Hs1. destruct (bool_decide _) eqn:Hb; [done |]. cbn.
        rewrite lookup_insert_ne; [done |]. intros ->.
        by apply bool_decide_eq_false_1 in Hb.
    + intros k Hk. rewrite Hold by lia. by apply Hold1.
    + lia.
    + by rewrite Htr.
    + done.
Qed.

Lemma in_call_stream : mediaStreamRef in_call = Some [8].
Proof. by vm_compute. Qed.

Lemma in_call_no_throw : call_throws (w in_call) = false.
Proof. by vm_compute. Qed.

Lemma callPeers_fired_calls_all_witness :
  trace (w (callPeers_fired (Some ana) ana_closure [lit "u2"; lit "u3"]
              in_call))
  = trace (w in_call).
Proof.
  pose proof (callPeers_fired_calls_all (Some ana) ana_closure
                [lit "u2"; lit "u3"] in_call [8] in_call_stream eq_refl
                in_call_no_throw) as (_ & _ & _ & _ & H & _).
  exact H.
Defined.

Lemma close_all_calls_other (m : gmap jsstring nat) x c :
  c ∉ (map_to_list m).*2 →
  calls (close_all_calls m x) !! c = calls x !! c.
Proof.
  intros Hc. change (close_all_calls m x) with (close_calls (map_to_list m) x).
  rewrite close_calls_lookup, bool_decide_eq_false_2 by done.
  by destruct (calls x !! c) as [[]|].
Qed.

(** X14. The ['close'] and ['error'] handlers of a placed call delete the
    entry of its peer id whatever call the entry holds. When the entry holds a
    newer call to the same peer, that call is dropped from the map while still
    open. What goes through the map no longer reaches it: closing the calls
    of the map, as the mute and the cleanup effect do, leaves it as it is,
    and ['peer-disconnected'] for its peer does nothing. It is closed when
    the peer it was made through is destroyed, as the unmount does with the
    peer of the main effect. *)
Theorem closed_call_drops_replacement (s : state) (old new : nat)
  (p : jsstring) (k kn : call_obj) :
  calls (w s) !! old = Some k →
  call_handlers k = Some p →
  peerCallsRef s !! p = Some new →
  new ≠ old →
  (∀ q, q ≠ p → peerCallsRef s !! q ≠ Some new) →
  calls (w s) !! new = Some kn →
  let s' := on_call_closed old s in
  peerCallsRef s' = delete p (peerCallsRef s)
  ∧ calls (w s') !! new = Some kn
  ∧ calls (close_all_calls (peerCallsRef s') (w s')) !! new = Some kn
  ∧ on_peer_disconnected p s' = s'
  ∧ (∀ c, mounted s = true → main s = Some c →
       new ∈ connections_of (newPeer c) (w s) →
       ∃ kn', calls (w (unmount s')) !! new = Some kn'
              ∧ call_closed kn' = true).
Proof.
  intros Hold Hh Hp Hne Hothers Hnew s'.
  assert (Hs' : s' = set_peerCallsRef (delete p (peerCallsRef s)) s).
  { subst s'. unfold on_call_closed. by rewrite Hold, Hh. }
  split; [by rewrite Hs' |]. split; [by rewrite Hs' |].
  repeat match goal with |- _ ∧ _ => split end.
  - rewrite close_all_calls_other; [by rewrite Hs' |].
    rewrite Hs'. cbn [peerCallsRef set_peerCallsRef].
    intros Hin. apply list_elem_of_fmap in Hin as ([q c] & Hc & Hin).
    cbn in Hc. subst c. apply elem_of_map_to_list in Hin.
    destruct (decide (q = p)) as [->|Hqp].
    + by rewrite lookup_delete_eq in Hin.
    + rewrite lookup_delete_ne in Hin by done. by apply (Hothers q).
  - unfold on_peer_disconnected. rewrite Hs'.
    cbn [peerCallsRef set_peerCallsRef]. by rewrite lookup_delete_eq.
  - intros c Hm Hc Hin. unfold unmount.
    assert (mounted s' = true) as -> by (by rewrite Hs').
    cbn [w set_mounted].
    assert (Hnew' : calls (w s') !! new = Some kn) by (by rewrite Hs').
    destruct (main_cleanup_calls s' new kn Hnew') as (b & Hb & _ & Hb').
    assert (b = true) as -> by (apply (Hb' c); by rewrite Hs').
    by apply (cleanup_closed _ _ _ (media_cleanup (main_cleanup s')) new _ Hb).
Qed.

(** X15. An incoming call that is not answered. Without a peer id it is
    ignored: not answered, not closed, not tracked. With one, while there is
    no stream in the ref or the microphone was off when the main effect ran,
    it is closed and not tracked. Nothing is emitted either way. *)
Theorem incoming_call_not_answered (cl : closure) (from : jsstring)
  (s : state) :
  from = [] ∨ mediaStreamRef s = None ∨ c_micOn cl = false →
  let s' := on_peer cl (PeerCall from) s in
  peerCallsRef s' = peerCallsRef s
  ∧ calls (w s') !! next (w s)
    = Some {| call_peer := from; call_stream := None;
              call_closed := bool_decide (from ≠ []);
              call_handlers := None |}
  ∧ (∀ k, k ≠ next (w s) → calls (w s') !! k = calls (w s) !! k)
  ∧ trace (w s') = trace (w s)
  ∧ hk s' = hk s.
Proof.
  intros Hwhy s'. subst s'. unfold on_peer, incoming_call, on_incoming_call.
  cbn. rewrite lookup_insert_eq. cbn.
  destruct from as [|a from].
  - cbn. rewrite lookup_insert_eq.
    repeat match goal with |- _ ∧ _ => split end; try done.
    intros k Hk. by rewrite lookup_insert_ne.
  - assert (Hno : mediaStreamRef s = None ∨ c_micOn cl = false)
      by (by destruct Hwhy as [? | ?]).
    rewrite (bool_decide_eq_true_2 (a :: from ≠ [])) by done.
    destruct (mediaStreamRef s) as [st|], (c_micOn cl);
      try (by destruct Hno); cbn; rewrite lookup_alter_eq, lookup_insert_eq;
      (repeat match goal with |- _ ∧ _ => split end; try done;
       intros k Hk; by rewrite lookup_alter_ne, lookup_insert_ne).
Qed.

Lemma called_twice_old :
  calls (w called_twice) !! 10
  = Some {| call_peer := lit "u2"; call_stream := Some [8];
            call_closed := false; call_handlers := Some (lit "u2") |}.
Proof. by vm_compute. Qed.

Lemma called_twice_new :
  calls (w called_twice) !! 12
  = Some {| call_peer := lit "u2"; call_stream := Some [8];
            call_closed := false; call_handlers := Some (lit "u2") |}.
Proof. by vm_compute. Qed.

Lemma called_twice_entry : peerCallsRef called_twice !! lit "u2" = Some 12.
Proof. by vm_compute. Qed.

Lemma called_twice_map :
  map_to_list (peerCallsRef called_twice) = [(lit "u2", 12)].
Proof. by vm_compute. Qed.

Lemma called_twice_others :
  ∀ q, q ≠ lit "u2" → peerCallsRef called_twice !! q ≠ Some 12.
Proof.
  intros q Hq Hl. apply elem_of_map_to_list in Hl.
  rewrite called_twice_map in Hl. apply list_elem_of_singleton in Hl.
  injection Hl as ->. by apply Hq.
Qed.

Lemma closed_call_drops_replacement_witness :
  calls (close_all_calls (peerCallsRef (on_call_closed 10 called_twice))
           (w (on_call_closed 10 called_twice))) !! 12
  = Some {| call_peer := lit "u2"; call_stream := Some [8];
            call_closed := false; call_handlers := Some (lit "u2") |}.
Proof.
  assert (Hne : 12 ≠ 10) by discriminate.
  pose proof (closed_call_drops_replacement called_twice 10 12 (lit "u2")
                _ _ called_twice_old eq_refl called_twice_entry Hne
                called_twice_others called_twice_new) as (_ & _ & H & _).
  exact H.
Defined.

(** On Ana's session, after the first call to ["u2"] reports its close: the
    second call is open and out of the map, a mute leaves it open and the
    unmount, destroying the peer, closes it. *)
Example untracked_call_until_destroy :
  let s := meeting_run called_twice [CallClosed 10] in
  peerCallsRef s = ∅
  ∧ call_closed <$> calls (w s) !! 12 = Some false
  ∧ connections_of 3 (w s) = [12; 10]
  ∧ call_closed <$> calls (w (meeting_run s [ToggleMic])) !! 12 = Some false
  ∧ call_closed <$> calls (w (meeting_run s [Unmount])) !! 12 = Some true.
Proof. by vm_compute. Qed.

Lemma incoming_call_not_answered_witness :
  peerCallsRef (on_peer ana_closure (PeerCall []) in_call)
  = peerCallsRef in_call.
Proof.
  exact (proj1 (incoming_call_not_answered ana_closure [] in_call
                  (or_introl eq_refl))).
Defined.

(** ** What a run keeps: the transcript, the end of the meeting and the
    variables of the main effect *)

Section Kept.

Variables meetingId token : option jsstring.
Variable user : option User.

Local Abbreviation step' := (step meetingId token user).
Local Abbreviation run' := (run meetingId token user).

Ltac kept_auto :=
  repeat first
    [ reflexivity
    | assumption
    | progress cbn zeta
    | progress cbn [hk messages meetingEnded peerStatus on_w on_hk
                      set_mediaStreamRef
                      set_peerCallsRef set_mounted set_media set_main
                      set_sockets3 set_peer set_peerStatus set_isCreator
                      set_participants set_cameraOn set_micOn set_showChat
                      set_chatInput set_hasNewMessages]
    | match goal with
      | |- _ ∧ _ => split
      | |- context [match ?e with (_, _) => _ end] =>
          rewrite (surjective_pairing e)
      | |- context [match ?b with _ => _ end] => destruct b eqn:?
      | |- context [if ?b then _ else _] => destruct b eqn:?
      end ].

(** A refused call may set the peer status, through the ['error'] handler,
    and nothing else of the hooks. *)
Lemma chat_initiateCall pi p s : chat_kept s (initiateCall user pi p s).
Proof.
  unfold chat_kept, initiateCall, call_refused, on_peer_error. kept_auto.
Qed.

Lemma chat_callPeer_fired c p s : chat_kept s (callPeer_fired user c p s).
Proof.
  unfold callPeer_fired. destruct (_ && _); [apply chat_initiateCall | done].
Qed.

Lemma chat_callPeers_fired c l s : chat_kept s (callPeers_fired user c l s).
Proof.
  revert s. induction l as [|p l IH]; intros s; [done |].
  unfold callPeers_fired in *. cbn [foldl].
  destruct (IH (callPeer_fired user c p s)) as (H1 & H2).
  destruct (chat_callPeer_fired c p s) as (H4 & H5).
  split; congruence.
Qed.

Lemma kept_chat s s' : kept s s' → chat_kept s s'.
Proof. by intros (H1 & H2 & _). Qed.

Lemma chat_run_timer c a s : chat_kept s (run_timer user c a s).
Proof.
  destruct a; cbn [run_timer];
    [ unfold connectionTimeout_fired | | unfold joinVoiceRoom_fired
    | unfold peerReconnect_fired | apply chat_callPeers_fired
    | apply chat_callPeer_fired ]; unfold chat_kept; kept_auto.
Qed.

Lemma chat_fire i s : chat_kept s (fire user i s).
Proof.
  unfold fire. destruct (find_timer i (w s)); [| done].
  destruct (main s) eqn:Hm; [| done].
  destruct (_ <=? _)%N; [| done].
  destruct (chat_run_timer c (t_action t)
              (on_w (λ x, emit (TimerRun i) (clearTimeout i x)) s)) as [H1 H2].
  split; [exact H1 | exact H2].
Qed.

Lemma kept_ensureMedia r run s : kept s (ensureMedia r run s).
Proof. unfold kept, ensureMedia. kept_auto. Qed.

Lemma kept_settle i r s : kept s (settle i r s).
Proof.
  unfold kept, settle, requestMicrophonePermission_resume,
    ensureMedia_acquired, ensureMedia_replaced, ensureMedia_catch. kept_auto.
Qed.

Lemma kept_respond i r s : kept s (respond meetingId user i r s).
Proof.
  unfold kept, respond, hangup_resume, hangup_rest, getMeeting_resume.
  kept_auto.
Qed.

Lemma kept_cleanup so vs pe s : kept s (cleanup so vs pe s).
Proof. unfold kept, cleanup. kept_auto. Qed.

Lemma kept_media_effect r s : kept s (media_effect meetingId user r s).
Proof.
  unfold media_effect.
  destruct (kept_ensureMedia r (S (media_run s))
              (set_media (S (media_run s)) true s)) as (H1 & H2 & H3).
  set (s1 := ensureMedia _ _ _) in *. unfold kept.
  destruct (peer r), (voiceSocket r), user, (truthy meetingId); try done;
    destruct (_ && _); done.
Qed.

Lemma hk_cleanup so vs pe s : hk (cleanup so vs pe s) = hk s.
Proof. unfold cleanup. by destruct (mediaStreamRef s), so, vs, pe. Qed.

(** The effects that a render runs again read the hooks and write none. *)
Lemma hk_rerender old s : hk (rerender meetingId user old s) = hk s.
Proof.
  assert (Hm : ∀ r s, hk (media_effect meetingId user r s) = hk s).
  { intros r s0. unfold media_effect.
    destruct (ensureMedia_frame r (S (media_run s0))
                (set_media (S (media_run s0)) true s0))
      as (_ & _ & _ & _ & _ & H & _).
    set (s1 := ensureMedia _ _ _) in *.
    destruct (peer r), (voiceSocket r), user, (truthy meetingId); try done;
      destruct (_ && _); done. }
  unfold rerender. destruct (mounted s); [| done]. cbn zeta.
  destruct (media_deps_changed old (hk s)), (cleanup_deps_changed old (hk s));
    rewrite ?Hm, ?hk_cleanup; done.
Qed.

Lemma kept_unmount s : kept s (unmount s).
Proof.
  unfold unmount. destruct (mounted s); [| done].
  destruct (kept_cleanup (socket (hk s)) (voiceSocket (hk s)) (peer (hk s))
              (media_cleanup (main_cleanup s))) as (H1 & H2 & H3).
  destruct (main_cleanup_frame s) as (Hhk & _).
  repeat split; cbn [hk set_mounted]; [rewrite H1 | rewrite H2 | rewrite H3];
    change (hk (media_cleanup (main_cleanup s))) with (hk (main_cleanup s));
    by rewrite Hhk.
Qed.

(** A step leaves the transcript as it is or appends one message to it, and
    never takes back the end of the meeting. *)
Lemma chat_step s i :
  (messages (hk (step' s i)) = messages (hk s)
   ∨ ∃ a t, messages (hk (step' s i)) = append_message a t (messages (hk s)))
  ∧ (meetingEnded (hk s) = true → meetingEnded (hk (step' s i)) = true).
Proof.
  unfold step. rewrite hk_rerender.
  assert (Hk : ∀ s', chat_kept s s' →
    (messages (hk s') = messages (hk s)
     ∨ ∃ a t, messages (hk s') = append_message a t (messages (hk s)))
    ∧ (meetingEnded (hk s) = true → meetingEnded (hk s') = true)).
  { intros s' [H1 H2]. split; [by left | by rewrite H2]. }
  destruct i; cbn [handle];
    try (apply Hk; first [apply chat_fire | apply kept_chat, kept_settle
                         | apply kept_chat, kept_respond
                         | apply kept_chat, kept_unmount]);
    try (destruct (main s) as [c|] eqn:Hm; [| by apply Hk]);
    try (destruct (chat_open c s); [| by apply Hk]);
    try (destruct (voice_open c s); [| by apply Hk]);
    try (destruct (peer_alive c s); [| by apply Hk]);
    cbn [on_chat on_voice on_peer];
    try (destruct (mounted s); [| by apply Hk]).
  all: try (apply Hk; unfold chat_kept, handleConnect, on_participants_list,
              on_user_joined, on_user_left, on_socket_error, on_voice_joined,
              on_peer_joined, on_peer_disconnected, on_voice_error,
              on_peer_open, on_peer_error, on_incoming_call, incoming_call,
              on_call_closed, toggleChat, hangup, hangup_rest;
            by kept_auto).
  - unfold on_receive_message. split.
    + right. exists author, text. by destruct (negb (c_showChat c)).
    + by destruct (negb (c_showChat c)).
  - unfold on_meeting_ended. by split; [left |].
  - destruct (sendMessage_hooks meetingId user s)
      as [-> | (text & Hms & He & _)].
    + by apply Hk.
    + split; [right; eauto | by rewrite He].
Qed.

Lemma numbered_append a t ms : numbered ms → numbered (append_message a t ms).
Proof.
  unfold numbered, append_message. intros H.
  rewrite fmap_app, length_app, H. cbn [fmap list_fmap msg_id length].
  replace (length ms + 1) with (S (length ms)) by lia.
  by rewrite seq_S.
Qed.

Lemma kept_mount x :
  messages (hk (mount meetingId token user x)) = messages (initial_hooks user)
  ∧ meetingEnded (hk (mount meetingId token user x)) = false.
Proof.
  unfold mount. rewrite hk_rerender.
  destruct (kept_media_effect (hk (initial_state user x))
              (main_effect meetingId token user (hk (initial_state user x))
                 (permission_effect meetingId (initial_state user x))))
    as (H1 & H2 & _).
  rewrite H1, H2. unfold main_effect, permission_effect,
    requestMicrophonePermission.
  destruct user as [u|]; [| by destruct (truthy meetingId)].
  destruct (truthy meetingId), (truthy token); cbn [andb]; try done;
    repeat rewrite (surjective_pairing (io _));
    repeat rewrite (surjective_pairing (new_peer _ _));
    repeat rewrite (surjective_pairing (setTimeout _ _ _)); done.
Qed.

(** X16. The transcript only grows: whatever happens, the messages that were
    there stay, in their places. From the mount on it starts with the welcome
    of ['Sistema'] and its ids count 1, 2, 3, ... *)
Theorem transcript_grows :
  (∀ s l, messages (hk s) `prefix_of` messages (hk (run' s l)))
  ∧ (∀ x l,
       numbered (messages (hk (run' (mount meetingId token user x) l)))
       ∧ head (messages (hk (run' (mount meetingId token user x) l)))
         = Some {| msg_id := 1; msg_author := lit "Sistema";
                   msg_text := welcome |}).
Proof.
  assert (Hpre : ∀ l s, messages (hk s) `prefix_of` messages (hk (run' s l))).
  { induction l as [|i l IH]; intros s; [done |].
    cbn [run foldl]. etrans; [| apply IH].
    destruct (chat_step s i) as [[-> | (a & t & ->)] _]; [done |].
    by apply prefix_app_r. }
  assert (Hnum : ∀ l s, numbered (messages (hk s)) →
            numbered (messages (hk (run' s l)))).
  { induction l as [|i l IH]; intros s Hs; [done |].
    cbn [run foldl]. apply IH.
    destruct (chat_step s i) as [[-> | (a & t & ->)] _]; [done |].
    by apply numbered_append. }
  split; [intros s l; apply Hpre |]. intros x l.
  destruct (kept_mount x) as [Hm _]. split.
  - apply Hnum. by rewrite Hm.
  - destruct (Hpre l (mount meetingId token user x)) as [k Hk].
    rewrite Hk, Hm. done.
Qed.

(** X17. The end of the meeting is final: once [meetingEnded] is set no input
    clears it, and from then on sending a message changes nothing. *)
Theorem meeting_ended_final (s : state) (l : list input) :
  meetingEnded (hk s) = true →
  meetingEnded (hk (run' s l)) = true
  ∧ step' (run' s l) Send = run' s l.
Proof.
  intros He.
  assert (Hl : meetingEnded (hk (run' s l)) = true).
  { revert s He. induction l as [|i l IH]; intros s He; [done |].
    cbn [run foldl]. apply IH. by apply (chat_step s i). }
  split; [done |]. unfold step. cbn [handle].
  assert (Hsend : sendMessage meetingId user (run' s l) = run' s l).
  { unfold sendMessage. rewrite Hl.
    by destruct (trim (chatInput (hk (run' s l)))),
         (socket (hk (run' s l))). }
  assert (Hh : (if mounted (run' s l)
                then sendMessage meetingId user (run' s l) else run' s l)
               = run' s l)
    by (destruct (mounted _); [exact Hsend | done]).
  rewrite Hh. apply rerender_same_deps; apply deps_unchanged_refl.
Qed.

End Kept.

Lemma meeting_ended_final_witness :
  meetingEnded
    (hk (run (Some (lit "m1")) (Some (lit "tok")) (Some ana)
           (step (Some (lit "m1")) (Some (lit "tok")) (Some ana) in_meeting
              (MeetingEnded (lit "fin")))
           [ReceiveMessage (lit "Bo") (lit "hola"); Send]))
  = true.
Proof.
  assert (H : meetingEnded
                (hk (step (Some (lit "m1")) (Some (lit "tok")) (Some ana)
                       in_meeting (MeetingEnded (lit "fin")))) = true)
    by (by vm_compute).
  exact (proj1 (meeting_ended_final (Some (lit "m1")) (Some (lit "tok"))
                  (Some ana) _ [ReceiveMessage (lit "Bo") (lit "hola"); Send]
                  H)).
Defined.

(** *** The variables the handlers of the main effect closed over *)

Lemma reachable_mount meetingId token user x :
  reachable meetingId token user (mount meetingId token user x).
Proof. by exists x, []. Qed.

Lemma reachable_run meetingId token user s l :
  reachable meetingId token user s →
  reachable meetingId token user (run meetingId token user s l).
Proof.
  intros (x & l0 & ->). exists x, (l0 ++ l). unfold run. by rewrite foldl_app.
Qed.

Lemma reachable_step meetingId token user s i :
  reachable meetingId token user s →
  reachable meetingId token user (step meetingId token user s i).
Proof. apply (reachable_run meetingId token user s [i]). Qed.

Lemma main_mount meetingId token user x c :
  main (mount meetingId token user x) = Some c →
  c_micOn c = true ∧ c_showChat c = false.
Proof.
  unfold mount. rewrite main_rerender, main_media_effect.
  set (s0 := permission_effect meetingId (initial_state user x)).
  assert (Hm0 : main s0 = None).
  { subst s0. unfold permission_effect. by destruct (truthy meetingId). }
  unfold main_effect.
  destruct user as [u|]; [| by rewrite Hm0].
  destruct (truthy meetingId && truthy token); [| by rewrite Hm0].
  destruct (io (w s0)) as [so x1].
  destruct (io x1) as [vs x2].
  destruct (new_peer (user_id u) x2) as [pe x3].
  destruct (setTimeout ConnectionTimeout 20000 x3) as [tm x4].
  cbn [main set_main]. by intros [= <-].
Qed.

(** The handlers of the main effect are created once, at the mount, and see
    the microphone and the chat panel as they were then: on and closed. *)
Lemma reachable_closure meetingId token user s c :
  reachable meetingId token user s →
  main s = Some c →
  c_micOn c = true ∧ c_showChat c = false.
Proof.
  intros (x & l & ->). revert c.
  induction l as [|i l IH] using rev_ind; intros c Hc.
  - by apply (main_mount meetingId token user x).
  - unfold run in *. rewrite foldl_app in Hc. cbn [foldl] in Hc.
    destruct (main_step meetingId token user
                (foldl (step meetingId token user)
                   (mount meetingId token user x) l) i)
      as [Hm | (c0 & Hc0 & _ & Hm)].
    + apply IH. by rewrite <- Hm.
    + rewrite Hm in Hc. injection Hc as <-.
      destruct (IH c0 Hc0) as [H1 H2]. by split.
Qed.

(** X18. A message that arrives while the chat panel is open raises the unread
    flag all the same: the ['receive-message'] handler tests the [showChat] of
    the render the main effect ran in, which is false for good. *)
Theorem unread_flag_ignores_open_chat (meetingId token : option jsstring)
  (user : option User) (s : state) (c : closure) (author text : jsstring) :
  reachable meetingId token user s →
  main s = Some c →
  chat_open c s = true →
  let s' := step meetingId token user s (ReceiveMessage author text) in
  hasNewMessages (hk s') = true
  ∧ showChat (hk s') = showChat (hk s)
  ∧ messages (hk s') = append_message author text (messages (hk s)).
Proof.
  intros Hr Hc Hopen s'. subst s'.
  destruct (reachable_closure meetingId token user s c Hr Hc) as [_ Hshow].
  unfold step. rewrite hk_rerender. cbn [handle]. rewrite Hc, Hopen.
  cbn [on_chat]. unfold on_receive_message. by rewrite Hshow.
Qed.

(** X19. An incoming call is answered with the stream of the ref while the
    user has the microphone switched off: the ['call'] handler tests the
    [micOn] of the render the main effect ran in, which is true for good. The
    call is open, carries the stream and is tracked under the caller's id. *)
Theorem call_answered_while_muted (meetingId token : option jsstring)
  (user : option User) (s : state) (c : closure) (from : jsstring)
  (st : stream) :
  reachable meetingId token user s →
  main s = Some c →
  peer_alive c s = true →
  mediaStreamRef s = Some st →
  from ≠ [] →
  let s' := step meetingId token user s (PeerCall from) in
  micOn (hk s') = micOn (hk s)
  ∧ peerCallsRef s' = <[from := next (w s)]> (peerCallsRef s)
  ∧ calls (w s') !! next (w s)
    = Some {| call_peer := from; call_stream := Some st;
              call_closed := false; call_handlers := None |}
  ∧ trace (w s') = trace (w s).
Proof.
  intros Hr Hc Halive Href Hfrom s'.
  destruct (reachable_closure meetingId token user s c Hr Hc) as [Hmic _].
  assert (Hs' : s'
    = set_peerCallsRef (<[from := next (w s)]> (peerCallsRef s))
        (on_w (λ x, add_connection (newPeer c) (next x)
                      (set_calls (<[next x := {| call_peer := from;
                                                 call_stream := Some st;
                                                 call_closed := false;
                                                 call_handlers := None |}]>
                                    (calls x)) (set_next (S (next x)) x))) s)).
  { subst s'. unfold step. cbn [handle]. rewrite Hc, Halive.
    assert (Hh : on_peer c (PeerCall from) s
      = set_peerCallsRef (<[from := next (w s)]> (peerCallsRef s))
          (on_w (λ x, add_connection (newPeer c) (next x)
                        (set_calls (<[next x := {| call_peer := from;
                                                   call_stream := Some st;
                                                   call_closed := false;
                                                   call_handlers := None |}]>
                                      (calls x)) (set_next (S (next x)) x))) s)).
    { unfold on_peer, incoming_call, on_incoming_call. cbn.
      rewrite lookup_insert_eq. cbn. destruct from as [|a from]; [done |].
      rewrite Href, Hmic. unfold set_peerCallsRef, on_w. cbn.
      by rewrite insert_insert_eq. }
    rewrite Hh. apply rerender_same_deps; by apply deps_unchanged. }
  rewrite Hs'. cbn. by rewrite lookup_insert_eq.
Qed.

Lemma in_meeting_reachable :
  reachable (Some (lit "m1")) (Some (lit "tok")) (Some ana) in_meeting.
Proof. apply reachable_mount. Qed.

Lemma chat_opened_reachable :
  reachable (Some (lit "m1")) (Some (lit "tok")) (Some ana) chat_opened.
Proof. apply reachable_run, in_meeting_reachable. Qed.

Lemma chat_opened_main : main chat_opened = Some ana_closure.
Proof. by vm_compute. Qed.

Lemma chat_opened_chat : chat_open ana_closure chat_opened = true.
Proof. by vm_compute. Qed.

Lemma unread_flag_ignores_open_chat_witness :
  hasNewMessages
    (hk (step (Some (lit "m1")) (Some (lit "tok")) (Some ana) chat_opened
           (ReceiveMessage (lit "Bo") (lit "hola")))) = true.
Proof.
  exact (proj1 (unread_flag_ignores_open_chat (Some (lit "m1"))
                  (Some (lit "tok")) (Some ana) chat_opened ana_closure
                  (lit "Bo") (lit "hola") chat_opened_reachable
                  chat_opened_main chat_opened_chat)).
Defined.

(** On Ana's session the panel is open when the message arrives. *)
Example unread_flag_with_open_chat :
  showChat (hk chat_opened) = true
  ∧ hasNewMessages
      (hk (meeting_run chat_opened [ReceiveMessage (lit "Bo") (lit "hola")]))
    = true.
Proof. by vm_compute. Qed.

Lemma muted_reachable :
  reachable (Some (lit "m1")) (Some (lit "tok")) (Some ana) muted.
Proof. apply reachable_run, reachable_run, in_meeting_reachable. Qed.

Lemma muted_main : main muted = Some ana_closure.
Proof. by vm_compute. Qed.

Lemma muted_alive : peer_alive ana_closure muted = true.
Proof. by vm_compute. Qed.

Lemma muted_stream : mediaStreamRef muted = Some [8].
Proof. by vm_compute. Qed.

Lemma call_answered_while_muted_witness :
  micOn (hk (step (Some (lit "m1")) (Some (lit "tok")) (Some ana) muted
               (PeerCall (lit "u3"))))
  = micOn (hk muted).
Proof.
  assert (Hne : lit "u3" ≠ []) by discriminate.
  exact (proj1 (call_answered_while_muted (Some (lit "m1"))
                  (Some (lit "tok")) (Some ana) muted ana_closure
                  (lit "u3") [8] muted_reachable muted_main muted_alive
                  muted_stream Hne)).
Defined.

(** ** A peer error and the reconnection *)

Section PeerError.

Variables meetingId token : option jsstring.
Variable user : option User.

Local Abbreviation step' := (step meetingId token user).
Local Abbreviation run' := (run meetingId token user).

(** X20. A peer error of type ['network'] or ['disconnected'], or whose
    message mentions ["1006"] or ["Lost connection"], sets the status to
    ['error'] and one timer 10 seconds ahead; any other error changes nothing.
    The callback of the timer does not run before the 10 seconds are over;
    when it runs, the peer not being destroyed and [reconnect] going through,
    the status is ['connecting'] again, the same peer is connected again and
    stays the peer of the hook. *)
Theorem peer_error_recovery (s : state) (c : closure) (p : peer_obj)
  (type msg : jsstring) (early late : N) :
  main s = Some c →
  peers (w s) !! newPeer c = Some p →
  destroyed p = false →
  reconnect_throws (w s) = false →
  timers_fresh (w s) →
  (early < 10000)%N →
  (10000 <= late)%N →
  let k := next (w s) in
  let s1 := step' s (PeerErr type msg) in
  let s_early := run' s1 [Tick early; Fire k] in
  let s_late := run' s1 [Tick late; Fire k] in
  if connection_error type msg then
    peerStatus (hk s1) = StatusError
    ∧ timers (w s1)
      = timers (w s) ++ [{| t_id := k; t_due := (now (w s) + 10000)%N;
                            t_action := PeerReconnect |}]
    ∧ trace (w s1) = trace (w s)
    ∧ peerStatus (hk s_early) = StatusError
    ∧ trace (w s_early) = trace (w s1)
    ∧ peerStatus (hk s_late) = StatusConnecting
    ∧ peers (w s_late) !! newPeer c
      = Some {| peer_identity := peer_identity p; disconnected := false;
                destroyed := false |}
    ∧ peer (hk s_late) = peer (hk s)
    ∧ trace (w s_late) = trace (w s1) ++ [TimerRun k]
  else s1 = s.
Proof.
  intros Hc Hp Hd Hthrow Hwf Hearly Hlate k s1 s_early s_late.
  assert (Halive : peer_alive c s = true).
  { unfold peer_alive. by rewrite Hp, Hd. }
  assert (Hs1 : s1 = on_peer_error type msg s).
  { subst s1. unfold step. cbn [handle]. rewrite Hc, Halive. cbn [on_peer].
    apply rerender_same_deps; unfold on_peer_error;
      destruct (_ || _); by apply deps_unchanged. }
  unfold connection_error.
  destruct (bool_decide (type = lit "network")
            || bool_decide (type = lit "disconnected")
            || includes msg (lit "1006")
            || includes msg (lit "Lost connection")) eqn:Hmatch.
  2: { rewrite Hs1. unfold on_peer_error. by rewrite Hmatch. }
  assert (Hs1' : s1 = on_w (λ x, (setTimeout PeerReconnect 10000 x).2)
                        (on_hk (set_peerStatus StatusError) s)).
  { rewrite Hs1. unfold on_peer_error. by rewrite Hmatch. }
  assert (Hfind : ∀ dt, find_timer k (set_now (now (w s1) + dt)%N (w s1))
            = Some {| t_id := k; t_due := (now (w s) + 10000)%N;
                      t_action := PeerReconnect |}).
  { intros dt. rewrite Hs1'. cbn [w on_w on_hk].
    exact (find_timer_fresh (w s) PeerReconnect 10000 Hwf). }
  assert (Htick : ∀ dt, step' s1 (Tick dt)
            = on_w (λ x, set_now (now x + dt)%N x) s1).
  { intros dt. unfold step. cbn [handle].
    apply rerender_same_deps; by apply deps_unchanged. }
  assert (Hmain1 : main s1 = Some c) by (by rewrite Hs1').
  assert (Hnow1 : now (w s1) = now (w s)) by (by rewrite Hs1').
  assert (Hlate_s : s_late
    = on_w (peer_reconnect (newPeer c))
        (on_hk (set_peerStatus StatusConnecting)
           (on_w (λ x, emit (TimerRun k) (clearTimeout k x))
              (on_w (λ x, set_now (now x + late)%N x) s1)))).
  { subst s_late. cbn [run foldl]. rewrite Htick. unfold step.
    cbn [handle]. unfold fire. cbn [w on_w main]. rewrite Hfind, Hmain1.
    cbn [t_due t_action now set_now run_timer].
    rewrite (proj2 (N.leb_le _ _)) by lia.
    unfold peerReconnect_fired. cbn [w on_w on_hk].
    assert (Hpeers : peers (emit (TimerRun k)
                              (clearTimeout k
                                 (set_now (now (w s1) + late)%N (w s1))))
                     = peers (w s)) by (by rewrite Hs1').
    rewrite Hpeers, Hp, Hd. cbn [negb].
    assert (Hthrow' : reconnect_throws
                        (emit (TimerRun k)
                           (clearTimeout k
                              (set_now (now (w s1) + late)%N (w s1))))
                      = false) by (by rewrite Hs1').
    rewrite Hthrow'.
    apply rerender_same_deps; by apply deps_unchanged. }
  split; [by rewrite Hs1' |]. split; [by rewrite Hs1' |].
  split; [by rewrite Hs1' |].
  assert (Hearly_s : s_early = on_w (λ x, set_now (now x + early)%N x) s1).
  { subst s_early. cbn [run foldl]. rewrite Htick. unfold step.
    cbn [handle]. unfold fire. cbn [w on_w main]. rewrite Hfind, Hmain1.
    cbn [t_due now set_now].
    rewrite (proj2 (N.leb_gt _ _)) by lia.
    by rewrite rerender_same_deps by (by apply deps_unchanged). }
  split; [by rewrite Hearly_s, Hs1' |]. split; [by rewrite Hearly_s |].
  split; [by rewrite Hlate_s |]. split.
  { rewrite Hlate_s. cbn [w on_w on_hk peer_reconnect peers set_peers].
    rewrite lookup_alter_eq.
    assert (Hpeers : peers (emit (TimerRun k)
                              (clearTimeout k
                                 (set_now (now (w s1) + late)%N (w s1))))
                     = peers (w s)) by (by rewrite Hs1').
    rewrite Hpeers, Hp. cbn. by rewrite Hd. }
  split; [by rewrite Hlate_s, Hs1' |]. by rewrite Hlate_s.
Qed.

End PeerError.

Lemma in_meeting_timers_fresh : timers_fresh (w in_meeting).
Proof. apply in_meeting_fresh. Qed.

Lemma in_meeting_reconnects : reconnect_throws (w in_meeting) = false.
Proof. by vm_compute. Qed.

Lemma network_error_matches :
  connection_error (lit "network") (lit "Lost connection to server.") = true.
Proof. by vm_compute. Qed.

Lemma peer_error_recovery_witness :
  peerStatus
    (hk (step (Some (lit "m1")) (Some (lit "tok")) (Some ana) in_meeting
           (PeerErr (lit "network") (lit "Lost connection to server."))))
  = StatusError.
Proof.
  assert (H1 : (9999 < 10000)%N) by (by vm_compute).
  assert (H2 : (10000 <= 10000)%N) by (by vm_compute).
  pose proof (peer_error_recovery (Some (lit "m1")) (Some (lit "tok"))
                (Some ana) in_meeting ana_closure
                {| peer_identity := lit "u1"; disconnected := false;
                   destroyed := false |}
                (lit "network") (lit "Lost connection to server.")
                9999 10000 in_meeting_main in_meeting_peer eq_refl
                in_meeting_reconnects in_meeting_timers_fresh H1 H2) as H.
  cbv zeta in H. rewrite network_error_matches in H.
  exact (proj1 H).
Defined.

(** ** What is closed stays closed

    No handler reopens a socket it disconnected or revives a peer it
    destroyed: every handler takes the world to a later one in the sense of
    [gone]. The lemmas are in the style of those for [grows]. *)

Lemma gone_refl x : gone x x.
Proof.
  split; [done |]. split; [done |]. intros h p _ Hp Hd Hc. eauto.
Qed.

Lemma gone_same x y y' :
  next y ≤ next y' → sockets y' = sockets y → peers y' = peers y →
  gone x y → gone x y'.
Proof.
  intros Hn Hs Hp (H1 & H2 & H3). split; [lia |].
  rewrite Hs, Hp. by split.
Qed.

Lemma gone_set_tracks x y v : gone x y → gone x (set_tracks v y).
Proof. by apply gone_same. Qed.
Lemma gone_set_calls x y v : gone x y → gone x (set_calls v y).
Proof. by apply gone_same. Qed.
Lemma gone_set_now x y v : gone x y → gone x (set_now v y).
Proof. by apply gone_same. Qed.
Lemma gone_set_pending x y v : gone x y → gone x (set_pending v y).
Proof. by apply gone_same. Qed.
Lemma gone_set_library x y r c : gone x y → gone x (set_library r c y).
Proof. by apply gone_same. Qed.
Lemma gone_set_connections x y v : gone x y → gone x (set_connections v y).
Proof. by apply gone_same. Qed.
Lemma gone_add_connection x y h c : gone x y → gone x (add_connection h c y).
Proof. by apply gone_same. Qed.
Lemma gone_fresh x y : gone x y → gone x (fresh y).2.
Proof. apply gone_same; cbn; [lia | done..]. Qed.
Lemma gone_emit x y e : gone x y → gone x (emit e y).
Proof. by apply gone_same. Qed.
Lemma gone_setTimeout x y a d : gone x y → gone x (setTimeout a d y).2.
Proof. apply gone_same; cbn; [lia | done..]. Qed.
Lemma gone_clearTimeout x y i : gone x y → gone x (clearTimeout i y).
Proof. by apply gone_same. Qed.
Lemma gone_suspend x y k : gone x y → gone x (suspend k y).
Proof. apply gone_same; cbn; [lia | done..]. Qed.
Lemma gone_track_stop x y t : gone x y → gone x (track_stop t y).
Proof. by apply gone_same. Qed.
Lemma gone_track_set_enabled x y b t :
  gone x y → gone x (track_set_enabled b t y).
Proof. by apply gone_same. Qed.
Lemma gone_stop_tracks x y st : gone x y → gone x (stop_tracks st y).
Proof. rewrite stop_tracks_frame. by apply gone_same. Qed.
Lemma gone_call_close x y c : gone x y → gone x (call_close c y).
Proof. by apply gone_same. Qed.
Lemma gone_close_all_calls x y m : gone x y → gone x (close_all_calls m y).
Proof. rewrite close_all_calls_frame. by apply gone_same. Qed.
Lemma gone_drop_pending x y i : gone x y → gone x (drop_pending i y).
Proof. by apply gone_same. Qed.
Lemma gone_new_track x y k : gone x y → gone x (new_track k y).2.
Proof. apply gone_same; cbn; [lia | done..]. Qed.
Lemma gone_new_stream x y v a : gone x y → gone x (new_stream v a y).2.
Proof.
  intros H. destruct (new_stream_spec v a y) as (_ & Hy & Hn & _).
  rewrite Hy. revert H. apply gone_same; cbn; [lia | done..].
Qed.
Lemma gone_incoming_call x y h from :
  gone x y → gone x (incoming_call h from y).2.
Proof. apply gone_same; cbn; [lia | done..]. Qed.

Lemma gone_socket_disconnect x y h : gone x y → gone x (socket_disconnect h y).
Proof.
  intros (H1 & H2 & H3). split; [done |]. split; [| done].
  intros h' Hlt Hh. cbn. destruct (decide (h = h')) as [->|Hne].
  - by rewrite lookup_insert_eq.
  - rewrite lookup_insert_ne by done. by apply H2.
Qed.

Lemma gone_io x y : gone x y → gone x (io y).2.
Proof.
  intros (H1 & H2 & H3). split; [cbn; lia |]. split; [| done].
  intros h Hlt Hh. cbn. rewrite lookup_insert_ne by lia. by apply H2.
Qed.

Lemma gone_new_peer x y ident : gone x y → gone x (new_peer ident y).2.
Proof.
  intros (H1 & H2 & H3). split; [cbn; lia |]. split; [done |].
  intros h p Hlt Hp Hd Hc. cbn. rewrite lookup_insert_ne by lia. eauto.
Qed.

Lemma gone_peer_destroy x y h : gone x y → gone x (peer_destroy h y).
Proof.
  intros (H1 & H2 & H3). rewrite peer_destroy_frame.
  split; [done |]. split; [done |].
  intros h' p Hlt Hp Hd Hc. cbn.
  destruct (H3 h' p Hlt Hp Hd Hc) as (p' & Hp' & Hd' & Hc').
  destruct (decide (h = h')) as [->|Hne].
  - rewrite lookup_alter_eq, Hp'. cbn. eauto.
  - rewrite lookup_alter_ne by done. eauto.
Qed.

Lemma gone_peer_lost x y h : gone x y → gone x (peer_lost h y).
Proof.
  intros (H1 & H2 & H3). split; [done |]. split; [done |].
  intros h' p Hlt Hp Hd Hc. cbn.
  destruct (H3 h' p Hlt Hp Hd Hc) as (p' & Hp' & Hd' & Hc').
  destruct (decide (h = h')) as [->|Hne].
  - rewrite lookup_alter_eq, Hp'. cbn. eauto.
  - rewrite lookup_alter_ne by done. eauto.
Qed.

(** [reconnect] on a peer that is not destroyed revives no destroyed one. *)
Lemma gone_peer_reconnect x y h q :
  peers y !! h = Some q → destroyed q = false →
  gone x y → gone x (peer_reconnect h y).
Proof.
  intros Hq Hlive (H1 & H2 & H3). split; [done |]. split; [done |].
  intros h' p Hlt Hp Hd Hc. cbn.
  destruct (H3 h' p Hlt Hp Hd Hc) as (p' & Hp' & Hd' & Hc').
  destruct (decide (h = h')) as [->|Hne].
  - congruence.
  - rewrite lookup_alter_ne by done. eauto.
Qed.

Section GoneHandlers.

Variables meetingId token : option jsstring.
Variable user : option User.

Ltac gone_prim :=
  first
    [ assumption
    | apply gone_emit | apply gone_set_tracks | apply gone_set_calls
    | apply gone_set_now | apply gone_set_pending | apply gone_set_library
    | apply gone_set_connections | apply gone_add_connection
    | apply gone_fresh | apply gone_setTimeout | apply gone_clearTimeout
    | apply gone_suspend | apply gone_track_stop
    | apply gone_track_set_enabled | apply gone_stop_tracks
    | apply gone_socket_disconnect | apply gone_peer_destroy
    | apply gone_peer_lost | apply gone_call_close
    | apply gone_close_all_calls | apply gone_drop_pending
    | apply gone_new_peer | apply gone_io | apply gone_new_track
    | apply gone_new_stream | apply gone_incoming_call ].

Ltac gone_split :=
  match goal with
  | |- context [match ?e with (_, _) => _ end] =>
      rewrite (surjective_pairing e)
  | |- context [match ?b with _ => _ end] => destruct b eqn:?
  | |- context [if ?b then _ else _] => destruct b eqn:?
  end.

Ltac gone_state :=
  progress cbn [w on_w on_hk set_mediaStreamRef set_peerCallsRef set_main
                  set_mounted set_media fst snd].

Ltac gone_auto := repeat first [gone_prim | gone_state | gone_split].

Lemma gone_requestMicrophonePermission_resume x r s :
  gone x (w s) → gone x (w (requestMicrophonePermission_resume r s)).
Proof. intros H. unfold requestMicrophonePermission_resume. gone_auto. Qed.

Lemma gone_connectionTimeout_fired x c s :
  gone x (w s) → gone x (w (connectionTimeout_fired c s)).
Proof. intros H. unfold connectionTimeout_fired. gone_auto. Qed.

Lemma gone_getMeeting_resume x u r s :
  gone x (w s) → gone x (w (getMeeting_resume u r s)).
Proof. intros H. unfold getMeeting_resume. gone_auto. Qed.

Lemma gone_initiateCall x pi p s :
  gone x (w s) → gone x (w (initiateCall user pi p s)).
Proof.
  intros H. unfold initiateCall. destruct (mediaStreamRef s); [| done].
  destruct (bool_decide _); [done |].
  destruct (call_throws (w s)); [| gone_auto].
  unfold call_refused. destruct (peers (w s) !! pi), (main s); try done.
  destruct (_ && _); [| done]. unfold on_peer_error. gone_auto.
Qed.

Lemma gone_on_incoming_call x cl c s :
  gone x (w s) → gone x (w (on_incoming_call cl c s)).
Proof. intros H. unfold on_incoming_call. gone_auto. Qed.

Lemma gone_peerReconnect_fired x c s :
  gone x (w s) → gone x (w (peerReconnect_fired c s)).
Proof.
  intros H. unfold peerReconnect_fired.
  destruct (peers (w s) !! newPeer c) as [p|] eqn:Hp; [| done].
  destruct (destroyed p) eqn:Hd; [done |]. cbn [negb].
  cbn [w on_hk]. destruct (reconnect_throws (w s)).
  - rewrite (surjective_pairing (new_peer _ _)). gone_auto.
  - cbn [w on_w]. by apply (gone_peer_reconnect _ _ _ p).
Qed.

Lemma gone_callPeer_fired x c p s :
  gone x (w s) → gone x (w (callPeer_fired user c p s)).
Proof.
  intros H. unfold callPeer_fired.
  destruct (_ && _); [by apply gone_initiateCall | done].
Qed.

Lemma gone_callPeers_fired x c l s :
  gone x (w s) → gone x (w (callPeers_fired user c l s)).
Proof.
  revert s. induction l as [|p l IH]; intros s H; [done |].
  unfold callPeers_fired in *. cbn [foldl]. by apply IH, gone_callPeer_fired.
Qed.

Lemma gone_hangup_rest x vs s :
  gone x (w s) → gone x (w (hangup_rest meetingId user vs s)).
Proof. intros H. unfold hangup_rest. gone_auto. Qed.

Lemma gone_ensureMedia x r run s :
  gone x (w s) → gone x (w (ensureMedia r run s)).
Proof. intros H. unfold ensureMedia. gone_auto. Qed.

Lemma gone_ensureMedia_catch x n s :
  gone x (w s) → gone x (w (ensureMedia_catch n s)).
Proof. intros H. unfold ensureMedia_catch. gone_auto. Qed.

Lemma gone_media_effect x r s :
  gone x (w s) → gone x (w (media_effect meetingId user r s)).
Proof.
  intros H. unfold media_effect.
  assert (gone x (w (ensureMedia r (S (media_run s))
                       (set_media (S (media_run s)) true s))))
    by (by apply gone_ensureMedia).
  gone_auto.
Qed.

Lemma gone_cleanup x so vs pe s :
  gone x (w s) → gone x (w (cleanup so vs pe s)).
Proof.
  intros H. rewrite cleanup_world. apply gone_close_all_calls.
  destruct pe, vs, so, (mediaStreamRef s); cbn [if_any]; gone_auto.
Qed.

Lemma gone_main_cleanup x s : gone x (w s) → gone x (w (main_cleanup s)).
Proof. intros H. unfold main_cleanup. gone_auto. Qed.

Lemma gone_run_timer x c a s :
  gone x (w s) → gone x (w (run_timer user c a s)).
Proof.
  intros H. destruct a; cbn [run_timer].
  - by apply gone_connectionTimeout_fired.
  - gone_auto.
  - unfold joinVoiceRoom_fired. gone_auto.
  - by apply gone_peerReconnect_fired.
  - by apply gone_callPeers_fired.
  - by apply gone_callPeer_fired.
Qed.

Lemma gone_fire x i s : gone x (w s) → gone x (w (fire user i s)).
Proof.
  intros H. unfold fire.
  destruct (find_timer i (w s)) as [t|]; [| done].
  destruct (main s) as [c|]; [| done].
  destruct (_ <=? _)%N; [| done].
  apply gone_run_timer. gone_auto.
Qed.

Lemma gone_settle x i r s : gone x (w s) → gone x (w (settle i r s)).
Proof.
  intros H. unfold settle.
  destruct (find_pending i (w s)) as [[]|]; try done.
  - apply gone_requestMicrophonePermission_resume. gone_auto.
  - unfold ensureMedia_acquired.
    destruct r; [gone_auto | apply gone_ensureMedia_catch; gone_auto].
  - unfold ensureMedia_replaced.
    destruct r; [gone_auto | apply gone_ensureMedia_catch; gone_auto].
Qed.

Lemma gone_respond x i r s :
  gone x (w s) → gone x (w (respond meetingId user i r s)).
Proof.
  intros H. unfold respond.
  destruct (find_pending i (w s)) as [[]|]; try done.
  - unfold hangup_resume. apply gone_hangup_rest. gone_auto.
  - apply gone_getMeeting_resume. gone_auto.
Qed.

Lemma gone_unmount x s : gone x (w s) → gone x (w (unmount s)).
Proof.
  intros H. unfold unmount. destruct (mounted s); [| done].
  cbn [w set_mounted]. apply gone_cleanup.
  unfold media_cleanup. cbn [w set_media]. by apply gone_main_cleanup.
Qed.

Lemma gone_handle x i s :
  gone x (w s) → gone x (w (handle meetingId token user i s)).
Proof.
  intros H.
  destruct i; cbn [handle];
    try (destruct (main s) as [c|] eqn:Hm; [| done]);
    try (destruct (chat_open c s); [| done]);
    try (destruct (voice_open c s); [| done]);
    try (destruct (peer_alive c s); [| done]);
    cbn [on_chat on_voice on_peer];
    try (destruct (mounted s); [| done]);
    first [ by apply gone_fire | by apply gone_settle | by apply gone_respond
          | by apply gone_unmount | by apply gone_hangup_rest | idtac ].
  all: try (unfold handleConnect, on_receive_message, on_participants_list,
              on_meeting_ended, on_user_joined, on_user_left,
              on_socket_error, on_voice_joined, on_peer_joined,
              on_peer_disconnected, on_voice_error, on_peer_open,
              on_peer_error, on_call_closed, sendMessage, toggleChat;
            by gone_auto).
  - rewrite (surjective_pairing (incoming_call (newPeer c) from (w s))).
    apply gone_on_incoming_call. gone_auto.
  - unfold hangup. destruct (_ && _); [gone_auto |].
    by apply gone_hangup_rest.
Qed.

Lemma gone_rerender x old s :
  gone x (w s) → gone x (w (rerender meetingId user old s)).
Proof.
  intros H. unfold rerender. destruct (mounted s); [| done].
  cbn zeta.
  destruct (media_deps_changed old (hk s)), (cleanup_deps_changed old (hk s));
    repeat first [ assumption | apply gone_media_effect | apply gone_cleanup
                 | progress (unfold media_cleanup; cbn [w set_media]) ].
Qed.

Lemma gone_step s i : gone (w s) (w (step meetingId token user s i)).
Proof. unfold step. apply gone_rerender, gone_handle, gone_refl. Qed.

Lemma gone_run s l : gone (w s) (w (run meetingId token user s l)).
Proof.
  unfold run. revert s.
  induction l as [|i l IH]; intros s; [apply gone_refl |].
  cbn [foldl].
  destruct (gone_step s i) as (H1 & H2 & H3).
  destruct (IH (step meetingId token user s i)) as (H4 & H5 & H6).
  split; [lia |]. split.
  - intros h Hlt Hh. apply H5; [lia | by apply H2].
  - intros h p Hlt Hp Hd Hc.
    destruct (H3 h p Hlt Hp Hd Hc) as (p' & Hp' & Hd' & Hc').
    apply (H6 h p'); [lia | done..].
Qed.

End GoneHandlers.

(** X21. What is closed stays closed: in no run of the component is a socket
    that was disconnected connected again, or a peer that was destroyed in use
    again. *)
Theorem closed_stays_closed (meetingId token : option jsstring)
  (user : option User) (s : state) (l : list input) :
  let s' := run meetingId token user s l in
  (∀ h, h < next (w s) → sockets (w s) !! h = Some true →
     sockets (w s') !! h = Some true)
  ∧ (∀ h p, h < next (w s) → peers (w s) !! h = Some p →
       destroyed p = true → disconnected p = true →
       ∃ p', peers (w s') !! h = Some p'
             ∧ destroyed p' = true ∧ disconnected p' = true).
Proof.
  intros s'. destruct (gone_run meetingId token user s l) as (_ & H1 & H2).
  by split.
Qed.

(** ** A change of the [peer] hook runs the cleanup effect *)

Lemma close_all_calls_empty x : close_all_calls ∅ x = x.
Proof. unfold close_all_calls. by rewrite map_to_list_empty. Qed.

(** The media effect on a component without a stream and without calls asks
    for the device, or does nothing. *)
Lemma media_effect_no_stream meetingId user r s :
  mediaStreamRef s = None →
  peerCallsRef s = ∅ →
  let s' := media_effect meetingId user r s in
  mediaStreamRef s' = None ∧ peerCallsRef s' = ∅
  ∧ tracks (w s') = tracks (w s) ∧ sockets (w s') = sockets (w s)
  ∧ peers (w s') = peers (w s) ∧ calls (w s') = calls (w s)
  ∧ mounted s' = mounted s.
Proof.
  intros Href Hmap s'. subst s'. unfold media_effect, ensureMedia.
  cbn [mediaStreamRef set_media]. rewrite Href.
  assert (Hno : bool_decide (is_Some (@None stream)) = false).
  { apply bool_decide_eq_false_2. by intros [? ?]. }
  destruct (micOn r); cbn [mediaStreamRef on_w set_media]; rewrite Href, Hno;
    rewrite ?andb_false_r;
    destruct (peer r), (voiceSocket r), user, (truthy meetingId);
    cbn [peerCallsRef on_w set_media set_peerCallsRef mediaStreamRef w mounted];
    rewrite ?Hmap, ?close_all_calls_empty; done.
Qed.

(** A render of a mounted component whose [peer] hook differs from the one
    of the previous render [old] runs the cleanup of [old] and then the media
    effect. *)
Lemma rerender_peer_changed meetingId user (old : hooks) (s1 : state) :
  mounted s1 = true →
  peer (hk s1) ≠ peer old →
  let s' := rerender meetingId user old s1 in
  mediaStreamRef s' = None
  ∧ peerCallsRef s' = ∅
  ∧ (∀ h, socket old = Some h ∨ voiceSocket old = Some h →
       sockets (w s') !! h = Some true)
  ∧ (∀ h p, peer old = Some h → peers (w s1) !! h = Some p →
       peers (w s') !! h
       = Some {| peer_identity := peer_identity p; disconnected := true;
                 destroyed := true |})
  ∧ (∀ st t tr, mediaStreamRef s1 = Some st → t ∈ st →
       tracks (w s1) !! t = Some tr →
       ∃ tr', tracks (w s') !! t = Some tr' ∧ stopped tr' = true)
  ∧ (∀ k c co, peerCallsRef s1 !! k = Some c → calls (w s1) !! c = Some co →
       ∃ co', calls (w s') !! c = Some co' ∧ call_closed co' = true).
Proof.
  intros Hm Hpeer s'.
  set (s2 := cleanup (socket old) (voiceSocket old) (peer old)
               (media_cleanup s1)).
  assert (Hs' : s' = media_effect meetingId user (hk s1) s2).
  { subst s' s2. unfold rerender. rewrite Hm. cbn zeta.
    assert (media_deps_changed old (hk s1) = true) as ->.
    { unfold media_deps_changed. rewrite bool_decide_eq_false_2; [done |].
      intros (_ & _ & H & _). by apply Hpeer. }
    assert (cleanup_deps_changed old (hk s1) = true) as ->.
    { unfold cleanup_deps_changed. rewrite bool_decide_eq_false_2; [done |].
      intros (_ & _ & H). by apply Hpeer. }
    done. }
  destruct (cleanup_refs (socket old) (voiceSocket old) (peer old)
              (media_cleanup s1)) as [Href Hmap].
  fold s2 in Href, Hmap.
  destruct (media_effect_no_stream meetingId user (hk s1) s2 Href Hmap)
    as (Hr & Hc & Htk & Hso & Hpe & Hcl & _).
  rewrite <- Hs' in Hr, Hc, Htk, Hso, Hpe, Hcl.
  split; [done |]. split; [done |].
  split; [| split; [| split]].
  - intros h Hh. rewrite Hso. subst s2. rewrite cleanup_sockets.
    destruct Hh as [Hh | Hh].
    + rewrite (bool_decide_eq_true_2 (socket old = Some h)) by done.
      by destruct (bool_decide _).
    + by rewrite bool_decide_eq_true_2.
  - intros h p Hh Hp. rewrite Hpe. subst s2. rewrite cleanup_peers.
    change (w (media_cleanup s1)) with (w s1). rewrite Hp. cbn.
    by rewrite bool_decide_eq_true_2.
  - intros st t tr Hst Ht Hl. rewrite Htk. subst s2.
    rewrite cleanup_tracks.
    change (mediaStreamRef (media_cleanup s1)) with (mediaStreamRef s1).
    change (w (media_cleanup s1)) with (w s1).
    rewrite Hst, stop_tracks_lookup, Hl. cbn.
    rewrite bool_decide_eq_true_2 by done. eauto.
  - intros k c co Hk Hco. rewrite Hcl. subst s2.
    erewrite cleanup_calls; [eauto | exact Hk | exact Hco].
Qed.

(** X22. The cleanup effect depends on [socket], [voiceSocket] and [peer]. A
    step of a mounted component that changes the [peer] hook therefore runs
    the cleanup of the previous render: the sockets of that render are
    disconnected, its peer is destroyed, the tracks of the stream are stopped
    and the ref is nulled, the calls are closed and the call map is emptied.
    This is what the recovery of the connection timeout and of a failed
    reconnection does when it stores a new peer. *)
Theorem peer_change_runs_cleanup (meetingId token : option jsstring)
  (user : option User) (s : state) (i : input) :
  mounted (handle meetingId token user i s) = true →
  peer (hk (handle meetingId token user i s)) ≠ peer (hk s) →
  let s1 := handle meetingId token user i s in
  let s' := step meetingId token user s i in
  mediaStreamRef s' = None
  ∧ peerCallsRef s' = ∅
  ∧ (∀ h, socket (hk s) = Some h ∨ voiceSocket (hk s) = Some h →
       sockets (w s') !! h = Some true)
  ∧ (∀ h p, peer (hk s) = Some h → peers (w s1) !! h = Some p →
       ∃ p', peers (w s') !! h = Some p'
             ∧ destroyed p' = true ∧ disconnected p' = true)
  ∧ (∀ st t tr, mediaStreamRef s1 = Some st → t ∈ st →
       tracks (w s1) !! t = Some tr →
       ∃ tr', tracks (w s') !! t = Some tr' ∧ stopped tr' = true)
  ∧ (∀ k c co, peerCallsRef s1 !! k = Some c → calls (w s1) !! c = Some co →
       ∃ co', calls (w s') !! c = Some co' ∧ call_closed co' = true).
Proof.
  intros Hm Hpeer s1 s'. subst s'. unfold step. fold s1.
  destruct (rerender_peer_changed meetingId user (hk s) s1 Hm Hpeer)
    as (H1 & H2 & H3 & H4 & H5 & H6).
  repeat match goal with |- _ ∧ _ => split end; try done.
  intros h p Hh Hp. rewrite (H4 h p Hh Hp). eauto.
Qed.

(** ** After the peer of the main effect is destroyed *)

Section Frozen.

Variables meetingId token : option jsstring.
Variable user : option User.

Local Abbreviation step' := (step meetingId token user).
Local Abbreviation run' := (run meetingId token user).

Lemma peer_gone_not_alive c s : peer_gone c s → peer_alive c s = false.
Proof.
  intros (_ & p & Hp & Hd & _). unfold peer_alive. by rewrite Hp, Hd.
Qed.

Lemma status_refl s : status_or_error s s.
Proof. by left. Qed.

Lemma status_trans s1 s2 s3 :
  status_or_error s1 s2 → status_or_error s2 s3 → status_or_error s1 s3.
Proof.
  unfold status_or_error. intros [H1 | H1] [H2 | H2]; rewrite ?H2, ?H1; auto.
Qed.

(** A call that is refused runs the ['error'] handler, which sets
    ['error']; a call that goes through writes no hook. *)
Lemma status_initiateCall pi p s :
  status_or_error s (initiateCall user pi p s).
Proof.
  unfold status_or_error, initiateCall, call_refused, on_peer_error.
  destruct (mediaStreamRef s); [| by left].
  destruct (bool_decide _); [by left |].
  destruct (call_throws (w s)); [| by left].
  destruct (peers (w s) !! pi), (main s); try (by left).
  destruct (_ && _); [| by left]. destruct (_ || _); [by right | by left].
Qed.

Lemma status_callPeer_fired c p s :
  status_or_error s (callPeer_fired user c p s).
Proof.
  unfold callPeer_fired.
  destruct (_ && _); [apply status_initiateCall | apply status_refl].
Qed.

Lemma status_callPeers_fired c l s :
  status_or_error s (callPeers_fired user c l s).
Proof.
  revert s. induction l as [|p l IH]; intros s; [apply status_refl |].
  unfold callPeers_fired in *. cbn [foldl].
  exact (status_trans _ _ _ (status_callPeer_fired c p s) (IH _)).
Qed.

(** The handlers that set ['connecting'] or ['connected'] belong to the peer
    of the main effect or test it: with that peer destroyed none of them
    writes the status. What is left is a timer placing a call. *)
Lemma status_handle_other c i s :
  main s = Some c → peer_gone c s → (∀ t, i ≠ Fire t) →
  peerStatus (hk (handle meetingId token user i s)) = peerStatus (hk s).
Proof.
  intros Hc Hgone Hi. pose proof (peer_gone_not_alive c s Hgone) as Halive.
  destruct Hgone as (Hlt & p & Hp & Hd & Hdc).
  destruct i; try (exfalso; by eapply Hi);
    cbn [handle]; rewrite ?Hc, ?Halive; try done;
    try (destruct (chat_open c s); [| done]);
    try (destruct (voice_open c s); [| done]);
    cbn [on_chat on_voice];
    try (destruct (mounted s); [| done]).
  all: try (unfold handleConnect, on_receive_message, on_participants_list,
              on_meeting_ended, on_user_joined, on_user_left,
              on_socket_error, on_voice_joined, on_peer_joined,
              on_peer_disconnected, on_voice_error, on_call_closed,
              sendMessage, toggleChat, hangup, hangup_rest;
            repeat first
              [ reflexivity
              | progress cbn [hk peerStatus on_w on_hk set_peerCallsRef
                                set_main set_messages set_hasNewMessages
                                set_participants set_meetingEnded
                                set_chatInput set_showChat set_cameraOn
                                set_micOn]
              | match goal with
                | |- context [match ?b with _ => _ end] => destruct b eqn:?
                | |- context [if ?b then _ else _] => destruct b eqn:?
                end ]).
  - exact (proj2 (proj2 (kept_settle _ _ _))).
  - exact (proj2 (proj2 (kept_respond meetingId user _ _ _))).
  - exact (proj2 (proj2 (kept_unmount _))).
Qed.

Lemma status_fire c t s :
  main s = Some c → peer_gone c s → status_or_error s (fire user t s).
Proof.
  intros Hc (Hlt & p & Hp & Hd & Hdc).
  unfold fire. rewrite Hc.
  destruct (find_timer _ (w s)) as [tm|]; [| apply status_refl].
  destruct (_ <=? _)%N; [| apply status_refl].
  set (s1 := on_w _ s).
  assert (Hs1 : status_or_error s s1) by (by left).
  destruct (t_action tm); cbn [run_timer].
  - unfold connectionTimeout_fired. subst s1. cbn [w on_w].
    change (peers (emit _ (clearTimeout _ (w s)))) with (peers (w s)).
    rewrite Hp, Hdc. exact Hs1.
  - by left.
  - by left.
  - unfold peerReconnect_fired. subst s1. cbn [w on_w].
    change (peers (emit _ (clearTimeout _ (w s)))) with (peers (w s)).
    rewrite Hp, Hd. exact Hs1.
  - exact (status_trans _ _ _ Hs1 (status_callPeers_fired c _ s1)).
  - exact (status_trans _ _ _ Hs1 (status_callPeer_fired c _ s1)).
Qed.

Lemma status_handle c i s :
  main s = Some c → peer_gone c s →
  status_or_error s (handle meetingId token user i s).
Proof.
  intros Hc Hgone. destruct i;
    try (left; by apply (status_handle_other c)).
  cbn [handle]. by apply (status_fire c).
Qed.

Lemma frozen_step c s i :
  main s = Some c → peer_gone c s →
  status_or_error s (step' s i)
  ∧ ∃ c', main (step' s i) = Some c' ∧ newPeer c' = newPeer c
          ∧ newSocket c' = newSocket c
          ∧ newVoiceSocket c' = newVoiceSocket c
          ∧ c_micOn c' = c_micOn c
          ∧ peer_gone c' (step' s i).
Proof.
  intros Hc Hgone. split.
  - unfold step, status_or_error. rewrite hk_rerender.
    by apply (status_handle c).
  - destruct Hgone as (Hlt & p & Hp & Hd & Hdc).
    destruct (gone_step meetingId token user s i) as (Hn & _ & Hpeers).
    destruct (Hpeers (newPeer c) p Hlt Hp Hd Hdc) as (p' & Hp' & Hd' & Hdc').
    destruct (main_step meetingId token user s i)
      as [Hm | (c0 & Hc0 & _ & Hm)].
    + exists c. rewrite Hm. repeat split; try done; [lia | eauto].
    + rewrite Hc in Hc0. injection Hc0 as <-.
      exists (set_hasJoined true c). repeat split; try done; [cbn; lia |].
      cbn. eauto.
Qed.

Lemma frozen_run c s l :
  main s = Some c → peer_gone c s →
  status_or_error s (run' s l)
  ∧ ∃ c', main (run' s l) = Some c' ∧ newPeer c' = newPeer c
          ∧ newSocket c' = newSocket c
          ∧ newVoiceSocket c' = newVoiceSocket c
          ∧ c_micOn c' = c_micOn c
          ∧ peer_gone c' (run' s l).
Proof.
  revert s c. unfold run.
  induction l as [|i l IH]; intros s c Hc Hgone.
  - cbn [foldl]. split; [apply status_refl |]. by exists c.
  - cbn [foldl].
    destruct (frozen_step c s i Hc Hgone)
      as (Hst & c' & Hc' & Hp & Hs & Hv & Hmic & Hgone').
    destruct (IH (step' s i) c' Hc' Hgone')
      as (Hst' & c'' & Hc'' & Hp' & Hs' & Hv' & Hmic' & Hgone'').
    split; [exact (status_trans _ _ _ Hst Hst') |].
    exists c''. repeat split; try congruence. apply Hgone''. apply Hgone''.
Qed.

(** X23. Once the peer of the main effect is destroyed it stays destroyed in
    every run, and the peer status can only turn to ['error']: nothing sets
    ['connecting'] or ['connected'] any more, so a status that is ['error']
    stays. It does turn to ['error']: the ['error'] handler has no guard,
    and when a timer of ['voice-joined'] or ['peer-joined'] places its call
    through the destroyed peer, with a stream in the ref, PeerJS refuses the
    call with an ['error'] of type ['disconnected'] and the handler sets the
    status. *)
Theorem destroyed_peer_status_only_errors (s : state) (c : closure)
  (l : list input) :
  main s = Some c →
  peer_gone c s →
  let s' := run' s l in
  (peerStatus (hk s') = peerStatus (hk s)
   ∨ peerStatus (hk s') = StatusError)
  ∧ (peerStatus (hk s) = StatusError → peerStatus (hk s') = StatusError)
  ∧ peer_alive c s' = false
  ∧ (∀ p st, mediaStreamRef s' = Some st → c_micOn c = true →
       call_throws (w s') = true → Some p ≠ user_id <$> user →
       peerStatus (hk (callPeer_fired user c p s')) = StatusError
       ∧ peerCallsRef (callPeer_fired user c p s') = peerCallsRef s'
       ∧ calls (w (callPeer_fired user c p s')) = calls (w s')).
Proof.
  intros Hc Hgone s'.
  destruct (frozen_run c s l Hc Hgone)
    as (Hst & c' & Hc' & Hp & _ & _ & _ & Hgone').
  fold s' in Hst, Hc', Hgone'.
  pose proof (peer_gone_not_alive c' s' Hgone') as Halive.
  split; [exact Hst |]. split.
  { intros He. destruct Hst as [Hst | Hst]; congruence. }
  split; [unfold peer_alive in *; by rewrite <- Hp |].
  intros p st Href Hmic Hthrow Hself.
  destruct Hgone' as (_ & q & Hq & _ & Hdc).
  unfold callPeer_fired, initiateCall, call_refused.
  rewrite Href, Hmic, Hthrow, Hc'.
  rewrite (bool_decide_eq_true_2 (is_Some (Some st))) by eauto.
  rewrite (bool_decide_eq_false_2 (Some p = user_id <$> user)) by done.
  cbn [andb]. rewrite <- Hp, Hq, Hdc.
  rewrite (bool_decide_eq_true_2 (newPeer c' = newPeer c')) by done.
  cbn [andb]. done.
Qed.

End Frozen.

(** ** What the connection timeout does to the session *)

(** X24. When the connection timer runs in a mounted component whose hooks
    hold the sockets and the peer of the main effect, and the peer is not
    disconnected, the new peer it stores makes the cleanup effect run: the
    chat socket and the voice socket are disconnected, the first peer is
    destroyed and the stream is dropped. The handlers of the main effect are
    registered on these three objects, so from then on, whatever happens, the
    status stays ['error'] and no chat, voice or peer event reaches a handler;
    a chat message that arrives is not added to the transcript. *)
Theorem timeout_ends_session (meetingId token : option jsstring)
  (user : option User) (s : state) (c : closure) (tm : timer) (p : peer_obj)
  (l : list input) :
  mounted s = true →
  main s = Some c →
  socket (hk s) = Some (newSocket c) →
  voiceSocket (hk s) = Some (newVoiceSocket c) →
  peer (hk s) = Some (newPeer c) →
  find_timer (connectionTimeout c) (w s) = Some tm →
  t_action tm = ConnectionTimeout →
  (t_due tm <= now (w s))%N →
  peers (w s) !! newPeer c = Some p →
  disconnected p = false →
  newSocket c < next (w s) →
  newVoiceSocket c < next (w s) →
  newPeer c < next (w s) →
  let s1 := step meetingId token user s (Fire (connectionTimeout c)) in
  let s' := run meetingId token user s1 l in
  peerStatus (hk s') = StatusError
  ∧ peer (hk s1) = Some (next (w s))
  ∧ mediaStreamRef s1 = None
  ∧ chat_open c s' = false
  ∧ voice_open c s' = false
  ∧ peer_alive c s' = false
  ∧ (∀ author text,
       messages (hk (step meetingId token user s' (ReceiveMessage author text)))
       = messages (hk s')).
Proof.
  intros Hm Hc Hso Hvs Hpe Hf Ha Hdue Hp Hd Hlso Hlvs Hlpe s1 s'.
  set (k := connectionTimeout c) in *.
  set (h1 := handle meetingId token user (Fire k) s).
  assert (Hh1 : h1 = on_hk (λ h, set_peer (Some (next (w s)))
                                    (set_peerStatus StatusError h))
            (on_w (λ x, (new_peer (user_id (c_user c) ++ lit "_"
                                     ++ decimal (now x))
                           (emit (TimerRun k) (clearTimeout k x))).2) s)).
  { subst h1. cbn [handle]. unfold fire. rewrite Hf, Hc.
    apply N.leb_le in Hdue. rewrite Hdue, Ha. cbn [run_timer].
    unfold connectionTimeout_fired. cbn [w on_w].
    change (peers (emit _ (clearTimeout _ (w s)))) with (peers (w s)).
    by rewrite Hp, Hd. }
  assert (Hm1 : mounted h1 = true) by (by rewrite Hh1).
  assert (Hpe1 : peer (hk h1) ≠ peer (hk s)).
  { rewrite Hh1, Hpe. cbn. intros [= Heq]. lia. }
  assert (Hp1 : peers (w h1) !! newPeer c = Some p).
  { rewrite Hh1. cbn. rewrite lookup_insert_ne by lia. done. }
  destruct (rerender_peer_changed meetingId user (hk s) h1 Hm1 Hpe1)
    as (Href & _ & Hsock & Hpeer & _).
  change (rerender meetingId user (hk s) h1) with s1 in Href, Hsock, Hpeer.
  assert (Hc1 : main s1 = Some c).
  { subst s1. rewrite main_step_other; done. }
  assert (Hst1 : peerStatus (hk s1) = StatusError).
  { subst s1. unfold step. rewrite hk_rerender. fold h1. by rewrite Hh1. }
  assert (Hpk1 : peer (hk s1) = Some (next (w s))).
  { subst s1. unfold step. rewrite hk_rerender. fold h1. by rewrite Hh1. }
  destruct (gone_step meetingId token user s (Fire k)) as (Hn1 & _ & _).
  fold s1 in Hn1.
  assert (Hgone : peer_gone c s1).
  { split; [lia |]. eexists. split; [by apply Hpeer |]. done. }
  destruct (frozen_run meetingId token user c s1 l Hc1 Hgone)
    as (Hst & c' & Hc' & Hpe' & Hso' & Hvs' & _ & Hgone').
  fold s' in Hst, Hc', Hgone'.
  assert (Hst' : peerStatus (hk s') = StatusError)
    by (destruct Hst as [Hst | Hst]; congruence).
  assert (Halive : peer_alive c s' = false).
  { pose proof (peer_gone_not_alive c' s' Hgone') as Ha'.
    unfold peer_alive in *. by rewrite <- Hpe'. }
  destruct (gone_run meetingId token user s1 l) as (_ & Hclosed & _).
  fold s' in Hclosed.
  assert (Hchat : chat_open c s' = false).
  { unfold chat_open. rewrite (Hclosed (newSocket c)); [done | lia |].
    apply Hsock. by left. }
  assert (Hvoice : voice_open c s' = false).
  { unfold voice_open. rewrite (Hclosed (newVoiceSocket c)); [done | lia |].
    apply Hsock. by right. }
  split; [done |]. split; [done |]. split; [done |].
  split; [done |]. split; [done |]. split; [done |].
  intros author text. unfold step. rewrite hk_rerender. cbn [handle].
  rewrite Hc'. unfold chat_open in *. rewrite Hso', Hchat. done.
Qed.

(** Ana's session at the connection timeout. *)
Lemma at_timeout_handle_mounted :
  mounted (handle (Some (lit "m1")) (Some (lit "tok")) (Some ana) (Fire 4)
             at_timeout) = true.
Proof. by vm_compute. Qed.

Lemma at_timeout_handle_peer :
  peer (hk (handle (Some (lit "m1")) (Some (lit "tok")) (Some ana) (Fire 4)
              at_timeout))
  ≠ peer (hk at_timeout).
Proof. vm_compute. discriminate. Qed.

Lemma peer_change_runs_cleanup_witness :
  mediaStreamRef (step (Some (lit "m1")) (Some (lit "tok")) (Some ana)
                    at_timeout (Fire 4)) = None.
Proof.
  exact (proj1 (peer_change_runs_cleanup (Some (lit "m1")) (Some (lit "tok"))
                  (Some ana) at_timeout (Fire 4) at_timeout_handle_mounted
                  at_timeout_handle_peer)).
Defined.

Lemma after_timeout_main : main after_timeout = Some ana_closure.
Proof. by vm_compute. Qed.

Lemma after_timeout_peer_gone : peer_gone ana_closure after_timeout.
Proof.
  split; [vm_compute; lia |].
  exists {| peer_identity := lit "u1"; disconnected := true;
            destroyed := true |}.
  by vm_compute.
Qed.

Lemma reconnect_failed_main : main reconnect_failed = Some ana_closure.
Proof. by vm_compute. Qed.

Lemma reconnect_failed_peer_gone : peer_gone ana_closure reconnect_failed.
Proof.
  split; [vm_compute; lia |].
  exists {| peer_identity := lit "u1"; disconnected := true;
            destroyed := true |}.
  by vm_compute.
Qed.

Lemma destroyed_peer_status_only_errors_witness :
  peerStatus (hk (run (Some (lit "m1")) (Some (lit "tok")) (Some ana)
                    reconnect_failed [Settle 11 Granted; Fire 8]))
  = peerStatus (hk reconnect_failed)
  ∨ peerStatus (hk (run (Some (lit "m1")) (Some (lit "tok")) (Some ana)
                      reconnect_failed [Settle 11 Granted; Fire 8]))
    = StatusError.
Proof.
  exact (proj1 (destroyed_peer_status_only_errors (Some (lit "m1"))
                  (Some (lit "tok")) (Some ana) reconnect_failed ana_closure
                  [Settle 11 Granted; Fire 8] reconnect_failed_main
                  reconnect_failed_peer_gone)).
Defined.

(** On Ana's session: the reconnection fails and leaves the status at
    ['connecting'] with the first peer destroyed; the media effect asks for
    the microphone again, and once it is granted the timer of
    ['peer-joined'] places its call through the destroyed peer: no call is
    made and the status turns to ['error']. The 10 second timer the handler
    starts then finds the peer destroyed and does nothing. *)
Example refused_call_sets_error :
  let s := meeting_run reconnect_failed [Settle 11 Granted; Fire 8] in
  peerStatus (hk reconnect_failed) = StatusConnecting
  ∧ peer_alive ana_closure reconnect_failed = false
  ∧ mounted reconnect_failed = true
  ∧ peerStatus (hk s) = StatusError
  ∧ calls (w s) = ∅
  ∧ peerStatus (hk (meeting_run s [Tick 10000; Fire 13])) = StatusError.
Proof. by vm_compute. Qed.

Lemma at_timeout_mounted : mounted at_timeout = true.
Proof. by vm_compute. Qed.

Lemma at_timeout_closure : main at_timeout = Some ana_closure.
Proof. by vm_compute. Qed.

Lemma at_timeout_socket : socket (hk at_timeout) = Some 1.
Proof. by vm_compute. Qed.

Lemma at_timeout_voiceSocket : voiceSocket (hk at_timeout) = Some 2.
Proof. by vm_compute. Qed.

Lemma at_timeout_peer_hook : peer (hk at_timeout) = Some 3.
Proof. by vm_compute. Qed.

Lemma at_timeout_find :
  find_timer 4 (w at_timeout)
  = Some {| t_id := 4; t_due := 20000; t_action := ConnectionTimeout |}.
Proof. by vm_compute. Qed.

Lemma at_timeout_now : (20000 <= now (w at_timeout))%N.
Proof. by vm_compute. Qed.

Lemma at_timeout_first_peer :
  peers (w at_timeout) !! 3
  = Some {| peer_identity := lit "u1"; disconnected := false;
            destroyed := false |}.
Proof. by vm_compute. Qed.

Lemma at_timeout_next : 3 < next (w at_timeout).
Proof. vm_compute. lia. Qed.

Lemma timeout_ends_session_witness :
  peerStatus
    (hk (run (Some (lit "m1")) (Some (lit "tok")) (Some ana)
           (step (Some (lit "m1")) (Some (lit "tok")) (Some ana) at_timeout
              (Fire (connectionTimeout ana_closure)))
           [PeerOpen; ReceiveMessage (lit "Bo") (lit "hola")]))
  = StatusError.
Proof.
  assert (H1 : 1 < next (w at_timeout)) by (pose proof at_timeout_next; lia).
  assert (H2 : 2 < next (w at_timeout)) by (pose proof at_timeout_next; lia).
  exact (proj1 (timeout_ends_session (Some (lit "m1")) (Some (lit "tok"))
                  (Some ana) at_timeout ana_closure
                  {| t_id := 4; t_due := 20000; t_action := ConnectionTimeout |}
                  {| peer_identity := lit "u1"; disconnected := false;
                     destroyed := false |}
                  [PeerOpen; ReceiveMessage (lit "Bo") (lit "hola")]
                  at_timeout_mounted at_timeout_closure at_timeout_socket
                  at_timeout_voiceSocket at_timeout_peer_hook at_timeout_find
                  eq_refl at_timeout_now at_timeout_first_peer eq_refl
                  H1 H2 at_timeout_next)).
Defined.

(** On Ana's session: after the timeout both sockets are disconnected, the
    first peer is destroyed, and a message from Bo no longer shows. *)
Example timeout_on_ana_session :
  sockets (w after_timeout) !! 1 = Some true
  ∧ sockets (w after_timeout) !! 2 = Some true
  ∧ destroyed <$> peers (w after_timeout) !! 3 = Some true
  ∧ peer (hk after_timeout) = Some 8
  ∧ length (messages (hk (meeting_run after_timeout
                            [ReceiveMessage (lit "Bo") (lit "hola")]))) = 1.
Proof. by vm_compute. Qed.

(** ** Entering the page *)

(** The variables of the main effect and the hooks after the mount. *)
Lemma mount_main (meetingId token : option jsstring) (u : User) (x : world) :
  truthy meetingId = true →
  truthy token = true →
  let s := mount meetingId token (Some u) x in
  let n := next x in
  main s
  = Some {| newSocket := 1 + n; newVoiceSocket := 2 + n; newPeer := 3 + n;
            connectionTimeout := 4 + n; hasJoined := false; c_user := u;
            c_meetingId := default [] meetingId; c_micOn := true;
            c_showChat := false |}
  ∧ hk s = set_sockets3 (Some (1 + n)) (Some (2 + n)) (Some (3 + n))
             (initial_hooks (Some u)).
Proof.
  intros Hm Ht s n. subst s n.
  destruct meetingId as [[|a m]|]; try discriminate.
  destruct token as [[|b k]|]; try discriminate.
  destruct x as [tk cl pr so tm nw pd tr nx rt ct cn].
  split; by vm_compute.
Qed.

(** X25. Mounting with a meeting id, a token and a user. The page asks for the
    microphone three times: once for the permission and twice from the media
    effect, which runs for the first render and again for the render that
    stores the sockets and the peer; the first of its two runs is no longer
    the mounted one when its request is granted. It opens the chat socket and
    the voice socket, creates the peer under the user's id, sets the
    connection timer 20 seconds ahead and fetches the meeting. *)
Theorem mount_in_meeting (meetingId token : option jsstring) (u : User)
  (x : world) :
  truthy meetingId = true →
  truthy token = true →
  let s := mount meetingId token (Some u) x in
  let n := next x in
  trace (w s)
  = trace x ++ [GetUserMedia false true; Fetch (GetMeeting meetingId);
                GetUserMedia false true; GetUserMedia false true]
  ∧ pending (w s)
    = pending x ++ [(n, KPermission); (5 + n, KGetMeeting (user_id u));
                    (6 + n, KEnsureAcquire 1 false);
                    (7 + n, KEnsureAcquire 2 false)]
  ∧ timers (w s)
    = timers x ++ [{| t_id := 4 + n; t_due := (now x + 20000)%N;
                      t_action := ConnectionTimeout |}]
  ∧ next (w s) = 8 + n
  ∧ media_run s = 2 ∧ media_mounted s = true ∧ mediaStreamRef s = None
  ∧ hk s = set_sockets3 (Some (1 + n)) (Some (2 + n)) (Some (3 + n))
             (initial_hooks (Some u))
  ∧ main s
    = Some {| newSocket := 1 + n; newVoiceSocket := 2 + n; newPeer := 3 + n;
              connectionTimeout := 4 + n; hasJoined := false; c_user := u;
              c_meetingId := default [] meetingId; c_micOn := true;
              c_showChat := false |}
  ∧ sockets (w s) = <[2 + n := false]> (<[1 + n := false]> (sockets x))
  ∧ peers (w s)
    = <[3 + n := {| peer_identity := user_id u; disconnected := false;
                    destroyed := false |}]> (peers x).
Proof.
  intros Hm Ht s n. subst s n.
  destruct meetingId as [[|a m]|]; try discriminate.
  destruct token as [[|b k]|]; try discriminate.
  destruct x as [tk cl pr so tm nw pd tr nx rt ct cn].
  cbn [trace pending timers next now sockets peers].
  assert (Htr : ∀ (a b c d : effect), (((tr ++ [a]) ++ [b]) ++ [c]) ++ [d]
                                       = tr ++ [a; b; c; d])
    by (intros; by rewrite <- !app_assoc).
  assert (Hpd : ∀ (a b c d : nat * continuation),
            (((pd ++ [a]) ++ [b]) ++ [c]) ++ [d] = pd ++ [a; b; c; d])
    by (intros; by rewrite <- !app_assoc).
  rewrite <- Htr, <- Hpd.
  repeat match goal with |- _ ∧ _ => split end; by vm_compute.
Qed.

Lemma mount_in_meeting_witness :
  trace (w (mount (Some (lit "m1")) (Some (lit "tok")) (Some ana)
              (empty_world 0)))
  = trace (empty_world 0)
    ++ [GetUserMedia false true; Fetch (GetMeeting (Some (lit "m1")));
        GetUserMedia false true; GetUserMedia false true].
Proof.
  exact (proj1 (mount_in_meeting (Some (lit "m1")) (Some (lit "tok")) ana
                  (empty_world 0) eq_refl eq_refl)).
Defined.

(** The three requests granted in the order they were made, on a page that
    has just loaded: the stream of the permission request and the stream of
    the first run of the media effect are stopped, the one of the second run
    is live and in the ref. *)
Example mount_grants_in_order (meetingId token : option jsstring) (u : User)
  (t0 : N) :
  truthy meetingId = true →
  truthy token = true →
  let s := run meetingId token (Some u)
             (mount meetingId token (Some u) (empty_world t0))
             [Settle 0 Granted; Settle 6 Granted; Settle 7 Granted] in
  mediaStreamRef s = Some [10]
  ∧ stopped <$> tracks (w s) !! 8 = Some true
  ∧ stopped <$> tracks (w s) !! 9 = Some true
  ∧ tracks (w s) !! 10 = Some (live AudioTrack)
  ∧ acquisitions (trace (w s)) = 3.
Proof.
  intros Hm Ht.
  destruct meetingId as [[|a m]|]; try discriminate.
  destruct token as [[|b k]|]; try discriminate.
  by vm_compute.
Qed.

(** Without a meeting id the mount is the first run of the media effect. *)
Lemma mount_plain (meetingId token : option jsstring) (user : option User)
  (x : world) :
  truthy meetingId = false →
  mount meetingId token user x
  = on_w (λ y, suspend (KEnsureAcquire 1 false)
                 (emit (GetUserMedia false true) y))
      (set_media 1 true (initial_state user x)).
Proof.
  intros Hm. unfold mount.
  assert (Hp : permission_effect meetingId (initial_state user x)
               = initial_state user x)
    by (unfold permission_effect; by rewrite Hm).
  rewrite Hp.
  assert (Hmain : main_effect meetingId token user
                    (hk (initial_state user x)) (initial_state user x)
                  = initial_state user x).
  { unfold main_effect. rewrite Hm. by destruct user. }
  rewrite Hmain.
  assert (Hmedia : media_effect meetingId user (hk (initial_state user x))
                     (initial_state user x)
                   = on_w (λ y, suspend (KEnsureAcquire 1 false)
                                  (emit (GetUserMedia false true) y))
                       (set_media 1 true (initial_state user x)))
    by done.
  rewrite Hmedia.
  apply rerender_same_deps; apply deps_unchanged_refl.
Qed.

(** X26. Mounting without a meeting id (the page opened from the site map): no
    socket, no peer, no timer, no permission request and no fetch; the media
    effect alone runs and asks for the microphone. It stays that way: in no
    run does the page get a chat socket, so no message is ever sent. *)
Theorem mount_without_meeting (meetingId token : option jsstring)
  (user : option User) (x : world) :
  truthy meetingId = false →
  let s := mount meetingId token user x in
  main s = None
  ∧ hk s = initial_hooks user
  ∧ trace (w s) = trace x ++ [GetUserMedia false true]
  ∧ pending (w s) = pending x ++ [(next x, KEnsureAcquire 1 false)]
  ∧ sockets (w s) = sockets x
  ∧ peers (w s) = peers x
  ∧ timers (w s) = timers x
  ∧ ∀ l, let s' := run meetingId token user s l in
         main s' = None ∧ socket (hk s') = None
         ∧ sendMessage meetingId user s' = s'.
Proof.
  intros Hm s.
  assert (Hs : s = on_w (λ y, suspend (KEnsureAcquire 1 false)
                                (emit (GetUserMedia false true) y))
                     (set_media 1 true (initial_state user x)))
    by (by apply mount_plain).
  assert (Hkeep : ∀ i s', main s' = None → socket (hk s') = None →
            socket (hk (handle meetingId token user i s')) = None).
  { intros i s' Hmn Hn.
    destruct i; cbn [handle]; rewrite ?Hmn; try done.
    - unfold fire. rewrite Hmn. by destruct (find_timer _ _).
    - unfold settle, requestMicrophonePermission_resume,
        ensureMedia_acquired, ensureMedia_replaced, ensureMedia_catch.
      repeat first
        [ assumption
        | progress cbn [hk socket on_w on_hk set_mediaStreamRef set_micOn
                          set_cameraOn]
        | match goal with
          | |- context [match ?e with (_, _) => _ end] =>
              rewrite (surjective_pairing e)
          | |- context [match ?b with _ => _ end] => destruct b eqn:?
          | |- context [if ?b then _ else _] => destruct b eqn:?
          end ].
    - unfold respond, hangup_resume, hangup_rest, getMeeting_resume.
      repeat first
        [ assumption
        | progress cbn [hk socket on_w on_hk set_isCreator set_participants
                          set_showChat]
        | match goal with
          | |- context [match ?b with _ => _ end] => destruct b eqn:?
          | |- context [if ?b then _ else _] => destruct b eqn:?
          end ].
    - unfold on_call_closed.
      by destruct (calls (w s') !! c) as [[? ? ? [?|]]|].
    - by destruct (mounted s').
    - destruct (mounted s'); [| done]. unfold sendMessage. rewrite Hn.
      by destruct (trim (chatInput (hk s'))).
    - by destruct (mounted s').
    - by destruct (mounted s').
    - destruct (mounted s'); [| done]. unfold toggleChat.
      by destruct (negb (showChat (hk s'))).
    - destruct (mounted s'); [| done]. unfold hangup, hangup_rest.
      destruct (_ && _); [done |].
      by destruct user, (voiceSocket (hk s')).
    - unfold unmount. destruct (mounted s'); [| done].
      cbn [hk set_mounted]. rewrite hk_cleanup.
      change (hk (media_cleanup (main_cleanup s')))
        with (hk (main_cleanup s')).
      by rewrite (proj1 (main_cleanup_frame s')). }
  split; [by rewrite Hs |]. split; [by rewrite Hs |].
  split; [by rewrite Hs |]. split; [by rewrite Hs |].
  split; [by rewrite Hs |]. split; [by rewrite Hs |].
  split; [by rewrite Hs |].
  assert (Hinv : ∀ l s0, main s0 = None → socket (hk s0) = None →
            main (run meetingId token user s0 l) = None
            ∧ socket (hk (run meetingId token user s0 l)) = None).
  { unfold run. induction l as [|i l IH]; intros s0 Hmn Hn; [done |].
    cbn [foldl]. apply IH.
    - destruct (main_step meetingId token user s0 i)
        as [-> | (c & Hc & _)]; [done | congruence].
    - unfold step. rewrite hk_rerender. by apply Hkeep. }
  intros l s'. destruct (Hinv l s) as [H1 H2]; [by rewrite Hs.. |].
  split; [done |]. split; [done |].
  unfold sendMessage. fold s' in H2. rewrite H2.
  by destruct (trim (chatInput (hk s'))).
Qed.

Lemma mount_without_meeting_witness :
  main (mount None (Some (lit "tok")) (Some ana) (empty_world 0)) = None.
Proof.
  exact (proj1 (mount_without_meeting None (Some (lit "tok")) (Some ana)
                  (empty_world 0) eq_refl)).
Defined.

(** ** From the landing page into the call *)

Ltac in_list H :=
  repeat (apply elem_of_cons in H as [H | H]);
  try (by apply elem_of_nil in H); try discriminate H.

(** X27. Joining by code. The page navigates to the call exactly when the code
    is not blank, there is a token, and the backend answers [ok] with a
    meeting whose status is ['active']; the meeting id it passes on is the
    code as typed, not trimmed; it then has made one request and resets the
    form. No request is made without a code or without a token. When the
    meeting is found not to be active the form keeps the code. *)
Theorem join_with_code (token : option jsstring) (r : RealTime.response)
  (f : RealTime.form) :
  let out := RealTime.handleJoinWithCode token r f in
  let code := RealTime.roomCode f in
  (∀ m, RealTime.Navigate m ∈ out.2
        ↔ m = Some code ∧ blank code = false ∧ truthy token = true
          ∧ ∃ mt, r = RealTime.Response true (Some mt)
                  ∧ RealTime.meeting_status mt = Some (lit "active"))
  ∧ (∀ m, RealTime.Navigate m ∈ out.2 →
       out = ({| RealTime.showCodeInput := false; RealTime.roomCode := [] |},
              [RealTime.GetMeeting code (default [] token);
               RealTime.Navigate m]))
  ∧ (∀ c t, RealTime.GetMeeting c t ∈ out.2 →
       c = code ∧ blank code = false ∧ truthy token = true)
  ∧ (∀ mt, r = RealTime.Response true (Some mt) →
       RealTime.meeting_status mt ≠ Some (lit "active") →
       out.1 = f).
Proof.
  intros out code. subst out. unfold RealTime.handleJoinWithCode. fold code.
  destruct (blank code) eqn:Hb.
  - apply trim_nil in Hb. rewrite Hb. cbn [fst snd].
    split; [| split; [| split]]; try done.
    + intros m. split; [intros Hin; in_list Hin | by intros (_ & ? & _)].
    + intros m Hin. in_list Hin.
    + intros c t Hin. in_list Hin.
  - assert (Hne : trim code ≠ []).
    { intros Ht. apply trim_nil in Ht. congruence. }
    destruct (trim code) as [|a tc]; [done |].
    destruct (truthy token) eqn:Htok; cbn [negb].
    2: { cbn [fst snd]. split; [| split; [| split]]; try done.
         - intros m. split; [intros Hin; in_list Hin | by intros (_ & _ & ? & _)].
         - intros m Hin. in_list Hin.
         - intros c t Hin. in_list Hin. }
    assert (Hreq : ∀ e c t, RealTime.GetMeeting c t
                            ∈ [RealTime.GetMeeting code (default [] token); e] →
                            (∀ c' t', e ≠ RealTime.GetMeeting c' t') →
                            c = code ∧ false = false ∧ true = true).
    { intros e c t Hin He. apply elem_of_cons in Hin as [[= -> ->] | Hin]; [done |].
      apply list_elem_of_singleton in Hin. by destruct (He c t). }
    assert (Hfail : ∀ r', (∀ mt, r' ≠ RealTime.Response true (Some mt)) →
      let out := ({| RealTime.showCodeInput := false; RealTime.roomCode := [] |},
                  [RealTime.GetMeeting code (default [] token);
                   RealTime.Alert RealTime.JoinFailed]) in
      (∀ m, RealTime.Navigate m ∈ out.2
            ↔ m = Some code ∧ false = false ∧ true = true
              ∧ ∃ mt, r' = RealTime.Response true (Some mt)
                      ∧ RealTime.meeting_status mt = Some (lit "active"))
      ∧ (∀ m, RealTime.Navigate m ∈ out.2 →
           out = ({| RealTime.showCodeInput := false; RealTime.roomCode := [] |},
                  [RealTime.GetMeeting code (default [] token);
                   RealTime.Navigate m]))
      ∧ (∀ c t, RealTime.GetMeeting c t ∈ out.2 →
           c = code ∧ false = false ∧ true = true)
      ∧ (∀ mt, r' = RealTime.Response true (Some mt) →
           RealTime.meeting_status mt ≠ Some (lit "active") → out.1 = f)).
    { intros r' Hr' out. subst out. cbn [fst snd].
      split; [| split; [| split]].
      - intros m. split; [intros Hin; in_list Hin |].
        intros (_ & _ & _ & mt & Hr & _). by destruct (Hr' mt).
      - intros m Hin. in_list Hin.
      - intros c t Hin. by apply (Hreq _ c t Hin).
      - intros mt Hr. by destruct (Hr' mt). }
    destruct r as [|[|] [mt|]]; try (by apply Hfail).
    destruct (bool_decide (RealTime.meeting_status mt = Some (lit "active")))
      eqn:Hact; cbn [fst snd];
      [apply bool_decide_eq_true_1 in Hact
      | apply bool_decide_eq_false_1 in Hact].
    + split; [| split; [| split]].
      * intros m. split.
        -- intros Hin. in_list Hin. injection Hin as ->. eauto 10.
        -- intros (-> & _). right. left.
      * intros m Hin. in_list Hin. by injection Hin as ->.
      * intros c t Hin. by apply (Hreq _ c t Hin).
      * by intros mt' [= <-].
    + split; [| split; [| split]]; try done.
      * intros m. split; [intros Hin; in_list Hin |].
        by intros (_ & _ & _ & mt' & [= <-] & ?).
      * intros m Hin. in_list Hin.
      * intros c t Hin. by apply (Hreq _ c t Hin).
Qed.

Lemma handleJoinWithCode_navigates token r f m :
  RealTime.Navigate m ∈ (RealTime.handleJoinWithCode token r f).2 →
  m = Some (RealTime.roomCode f)
  ∧ truthy (Some (RealTime.roomCode f)) = true
  ∧ truthy token = true.
Proof.
  unfold RealTime.handleJoinWithCode.
  destruct (trim (RealTime.roomCode f)) as [|a tc] eqn:Ht;
    [intros Hin; in_list Hin |].
  assert (Hcode : truthy (Some (RealTime.roomCode f)) = true).
  { destruct (RealTime.roomCode f); [discriminate Ht | done]. }
  destruct (truthy token); cbn [negb]; [| intros Hin; in_list Hin].
  destruct r as [|[|] [mt|]]; try (by intros Hin; in_list Hin).
  destruct (bool_decide _); intros Hin; in_list Hin.
  by injection Hin as ->.
Qed.

(** X28. A navigation made by [handleJoinWithCode] always carries a meeting id
    and comes with a token, so the call page it leads to, for a signed-in
    user, runs its main effect: the sockets and the peer exist, and the
    meeting the page works with is the code as typed. *)
Theorem join_enters_meeting (token : option jsstring) (r : RealTime.response)
  (f : RealTime.form) (m : option jsstring) (u : User) (x : world) :
  RealTime.Navigate m ∈ (RealTime.handleJoinWithCode token r f).2 →
  let s := mount m token (Some u) x in
  ∃ c, main s = Some c
       ∧ c_meetingId c = RealTime.roomCode f
       ∧ c_user c = u
       ∧ socket (hk s) = Some (newSocket c)
       ∧ voiceSocket (hk s) = Some (newVoiceSocket c)
       ∧ peer (hk s) = Some (newPeer c).
Proof.
  intros Hnav s.
  apply handleJoinWithCode_navigates in Hnav as (-> & Hm & Htok).
  destruct (mount_main (Some (RealTime.roomCode f)) token u x Hm Htok)
    as (Hmain & Hhk).
  fold s in Hhk, Hmain. eexists. split; [exact Hmain |]. by rewrite Hhk.
Qed.


Lemma join_enters_meeting_witness :
  ∃ c, main (mount (Some (lit "m1")) (Some (lit "tok")) (Some ana)
               (empty_world 0)) = Some c
       ∧ c_meetingId c = lit "m1".
Proof.
  assert (Hnav : RealTime.Navigate (Some (lit "m1"))
                 ∈ (RealTime.handleJoinWithCode (Some (lit "tok"))
                      (RealTime.Response true
                         (Some {| RealTime.meeting_id := Some (lit "m1");
                                  RealTime.meeting_status
                                    := Some (lit "active") |}))
                      {| RealTime.showCodeInput := true;
                         RealTime.roomCode := lit "m1" |}).2)
    by (right; left).
  destruct (join_enters_meeting _ _ _ _ ana (empty_world 0) Hnav)
    as (c & Hc & Hm & _).
  exact (ex_intro _ c (conj Hc Hm)).
Defined.

(** A code typed with a space around it passes the blank check and goes to
    the backend and to the call page as typed. *)
Example join_with_padded_code :
  RealTime.handleJoinWithCode (Some (lit "tok"))
    (RealTime.Response true
       (Some {| RealTime.meeting_id := Some (lit "m1");
                RealTime.meeting_status := Some (lit "active") |}))
    {| RealTime.showCodeInput := true; RealTime.roomCode := lit " m1 " |}
  = ({| RealTime.showCodeInput := false; RealTime.roomCode := [] |},
     [RealTime.GetMeeting (lit " m1 ") (lit "tok");
      RealTime.Navigate (Some (lit " m1 "))]).
Proof. by vm_compute. Qed.
